(** * GrammarBasedSpansText2SqlDatasetReader

    A shallow embedding of
    [text2sql/data/dataset_readers/grammar_based_spans.py]: the span
    normaliser [_fix_spans_coverage], the instance assembly
    [text_to_instance] with its action indexer, the single-record entry
    point [read_json_dict] and the constructor [__init__].

    Conventions.
    - Python [int] is [Z]; [str] is [string]; a [list] is a [list]; a [set]
      is a [gset]; a [dict] is a [gmap].
    - An argument or a value that may be Python's [None] is an [option].
    - A raised exception is the [Raise] outcome of [result]; the exceptions
      that the reader itself can raise are the constructors of [exn].
    - The collaborators the reader calls (tokenizer, grammar world,
      [print]) are recorded, in call order, in the log of the monad [M].
    - The field classes of the data library ([TextField], [SpanField],
      [ProductionRuleField], [IndexField], [ListField], [Instance]) are the
      records their constructors fill in. *)

From Stdlib Require Import Ascii String.
From stdpp Require Import gmap strings list fin_maps pretty.

Local Open Scope string_scope.
Local Open Scope Z_scope.

(** ** Python strings: [str.split] and [str.join] *)

Module PyStr.

(** [sep.join(parts)] *)
Fixpoint join (sep : string) (parts : list string) : string :=
  match parts with
  | [] => ""
  | [p] => p
  | p :: rest => p +:+ sep +:+ join sep rest
  end.

(** Puts one more character in front of the piece being read. *)
Definition cons_head (c : ascii) (pieces : list string) : list string :=
  match pieces with
  | [] => [String c ""]
  | p :: rest => String c p :: rest
  end.

(** [s.split(sep)] for a non-empty [sep], scanning left to right:
    where [sep] starts at the current position a piece ends and the
    [length sep - 1] following characters are skipped ([skip] counts
    them down); otherwise the character joins the current piece. *)
Fixpoint split_go (sep : string) (skip : nat) (s : string) : list string :=
  match s with
  | "" => [""]
  | String c s' =>
      match skip with
      | S k => split_go sep k s'
      | O =>
          if String.prefix sep s
          then "" :: split_go sep (String.length sep - 1) s'
          else cons_head c (split_go sep 0 s')
      end
  end.

Definition split (sep s : string) : list string := split_go sep 0 s.

End PyStr.

(** ** Exceptions and outcomes *)

Inductive exn :=
| TypeError (what : string)
| ValueError (what : string)
| KeyError (key : string)
| UnboundLocalError (name : string)
| ConfigurationError (msg : string)
| FileNotFoundError
| OtherError (what : string).

Inductive result (A : Type) :=
| Ok (a : A)
| Raise (e : exn).
Arguments Ok {A} a.
Arguments Raise {A} e.

Definition rbind {A B} (r : result A) (k : A → result B) : result B :=
  match r with
  | Ok a => k a
  | Raise e => Raise e
  end.

(** A local variable that is bound on some paths only: reading it while
    unbound raises [UnboundLocalError]. *)
Definition read_local {A} (name : string) (v : option A) : result A :=
  match v with
  | Some a => Ok a
  | None => Raise (UnboundLocalError name)
  end.

(** ** Data model *)

(** Tokens and the tokenizer held in [self._token_tokenizer]. *)
Record Token := { text : string }.
Record Tokenizer := { tokenize : string → list Token }.

Inductive TokenIndexer :=
| SingleIdTokenIndexer
| NamedTokenIndexer (name : string).

(** The grammar world held in [self._world]: the two methods the reader
    calls. The first answers with the gold action sequence ([None] when the
    SQL has no derivation) and the list of all actions. *)
Record Text2SqlWorld := {
  get_action_sequence_and_all_actions :
    list string → list (string * string) → list string →
    option (gmap string (gmap string string)) →
    option (list string) * list string;
  is_global_rule : string → bool
}.

Record TableColumn := {
  column_name : string; column_type : string; is_primary_key : bool
}.

Inductive Cursor := SqliteCursor (database_file : string).

(** The fields of an instance. *)
Record TextField := {
  tokens : list Token;
  text_token_indexers : gmap string TokenIndexer
}.

Record SpanField := {
  span_start : Z;
  span_end : Z;
  span_sequence_field : TextField
}.

Record ProductionRuleField := {
  rule : string;
  is_global : bool;
  nonterminal : string
}.

Record ListField (A : Type) := { field_list : list A }.
Arguments Build_ListField {A} _.
Arguments field_list {A} _.

Record IndexField := {
  sequence_index : Z;
  sequence_field : ListField ProductionRuleField
}.

Inductive Field :=
| FieldText (f : TextField)
| FieldSpans (f : ListField SpanField)
| FieldRules (f : ListField ProductionRuleField)
| FieldIndices (f : ListField IndexField).

Record Instance := { fields : gmap string Field }.

(** The attributes [__init__] sets on [self]. *)
Record Reader := {
  lazy : bool;
  _token_tokenizer : Tokenizer;
  _token_indexers : gmap string TokenIndexer;
  _use_all_sql : bool;
  _remove_unneeded_aliases : bool;
  _use_prelinked_entities : bool;
  _keep_if_unparsable : bool;
  _use_all_queries : bool;
  _load_cache : bool;
  _save_cache : bool;
  _loading_limit : Z;
  _cross_validation_split_to_exclude : string;
  _cursor : option Cursor;
  _schema_path : string;
  _schema : gmap string (list TableColumn);
  _world : Text2SqlWorld
}.

(** ** The monad of [text_to_instance]: exceptions and a call log *)

Inductive event :=
| Tokenize (text : string) (answer : list Token)
| WorldQuery (sql : list string) (derived_cols : list (string * string))
    (derived_tables : list string)
    (prelinked_entities : option (gmap string (gmap string string)))
    (answer : option (list string) * list string)
| IsGlobalRule (nonterminal : string) (answer : bool)
| Print (line : string).

Definition M (A : Type) : Type := (list event * result A)%type.

Definition ret {A} (a : A) : M A := ([], Ok a).
Definition raise {A} (e : exn) : M A := ([], Raise e).
Definition emit (ev : event) : M unit := ([ev], Ok tt).
Definition lift {A} (r : result A) : M A := ([], r).

Definition bind {A B} (m : M A) (k : A → M B) : M B :=
  match m with
  | (log, Ok a) => let '(log', r) := k a in ((log ++ log')%list, r)
  | (log, Raise e) => (log, Raise e)
  end.

Notation "'let!' x := m 'in' k" := (bind m (λ x, k))
  (at level 10, x pattern, m at level 100, k at level 200).
Notation "'run!' m 'in' k" := (bind m (λ _, k))
  (at level 10, m at level 100, k at level 200).

Definition trace {A} (m : M A) : list event := m.1.
Definition outcome {A} (m : M A) : result A := m.2.

Fixpoint mapM {A B} (f : A → M B) (l : list A) : M (list B) :=
  match l with
  | [] => ret []
  | a :: l' => let! b := f a in let! bs := mapM f l' in ret (b :: bs)
  end.

Fixpoint rmapM {A B} (f : A → result B) (l : list A) : result (list B) :=
  match l with
  | [] => Ok []
  | a :: l' => rbind (f a) (λ b, rbind (rmapM f l') (λ bs, Ok (b :: bs)))
  end.

(** Calls to the collaborators, logged with their answers. *)
Definition call_tokenize (t : Tokenizer) (s : string) : M (list Token) :=
  let toks := tokenize t s in run! emit (Tokenize s toks) in ret toks.

Definition call_world (w : Text2SqlWorld) (sql : list string)
    (derived_cols : list (string * string)) (derived_tables : list string)
    (prelinked_entities : option (gmap string (gmap string string)))
  : M (option (list string) * list string) :=
  let ans := get_action_sequence_and_all_actions w sql derived_cols
               derived_tables prelinked_entities in
  run! emit (WorldQuery sql derived_cols derived_tables prelinked_entities ans)
  in ret ans.

Definition call_is_global_rule (w : Text2SqlWorld) (nt : string) : M bool :=
  let b := is_global_rule w nt in run! emit (IsGlobalRule nt b) in ret b.

Definition print (line : string) : M unit := emit (Print line).

(** ** The reader *)

(** [_fix_spans_coverage(spans, source_length)]. Iterating over [None]
    raises [TypeError]. *)
Definition _fix_spans_coverage (spans : option (list (Z * Z)))
    (source_length : Z) : result (gset (Z * Z)) :=
  match spans with
  | None => Raise (TypeError "'NoneType' object is not iterable")
  | Some spans =>
      (* add -1 to the end indices to make inclusive *)
      let new_spans := (λ '(s, e), (s, e - 1)) <$> spans in
      let spans_set : gset (Z * Z) := list_to_set new_spans in
      (* add all size 1 spans *)
      Ok (foldl (λ acc i, acc ∪ {[ (i, i) ]}) spans_set
            (seqZ 0 source_length))
  end.

(** The body of the loop over [all_actions]: the unpacking
    [nonterminal, _ = production_rule.split(' ->')] needs exactly two
    pieces. *)
Definition unpack_nonterminal (production_rule : string) : result string :=
  match PyStr.split " ->" production_rule with
  | [nonterminal; _] => Ok nonterminal
  | [] | [_] =>
      Raise (ValueError "not enough values to unpack (expected 2, got 1)")
  | _ => Raise (ValueError "too many values to unpack (expected 2)")
  end.

Definition production_rule_field (w : Text2SqlWorld)
    (production_rule : string) : M ProductionRuleField :=
  let! nonterminal := lift (unpack_nonterminal production_rule) in
  let production_rule := PyStr.join " " (PyStr.split " " production_rule) in
  let! g := call_is_global_rule w nonterminal in
  ret {| rule := production_rule; is_global := g;
         nonterminal := nonterminal |}.

(** [enumerate(l)] *)
Definition enumerate {A} (l : list A) : list (nat * A) :=
  imap (λ i a, (i, a)) l.

(** [{action.rule: i for i, action in enumerate(field_list)}]: the
    entries are stored in order, a later one replacing an earlier one with
    the same key. *)
Definition action_map_of (valid_actions_field : ListField ProductionRuleField)
  : gmap string nat :=
  foldl (λ m '(i, action), <[rule action := i]> m) ∅
    (enumerate (field_list valid_actions_field)).

(** [action_map[production_rule]] *)
Definition getitem (action_map : gmap string nat) (key : string)
  : result nat :=
  match action_map !! key with
  | Some i => Ok i
  | None => Raise (KeyError key)
  end.

(** The loop over [action_sequence] (lines 232-233). *)
Definition index_loop (action_map : gmap string nat)
    (valid_actions_field : ListField ProductionRuleField)
    (action_sequence : list string) : result (list IndexField) :=
  rmapM (λ production_rule,
           rbind (getitem action_map production_rule)
             (λ i, Ok {| sequence_index := Z.of_nat i;
                         sequence_field := valid_actions_field |}))
    action_sequence.

(** The loop followed by [if not action_sequence: ...] (lines 232-235). *)
Definition index_actions (action_map : gmap string nat)
    (valid_actions_field : ListField ProductionRuleField)
    (action_sequence : list string) : result (list IndexField) :=
  rbind (index_loop action_map valid_actions_field action_sequence)
    (λ index_fields,
       match action_sequence with
       | [] => Ok [ {| sequence_index := -1;
                       sequence_field := valid_actions_field |} ]
       | _ :: _ => Ok index_fields
       end).

(** Lines 215-241 of [text_to_instance]: the two locals are bound only
    when [sql] was given. *)
Definition build_instance (self : Reader) (fields : gmap string Field)
    (action_sequence all_actions : option (list string))
  : M (option Instance) :=
  let! all_actions := lift (read_local "all_actions" all_actions) in
  let! production_rule_fields :=
    mapM (production_rule_field (_world self)) all_actions in
  let valid_actions_field := Build_ListField production_rule_fields in
  let fields := <["valid_actions" := FieldRules valid_actions_field]> fields in
  let action_map := action_map_of valid_actions_field in
  let! action_sequence :=
    lift (read_local "action_sequence" action_sequence) in
  let! index_fields :=
    lift (index_actions action_map valid_actions_field action_sequence) in
  let action_sequence_field := Build_ListField index_fields in
  let fields :=
    <["action_sequence" := FieldIndices action_sequence_field]> fields in
  ret (Some {| fields := fields |}).

(** Lines 204-241 of [text_to_instance]: the query to the grammar world
    when [sql] is given, the early [return None], and the rest. *)
Definition derive_and_build (self : Reader) (fields : gmap string Field)
    (derived_cols : list (string * string)) (derived_tables : list string)
    (prelinked_entities : option (gmap string (gmap string string)))
    (sql : option (list string)) : M (option Instance) :=
  match sql with
  | Some sql =>
      let! (action_sequence, all_actions) :=
        call_world (_world self) sql derived_cols derived_tables
          prelinked_entities in
      match action_sequence with
      | None =>
          if _keep_if_unparsable self then
            run! print "Parse error" in
            build_instance self fields (Some []) (Some all_actions)
          else ret None
      | Some _ => build_instance self fields action_sequence (Some all_actions)
      end
  | None => build_instance self fields None None
  end.

(** Lines 192-202 of [text_to_instance]: the two fields built before the
    grammar world is asked. *)
Definition tokens_field (self : Reader) (tokens_tokenized : list Token)
  : TextField :=
  {| tokens := tokens_tokenized; text_token_indexers := _token_indexers self |}.

Definition span_list_field (tokens : TextField) (spans : gset (Z * Z))
  : ListField SpanField :=
  Build_ListField
    ((λ '(start, end_), {| span_start := start; span_end := end_;
                           span_sequence_field := tokens |})
       <$> elements spans).

(** [text_to_instance]; the result [None] is the early [return None]. The
    loop over the set of spans visits it in the order of [elements]. *)
Definition text_to_instance (self : Reader) (query : list string)
    (derived_cols : list (string * string)) (derived_tables : list string)
    (prelinked_entities : option (gmap string (gmap string string)))
    (sql : option (list string)) (spans : option (list (Z * Z)))
  : M (option Instance) :=
  let fields : gmap string Field := ∅ in
  let! tokens_tokenized :=
    call_tokenize (_token_tokenizer self) (PyStr.join " " query) in
  let tokens := tokens_field self tokens_tokenized in
  let fields := <["tokens" := FieldText tokens]> fields in
  let! spans :=
    lift (_fix_spans_coverage spans (Z.of_nat (length tokens_tokenized))) in
  let fields := <["spans" := FieldSpans (span_list_field tokens spans)]> fields in
  derive_and_build self fields derived_cols derived_tables prelinked_entities
    sql.

(** ** [read_json_dict] *)

(** What [process_sql_data] yields. *)
Module SqlData.
Record t := {
  text_with_variables : list string;
  derived_cols : list (string * string);
  derived_tables : list string;
  sql_variables : gmap string (gmap string string);
  sql : list string;
  spans : option (list (Z * Z))
}.
End SqlData.

(** The record [read_json_dict] hands to [process_sql_data]. *)
Module Data.
Record sentence := {
  text : string;
  question_split : string;
  variables : list (string * string)
}.
Record variable := { name : string; example : string; type : string }.
Record t := {
  sentences : list sentence;
  sql : list string;
  sql_variables : list variable
}.
End Data.

(** [s.replace(old, new)] for single characters. *)
Fixpoint replace_char (old new : ascii) (s : string) : string :=
  match s with
  | "" => ""
  | String c s' =>
      String (if Ascii.eqb c old then new else c) (replace_char old new s')
  end.

(** [k[:-1]] *)
Fixpoint drop_last (s : string) : string :=
  match s with
  | "" => ""
  | String c "" => ""
  | String c s' => String c (drop_last s')
  end.

(** [json_dict[key]] *)
Definition json_getitem (json_dict : gmap string string) (key : string)
  : result string :=
  match json_dict !! key with
  | Some v => Ok v
  | None => Raise (KeyError key)
  end.

Section ReadJsonDict.

(** [json.loads] on an object of strings, as its items in order. *)
Variable json_loads : string → result (list (string * string)).

(** [local_text2sql_utils.process_sql_data]: a generator, given as the
    outcomes of its successive steps. *)
Variable process_sql_data :
  list Data.t → bool → bool → gmap string (list TableColumn) → bool →
  list (result SqlData.t).

Definition read_json_dict (self : Reader) (json_dict : gmap string string)
  : M (option Instance) :=
  let! variables := lift (json_getitem json_dict "variables") in
  let text_vars_str := replace_char "'"%char "034"%char variables in
  let! text_vars := lift (json_loads text_vars_str) in
  let sql_vars :=
    (λ '(k, v), {| Data.name := k; Data.example := v;
                   Data.type := drop_last k |}) <$> text_vars in
  let! question := lift (json_getitem json_dict "question") in
  let! sql := lift (json_getitem json_dict "sql") in
  let data :=
    [ {| Data.sentences :=
           [ {| Data.text := question; Data.question_split := "question";
                Data.variables := text_vars |} ];
         Data.sql := [sql];
         Data.sql_variables := sql_vars |} ] in
  match process_sql_data data (_use_all_sql self)
          (_remove_unneeded_aliases self) (_schema self)
          (_use_all_queries self) with
  | [] => ret None
  | Raise e :: _ => raise e
  | Ok sql_data :: _ =>
      let linked_entities :=
        if _use_prelinked_entities self
        then Some (SqlData.sql_variables sql_data) else None in
      text_to_instance self (SqlData.text_with_variables sql_data)
        (SqlData.derived_cols sql_data) (SqlData.derived_tables sql_data)
        linked_entities (Some (SqlData.sql sql_data)) None
  end.

End ReadJsonDict.

(** ** [__init__] *)

Module Args.
Record t := {
  schema_path : string;
  database_file : option string;
  use_all_sql : bool;
  use_all_queries : bool;
  remove_unneeded_aliases : bool;
  use_prelinked_entities : bool;
  use_untyped_entities : bool;
  token_indexers : option (gmap string TokenIndexer);
  cross_validation_split_to_exclude : option Z;
  keep_if_unparsable : bool;
  lazy : bool;
  load_cache : bool;
  save_cache : bool;
  loading_limit : Z
}.

(** The defaults of the signature. *)
Definition default (schema_path : string) : t := {|
  schema_path := schema_path;
  database_file := None;
  use_all_sql := false;
  use_all_queries := true;
  remove_unneeded_aliases := false;
  use_prelinked_entities := true;
  use_untyped_entities := true;
  token_indexers := None;
  cross_validation_split_to_exclude := None;
  keep_if_unparsable := false;
  lazy := false;
  load_cache := false;
  save_cache := true;
  loading_limit := -1
|}.
End Args.

(** [str(x)] for an optional integer. *)
Definition str_of_optional_int (x : option Z) : string :=
  match x with
  | None => "None"
  | Some z => pretty z
  end.

Section Init.

Variable WhitespaceTokenizer : Tokenizer.
Variable cached_path : string → result string.
Variable sqlite3_connect : string → result Cursor.
Variable read_dataset_schema :
  string → result (gmap string (list TableColumn)).
Variable Text2SqlWorld_init :
  string → option Cursor → bool → bool → result Text2SqlWorld.

(** Lines 97-105: only [FileNotFoundError] is caught. *)
Definition open_cursor (database_file : option string)
  : result (option Cursor) :=
  match database_file with
  | None | Some "" => Ok None
  | Some database_file =>
      match rbind (cached_path database_file) sqlite3_connect with
      | Ok cursor => Ok (Some cursor)
      | Raise FileNotFoundError => Ok None
      | Raise e => Raise e
      end
  end.

Definition __init__ (a : Args.t) : result Reader :=
  let token_indexers :=
    match Args.token_indexers a with
    | None => {[ "tokens" := SingleIdTokenIndexer ]}
    | Some d => if decide (d = ∅)
                then {[ "tokens" := SingleIdTokenIndexer ]} else d
    end in
  if negb (Args.use_prelinked_entities a) then
    Raise (ConfigurationError
             ("The grammar based text2sql dataset reader " +:+
              "currently requires the use of entity pre-linking."))
  else
    rbind (open_cursor (Args.database_file a)) (λ cursor,
    rbind (read_dataset_schema (Args.schema_path a)) (λ schema,
    rbind (Text2SqlWorld_init (Args.schema_path a) cursor
             (Args.use_prelinked_entities a) (Args.use_untyped_entities a))
      (λ world,
    Ok {| lazy := Args.lazy a;
          _token_tokenizer := WhitespaceTokenizer;
          _token_indexers := token_indexers;
          _use_all_sql := Args.use_all_sql a;
          _remove_unneeded_aliases := Args.remove_unneeded_aliases a;
          _use_prelinked_entities := Args.use_prelinked_entities a;
          _keep_if_unparsable := Args.keep_if_unparsable a;
          _use_all_queries := Args.use_all_queries a;
          _load_cache := Args.load_cache a;
          _save_cache := Args.save_cache a;
          _loading_limit := Args.loading_limit a;
          _cross_validation_split_to_exclude :=
            str_of_optional_int (Args.cross_validation_split_to_exclude a);
          _cursor := cursor;
          _schema_path := Args.schema_path a;
          _schema := schema;
          _world := world |}))).

End Init.

(** ** [_read] *)

(** The host the reader runs on: [pathlib], [os.path], [os.makedirs],
    [glob], reading a JSON file ([open(cached_path(path))] and
    [json.load]), [process_sql_data] with [load_spans=True], and [dill]. *)
Record Host := {
  json_data : Type;
  path_parent : string → string;
  path_stem : string → string;
  path_str : string → string;
  os_path_join : string → string → string;
  os_path_basename : string → string;
  os_path_isdir : string → bool;
  os_makedirs : string → result unit;
  glob_glob : string → list string;
  load_json : string → result json_data;
  process_sql_data_with_spans :
    json_data → bool → bool → gmap string (list TableColumn) → bool →
    list (result SqlData.t);
  dill_load : string → result Instance;
  dill_dump : string → Instance → result unit
}.

(** What a run of the generator does, in order. *)
Inductive read_event :=
| LoggerInfo (msg : string)
| MakeDirs (path : string)
| LoadJson (path : string)
| DillLoad (path : string)
| DillDump (path : string) (instance : Instance)
| Call (ev : event)
| Yield (instance : Instance).

(** The generator run to its end: what it did, and how it ended. *)
Definition G (A : Type) : Type := (list read_event * result A)%type.

Definition gret {A} (a : A) : G A := ([], Ok a).
Definition graise {A} (e : exn) : G A := ([], Raise e).
Definition gemit (ev : read_event) : G unit := ([ev], Ok tt).
Definition glift {A} (r : result A) : G A := ([], r).

Definition gbind {A B} (m : G A) (k : A → G B) : G B :=
  match m with
  | (log, Ok a) => let '(log', r) := k a in ((log ++ log')%list, r)
  | (log, Raise e) => (log, Raise e)
  end.

Notation "'let*' x := m 'in' k" := (gbind m (λ x, k))
  (at level 10, x pattern, m at level 100, k at level 200).
Notation "'run*' m 'in' k" := (gbind m (λ _, k))
  (at level 10, m at level 100, k at level 200).

(** A call of [text_to_instance] inside the generator. *)
Definition call {A} (m : M A) : G A := (Call <$> m.1, m.2).

Definition yielded (log : list read_event) : list Instance :=
  omap (λ ev, match ev with Yield i => Some i | _ => None end) log.

(** [needle in haystack] for strings. *)
Fixpoint contains (needle haystack : string) : bool :=
  match haystack with
  | "" => String.prefix needle ""
  | String _ rest => String.prefix needle haystack || contains needle rest
  end.

(** [self._load_cache = b] *)
Definition set_load_cache (b : bool) (self : Reader) : Reader :=
  {| lazy := lazy self;
     _token_tokenizer := _token_tokenizer self;
     _token_indexers := _token_indexers self;
     _use_all_sql := _use_all_sql self;
     _remove_unneeded_aliases := _remove_unneeded_aliases self;
     _use_prelinked_entities := _use_prelinked_entities self;
     _keep_if_unparsable := _keep_if_unparsable self;
     _use_all_queries := _use_all_queries self;
     _load_cache := b;
     _save_cache := _save_cache self;
     _loading_limit := _loading_limit self;
     _cross_validation_split_to_exclude :=
       _cross_validation_split_to_exclude self;
     _cursor := _cursor self;
     _schema_path := _schema_path self;
     _schema := _schema self;
     _world := _world self |}.

(** [f'instance-{total_cnt}.pt'] under the cache directory. *)
Definition cache_filepath (host : Host) (cache_dir : string) (total_cnt : Z)
  : string :=
  os_path_join host cache_dir ("instance-" +:+ pretty total_cnt +:+ ".pt").

(** Lines 157-181: the body of the loop over the records of a file, after
    [total_cnt += 1]. The result [None] is the [break]; otherwise it is the
    new value of [cnt]. *)
Definition record_body (host : Host) (self : Reader) (cache_dir : string)
    (sql_data : SqlData.t) (total_cnt cnt : Z) : G (option Z) :=
  let cache_filepath := cache_filepath host cache_dir total_cnt in
  if decide (_loading_limit self = cnt) then gret None
  else if _load_cache self then
    run* gemit (DillLoad cache_filepath) in
    match dill_load host cache_filepath with
    | Ok instance =>
        let cnt := cnt + 1 in
        run* gemit (Yield instance) in gret (Some cnt)
    | Raise _ =>
        (* could not load from cache - keep loading without cache *)
        gret (Some cnt)
    end
  else
    let linked_entities :=
      if _use_prelinked_entities self
      then Some (SqlData.sql_variables sql_data) else None in
    let* instance :=
      call (text_to_instance self (SqlData.text_with_variables sql_data)
              (SqlData.derived_cols sql_data)
              (SqlData.derived_tables sql_data) linked_entities
              (Some (SqlData.sql sql_data)) (SqlData.spans sql_data)) in
    match instance with
    | Some instance =>
        let cnt := cnt + 1 in
        run* (if _save_cache self then
                run* gemit (DillDump cache_filepath instance) in
                glift (dill_dump host cache_filepath instance)
              else gret tt) in
        run* gemit (Yield instance) in gret (Some cnt)
    | None => gret (Some cnt)
    end.

(** Lines 148-181: the loop over the records [process_sql_data] yields;
    a record is fetched before the limit is looked at. *)
Fixpoint read_records (host : Host) (self : Reader) (cache_dir : string)
    (records : list (result SqlData.t)) (total_cnt cnt : Z) : G Z :=
  match records with
  | [] => gret cnt
  | Raise e :: _ => graise e
  | Ok sql_data :: rest =>
      let total_cnt := total_cnt + 1 in
      let* step := record_body host self cache_dir sql_data total_cnt cnt in
      match step with
      | None => gret cnt
      | Some cnt => read_records host self cache_dir rest total_cnt cnt
      end
  end.

(** Lines 144-181: the loop over the files. *)
Fixpoint read_files (host : Host) (self : Reader) (cache_dir : string)
    (files : list string) (cnt : Z) : G Z :=
  match files with
  | [] => gret cnt
  | path :: rest =>
      run* gemit (LoadJson path) in
      let* data := glift (load_json host path) in
      let total_cnt := -1 in
      let* cnt :=
        read_records host self cache_dir
          (process_sql_data_with_spans host data (_use_all_sql self)
             (_remove_unneeded_aliases self) (_schema self)
             (_use_all_queries self))
          total_cnt cnt in
      read_files host self cache_dir rest cnt
  end.

(** Lines 131-132. *)
Definition cache_dir_of (host : Host) (file_path : string) : string :=
  os_path_join host (path_parent host file_path)
    ("spansgrammar_cache_" +:+ path_stem host file_path).

(** Lines 141-142. *)
Definition files_to_read (host : Host) (self : Reader) (file_path : string)
  : list string :=
  List.filter
    (λ p, negb (contains (_cross_validation_split_to_exclude self)
                  (os_path_basename host p)))
    (glob_glob host (path_str host file_path)).

(** [_read], run to the end of the generator; the result is [self] as the
    run leaves it. *)
Definition _read (host : Host) (self : Reader) (file_path : string)
  : G Reader :=
  let cache_dir := cache_dir_of host file_path in
  let* self :=
    if _load_cache self then
      run* gemit (LoggerInfo ("Trying to load cache from " +:+ cache_dir)) in
      if negb (os_path_isdir host cache_dir) then
        run* gemit (LoggerInfo ("Can't load cache, cache " +:+ cache_dir
                                +:+ " doesn't exits")) in
        gret (set_load_cache false self)
      else gret self
    else gret self in
  run* (if _save_cache self then
          run* gemit (MakeDirs cache_dir) in
          glift (os_makedirs host cache_dir)
        else gret tt) in
  let files := files_to_read host self file_path in
  let cnt := 0 in
  run* read_files host self cache_dir files cnt in
  gret self.

(** ** Vocabulary of the statements *)

(** The rule strings of a catalog, in catalog order. *)
Definition rules_of (valid_actions_field : ListField ProductionRuleField)
  : list string :=
  rule <$> field_list valid_actions_field.

(** [i] is the position of the last entry of [l] equal to [r]. *)
Definition last_occurrence (l : list string) (r : string) (i : nat) : Prop :=
  l !! i = Some r ∧ ∀ j : nat, (i < j)%nat → l !! j ≠ Some r.

(** Looking an index back up in the catalog it refers to. *)
Definition decode_index (f : IndexField) : option string :=
  if decide (0 ≤ sequence_index f)
  then rules_of (sequence_field f) !! Z.to_nat (sequence_index f)
  else None.

(** The rule string holds the marker [" ->"] exactly once: splitting on it
    gives the nonterminal and the right-hand side. *)
Definition has_one_arrow (production_rule : string) : Prop :=
  ∃ nonterminal rhs, PyStr.split " ->" production_rule = [nonterminal; rhs].

(** The catalog entry of a rule: the rule string, its nonterminal (the text
    before the marker), and whether the world calls that nonterminal
    global. *)
Definition annotated_entry (w : Text2SqlWorld) (production_rule : string)
  : option ProductionRuleField :=
  match PyStr.split " ->" production_rule with
  | [nonterminal; _] =>
      Some {| rule := production_rule;
              is_global := is_global_rule w nonterminal;
              nonterminal := nonterminal |}
  | _ => None
  end.

(** The fields in place when the grammar world is asked. *)
Definition fields_before_world (self : Reader) (query : list string)
    (spans : gset (Z * Z)) : gmap string Field :=
  let tokens :=
    tokens_field self (tokenize (_token_tokenizer self) (PyStr.join " " query))
  in
  <["spans" := FieldSpans (span_list_field tokens spans)]>
    (<["tokens" := FieldText tokens]> ∅).

(** The set of spans of a call with spans. *)
Definition normalized_spans (self : Reader) (query : list string)
    (spans : list (Z * Z)) : gset (Z * Z) :=
  let n := length (tokenize (_token_tokenizer self) (PyStr.join " " query)) in
  foldl (λ acc i, acc ∪ {[ (i, i) ]})
    (list_to_set ((λ '(s, e), (s, e - 1)) <$> spans)) (seqZ 0 (Z.of_nat n)).

(** ** Sample readers *)

(** A tokenizer that cuts at single spaces. *)
Definition space_tokenizer : Tokenizer :=
  {| tokenize := λ s, (λ t, {| text := t |}) <$> PyStr.split " " s |}.

(** A world that gives every query the same answer. *)
Definition constant_world (gold : option (list string))
    (all_actions : list string) : Text2SqlWorld :=
  {| get_action_sequence_and_all_actions := λ _ _ _ _, (gold, all_actions);
     is_global_rule := λ nt, bool_decide (nt = "A") |}.

Definition sample_reader (keep_if_unparsable : bool) (w : Text2SqlWorld)
  : Reader :=
  {| lazy := false;
     _token_tokenizer := space_tokenizer;
     _token_indexers := {[ "tokens" := SingleIdTokenIndexer ]};
     _use_all_sql := false;
     _remove_unneeded_aliases := false;
     _use_prelinked_entities := true;
     _keep_if_unparsable := keep_if_unparsable;
     _use_all_queries := true;
     _load_cache := false;
     _save_cache := true;
     _loading_limit := -1;
     _cross_validation_split_to_exclude := "None";
     _cursor := None;
     _schema_path := "schema.csv";
     _schema := ∅;
     _world := w |}.

(** The catalog of the example of the description. *)
Definition sample_rules : list string := ["A -> B"; "A -> C"; "B -> d"].

Definition sample_catalog : ListField ProductionRuleField :=
  Build_ListField
    [ {| rule := "A -> B"; is_global := true; nonterminal := "A" |};
      {| rule := "A -> C"; is_global := true; nonterminal := "A" |};
      {| rule := "B -> d"; is_global := false; nonterminal := "B" |} ].

(** A catalog in which the first and the last entry share their rule. *)
Definition repeating_catalog : ListField ProductionRuleField :=
  Build_ListField
    [ {| rule := "A -> B"; is_global := true; nonterminal := "A" |};
      {| rule := "A -> C"; is_global := true; nonterminal := "A" |};
      {| rule := "A -> B"; is_global := true; nonterminal := "A" |} ].

(** ** Vocabulary of the further properties *)

Definition events {A} (m : G A) : list read_event := m.1.
Definition ending {A} (m : G A) : result A := m.2.

(** The pairs [(i, i)] for [0 <= i < L]. *)
Definition unit_spans (L : Z) : list (Z * Z) := (λ i, (i, i)) <$> seqZ 0 L.

(** The spans of the example of the description, and their normal form for
    three tokens. *)
Definition sample_spans : list (Z * Z) := [(0, 2)].
Definition sample_normalized : gset (Z * Z) :=
  {[ (0, 0); (0, 1); (1, 1); (2, 2) ]}.

(** The gold sequence the indexer is given for an answer of the world: the
    empty sequence stands in for a missing one. *)
Definition gold_of (answer : option (list string) * list string)
  : list string :=
  match answer.1 with
  | Some gold => gold
  | None => []
  end.

(** The answer of the world of the reader. *)
Definition world_answer (self : Reader) (sql : list string)
    (derived_cols : list (string * string)) (derived_tables : list string)
    (prelinked_entities : option (gmap string (gmap string string)))
  : option (list string) * list string :=
  get_action_sequence_and_all_actions (_world self) sql derived_cols
    derived_tables prelinked_entities.

(** The instance [text_to_instance] assembles from its parts. *)
Definition assembled (self : Reader) (query : list string)
    (spans : list (Z * Z)) (production_rule_fields : list ProductionRuleField)
    (index_fields : list IndexField) : Instance :=
  {| fields :=
       <["action_sequence" := FieldIndices (Build_ListField index_fields)]>
         (<["valid_actions" :=
              FieldRules (Build_ListField production_rule_fields)]>
            (fields_before_world self query
               (normalized_spans self query spans))) |}.

Definition is_world_query (ev : event) : bool :=
  match ev with
  | WorldQuery _ _ _ _ _ => true
  | _ => false
  end.

Definition is_tokenize (ev : event) : bool :=
  match ev with
  | Tokenize _ _ => true
  | _ => false
  end.

(** The questions to [is_global_rule] in a log, with their answers. *)
Definition global_rule_questions (log : list event) : list (string * bool) :=
  omap (λ ev, match ev with
              | IsGlobalRule nt b => Some (nt, b)
              | _ => None
              end) log.

(** A reader that keeps what the world cannot parse, and the instance it
    returns for the sample query. *)
Definition sample_keeping_reader : Reader :=
  sample_reader true (constant_world None sample_rules).

Definition sample_instance : Instance :=
  assembled sample_keeping_reader ["show"; "me"] sample_spans
    (field_list sample_catalog)
    [ {| sequence_index := -1; sequence_field := sample_catalog |} ].

(** A reader whose world lists a rule with the marker twice. *)
Definition sample_misruled_reader : Reader :=
  sample_reader true (constant_world None ["A -> B -> C"]).

(** Arguments of the constructor with a database file, and collaborators
    for which that file does not exist. *)
Definition sample_args : Args.t :=
  {| Args.schema_path := "schema.csv";
     Args.database_file := Some "atis.db";
     Args.use_all_sql := false;
     Args.use_all_queries := true;
     Args.remove_unneeded_aliases := false;
     Args.use_prelinked_entities := true;
     Args.use_untyped_entities := true;
     Args.token_indexers := Some ∅;
     Args.cross_validation_split_to_exclude := Some 1;
     Args.keep_if_unparsable := true;
     Args.lazy := false;
     Args.load_cache := false;
     Args.save_cache := true;
     Args.loading_limit := 2 |}.

Definition missing_file (path : string) : result string :=
  Raise FileNotFoundError.

Definition locked_file (path : string) : result string :=
  Raise (OtherError "PermissionError").

Definition sample_connect (path : string) : result Cursor :=
  Ok (SqliteCursor path).

Definition empty_schema (path : string)
  : result (gmap string (list TableColumn)) := Ok ∅.

Definition sample_world_init (schema_path : string) (cursor : option Cursor)
    (use_prelinked_entities use_untyped_entities : bool)
  : result Text2SqlWorld :=
  Ok (constant_world None sample_rules).

(** The record [read_json_dict] builds for [process_sql_data]. *)
Definition single_record (question sql : string)
    (text_vars : list (string * string)) : list Data.t :=
  [ {| Data.sentences :=
         [ {| Data.text := question; Data.question_split := "question";
              Data.variables := text_vars |} ];
       Data.sql := [sql];
       Data.sql_variables :=
         (λ '(k, v), {| Data.name := k; Data.example := v;
                        Data.type := drop_last k |}) <$> text_vars |} ].

(** The reader as the loops of [_read] see it: loading from the cache is
    switched off when the cache directory does not exist. *)
Definition effective_reader (host : Host) (self : Reader) (file_path : string)
  : Reader :=
  if _load_cache self && negb (os_path_isdir host (cache_dir_of host file_path))
  then set_load_cache false self else self.

(** What [_read] logs before it looks for files. *)
Definition read_prelude (host : Host) (self : Reader) (file_path : string)
  : list read_event :=
  ((if _load_cache self then
      LoggerInfo ("Trying to load cache from " +:+ cache_dir_of host file_path)
      :: (if os_path_isdir host (cache_dir_of host file_path) then []
          else [LoggerInfo ("Can't load cache, cache "
                            +:+ cache_dir_of host file_path
                            +:+ " doesn't exits")])
    else [])
   ++ (if _save_cache self then [MakeDirs (cache_dir_of host file_path)]
       else []))%list.

(** Events that touch no record: logging, the cache directory, opening a
    data file. *)
Definition is_bookkeeping (ev : read_event) : bool :=
  match ev with
  | LoggerInfo _ | MakeDirs _ | LoadJson _ => true
  | _ => false
  end.

(** A host with two data files of two records each; nothing is on disk in
    the cache directory. *)
Definition sample_record (question : list string) : SqlData.t :=
  {| SqlData.text_with_variables := question;
     SqlData.derived_cols := [];
     SqlData.derived_tables := [];
     SqlData.sql_variables := ∅;
     SqlData.sql := ["SELECT"];
     SqlData.spans := Some sample_spans |}.

Definition sample_host : Host :=
  {| json_data := list (list string);
     path_parent := λ _, "data";
     path_stem := λ _, "*";
     path_str := λ p, p;
     os_path_join := λ a b, a +:+ "/" +:+ b;
     os_path_basename := λ p, PyStr.join "" (drop 1 (PyStr.split "/" p));
     os_path_isdir := λ _, false;
     os_makedirs := λ _, Ok tt;
     glob_glob := λ _, ["data/split_1.json"; "data/split_2.json";
                        "data/split_10.json"];
     load_json := λ p, Ok [["show"; "me"]; ["list"; "all"; "of"; "them"]];
     process_sql_data_with_spans :=
       λ data _ _ _ _, (λ q, Ok (sample_record q)) <$> data;
     dill_load := λ _, Raise FileNotFoundError;
     dill_dump := λ _ _, Ok tt |}.

Definition sample_reader_with_limit (limit : Z) : Reader :=
  {| lazy := false;
     _token_tokenizer := space_tokenizer;
     _token_indexers := {[ "tokens" := SingleIdTokenIndexer ]};
     _use_all_sql := false;
     _remove_unneeded_aliases := false;
     _use_prelinked_entities := true;
     _keep_if_unparsable := true;
     _use_all_queries := true;
     _load_cache := false;
     _save_cache := true;
     _loading_limit := limit;
     _cross_validation_split_to_exclude := "1";
     _cursor := None;
     _schema_path := "schema.csv";
     _schema := ∅;
     _world := constant_world (Some ["A -> B"; "B -> d"]) sample_rules |}.

(** What [text_to_instance] returns for a record of a data file. *)
Definition instance_of (self : Reader) (sql_data : SqlData.t)
  : result (option Instance) :=
  outcome
    (text_to_instance self (SqlData.text_with_variables sql_data)
       (SqlData.derived_cols sql_data) (SqlData.derived_tables sql_data)
       (if _use_prelinked_entities self
        then Some (SqlData.sql_variables sql_data) else None)
       (Some (SqlData.sql sql_data)) (SqlData.spans sql_data)).

(** The records of a data file. *)
Definition records_of (host : Host) (self : Reader) (path : string)
  : list (result SqlData.t) :=
  match load_json host path with
  | Ok data =>
      process_sql_data_with_spans host data (_use_all_sql self)
        (_remove_unneeded_aliases self) (_schema self) (_use_all_queries self)
  | Raise _ => []
  end.

(** The instance of a record that was fetched and has one. *)
Definition instance_or_none (self : Reader) (r : result SqlData.t)
  : option Instance :=
  match r with
  | Ok sql_data =>
      match instance_of self sql_data with
      | Ok instance => instance
      | Raise _ => None
      end
  | Raise _ => None
  end.

(** The instances of the records for which there is one. *)
Definition instances_of (self : Reader) (records : list (result SqlData.t))
  : list Instance :=
  omap (instance_or_none self) records.

(** A data file that can be read, with records that are all there and on
    which [text_to_instance] does not raise. *)
Definition readable (host : Host) (self : Reader) (path : string) : Prop :=
  (∃ data, load_json host path = Ok data)
  ∧ Forall (λ r, ∃ sql_data instance,
                   r = Ok sql_data ∧ instance_of self sql_data = Ok instance)
      (records_of host self path).

(** The instances written to the cache, in the order of writing. *)
Definition dumped (log : list read_event) : list (string * Instance) :=
  omap (λ ev, match ev with DillDump p i => Some (p, i) | _ => None end) log.

(** An event of a run that takes everything from the cache. *)
Definition from_cache (host : Host) (ev : read_event) : Prop :=
  match ev with
  | Call _ | DillDump _ _ => False
  | Yield instance => ∃ path, dill_load host path = Ok instance
  | _ => True
  end.

(** The cache entries a run without cache writes for the records of a
    file: the record at position [total_cnt + 1] goes to
    [instance-{total_cnt + 1}.pt], if it has an instance. *)
Fixpoint cache_entries (host : Host) (self : Reader) (cache_dir : string)
    (total_cnt : Z) (records : list (result SqlData.t))
  : list (string * Instance) :=
  match records with
  | [] => []
  | r :: rest =>
      (match r with
       | Ok sql_data =>
           match instance_of self sql_data with
           | Ok (Some i) =>
               [(cache_filepath host cache_dir (total_cnt + 1), i)]
           | _ => []
           end
       | Raise _ => []
       end ++ cache_entries host self cache_dir (total_cnt + 1) rest)%list
  end.

(** The same host with another disk: whether directories exist, and what
    [dill.load] finds. *)
Definition with_disk (isdir : bool) (load : string → result Instance)
    (host : Host) : Host :=
  {| json_data := json_data host;
     path_parent := path_parent host;
     path_stem := path_stem host;
     path_str := path_str host;
     os_path_join := os_path_join host;
     os_path_basename := os_path_basename host;
     os_path_isdir := λ _, isdir;
     os_makedirs := os_makedirs host;
     glob_glob := glob_glob host;
     load_json := load_json host;
     process_sql_data_with_spans := process_sql_data_with_spans host;
     dill_load := load;
     dill_dump := dill_dump host |}.

(** The cache files after the given writes: the last write to a path is
    the one that stays. *)
Definition cache_of (entries : list (string * Instance))
  : gmap string Instance :=
  list_to_map (reverse entries).

(** [dill.load] on those cache files. *)
Definition replay (entries : list (string * Instance)) (path : string)
  : result Instance :=
  match cache_of entries !! path with
  | Some instance => Ok instance
  | None => Raise FileNotFoundError
  end.

(** A host whose cache directory holds the instance of the first record
    only. *)
Definition cached_host : Host :=
  with_disk true
    (replay [(cache_filepath sample_host
                (cache_dir_of sample_host "data/*.json") 0,
              sample_instance)])
    sample_host.

(** What is found in the cache for [n] records in a row, the first one at
    position [total_cnt + 1]. *)
Fixpoint loaded_from (host : Host) (cache_dir : string) (total_cnt : Z)
    (n : nat) : list Instance :=
  match n with
  | O => []
  | S n =>
      (match dill_load host (cache_filepath host cache_dir (total_cnt + 1))
       with
       | Ok instance => [instance]
       | Raise _ => []
       end ++ loaded_from host cache_dir (total_cnt + 1) n)%list
  end.

(** A data file that can be read and whose records are all there. *)
Definition fetchable (host : Host) (self : Reader) (path : string) : Prop :=
  (∃ data, load_json host path = Ok data)
  ∧ Forall (λ r, ∃ sql_data, r = Ok sql_data) (records_of host self path).

(** A reader that reads all three sample files and writes the cache. *)
Definition sample_caching_reader : Reader :=
  sample_reader true (constant_world (Some ["A -> B"; "B -> d"]) sample_rules).

(** * Properties *)

(** ** Strings *)

Lemma split_go_not_nil sep skip s : PyStr.split_go sep skip s ≠ [].
Proof.
  revert skip. induction s as [|c s IH]; intros skip; [done|].
  cbn [PyStr.split_go]. destruct skip; [|apply IH].
  destruct (String.prefix sep (String c s)); [done|].
  specialize (IH 0%nat).
  by destruct (PyStr.split_go sep 0 s).
Qed.

Lemma join_cons_head sep c pieces :
  pieces ≠ [] →
  PyStr.join sep (PyStr.cons_head c pieces) = String c (PyStr.join sep pieces).
Proof. by destruct pieces as [|p [|q rest]]. Qed.

Lemma prefix_space c s :
  String.prefix " " (String c s) = bool_decide (c = " "%char).
Proof.
  cbn [String.prefix]. destruct (Ascii.ascii_dec " " c) as [<-|Hne].
  - by destruct s.
  - by rewrite bool_decide_eq_false_2.
Qed.

(** [' '.join(s.split(' '))] gives [s] back. *)
Lemma join_split_space s : PyStr.join " " (PyStr.split " " s) = s.
Proof.
  unfold PyStr.split. induction s as [|c s IH]; [done|].
  cbn [PyStr.split_go]. rewrite prefix_space.
  pose proof (split_go_not_nil " " 0 s) as Hne.
  case_bool_decide as Hc.
  - subst c. cbn [String.length Nat.sub].
    destruct (PyStr.split_go " " 0 s) as [|p rest] eqn:E; [done|].
    change (PyStr.join " " ("" :: p :: rest))
      with (String " " (PyStr.join " " (p :: rest))).
    by rewrite IH.
  - rewrite join_cons_head by done. by rewrite IH.
Qed.

(** ** The monad *)

Lemma outcome_bind {A B} (m : M A) (k : A → M B) :
  outcome (bind m k) = rbind (outcome m) (λ a, outcome (k a)).
Proof. destruct m as [log [a|e]]; cbn; [|done]. by destruct (k a). Qed.

Lemma trace_bind {A B} (m : M A) (k : A → M B) :
  trace (bind m k)
  = (trace m ++ match outcome m with
                | Ok a => trace (k a)
                | Raise _ => []
                end)%list.
Proof.
  destruct m as [log [a|e]]; cbn; [by destruct (k a)|].
  by rewrite app_nil_r.
Qed.

(** ** The rule-to-index mapping *)

Lemma enumerate_snoc {A} (l : list A) (a : A) :
  enumerate (l ++ [a]) = (enumerate l ++ [(length l, a)])%list.
Proof.
  unfold enumerate. rewrite imap_app. cbn [imap].
  by rewrite Nat.add_0_r.
Qed.

Lemma action_map_of_snoc (l : list ProductionRuleField) a :
  action_map_of (Build_ListField (l ++ [a]))
  = <[rule a := length l]> (action_map_of (Build_ListField l)).
Proof.
  unfold action_map_of. cbn [field_list].
  by rewrite enumerate_snoc, foldl_app.
Qed.

Lemma last_occurrence_snoc_eq (l : list string) r i :
  last_occurrence (l ++ [r]) r i ↔ i = length l.
Proof.
  unfold last_occurrence. split.
  - intros [Hi Hlast].
    destruct (decide (i < length l)%nat) as [Hlt|Hge].
    + exfalso. apply (Hlast (length l) Hlt). apply list_lookup_middle; done.
    + apply lookup_lt_Some in Hi. rewrite length_app in Hi. simpl in Hi. lia.
  - intros ->. split; [by apply list_lookup_middle|].
    intros j Hj. rewrite lookup_ge_None_2; [done|].
    rewrite length_app. simpl. lia.
Qed.

Lemma last_occurrence_snoc_ne (l : list string) a r i :
  a ≠ r → last_occurrence (l ++ [a]) r i ↔ last_occurrence l r i.
Proof.
  intros Hne. unfold last_occurrence. split.
  - intros [Hi Hlast].
    assert (i < length l)%nat as Hlt.
    { destruct (decide (i < length l)%nat) as [|Hge]; [done|].
      pose proof (lookup_lt_Some _ _ _ Hi) as Hb.
      rewrite length_app in Hb. simpl in Hb.
      assert (i = length l) as -> by lia.
      rewrite list_lookup_middle in Hi by done. congruence. }
    rewrite lookup_app_l in Hi by done. split; [done|].
    intros j Hj Hl. apply (Hlast j Hj).
    rewrite lookup_app_l; [done|]. by eapply lookup_lt_Some.
  - intros [Hi Hlast].
    pose proof (lookup_lt_Some _ _ _ Hi) as Hlt.
    split; [by rewrite lookup_app_l|].
    intros j Hj Hl.
    destruct (decide (j < length l)%nat) as [Hjl|Hjl].
    + rewrite lookup_app_l in Hl by done. by apply (Hlast j).
    + pose proof (lookup_lt_Some _ _ _ Hl) as Hb.
      rewrite length_app in Hb. simpl in Hb.
      assert (j = length l) as -> by lia.
      rewrite list_lookup_middle in Hl by done. congruence.
Qed.

(** The mapping sends a rule string to the position of its last
    occurrence in the catalog, and to nothing else. *)
Lemma action_map_of_lookup (valid_actions_field : ListField ProductionRuleField)
    (r : string) (i : nat) :
  action_map_of valid_actions_field !! r = Some i
  ↔ last_occurrence (rules_of valid_actions_field) r i.
Proof.
  destruct valid_actions_field as [l]. unfold rules_of. cbn [field_list].
  revert i. induction l as [|a l IH] using rev_ind; intros i.
  - unfold action_map_of, last_occurrence. cbn. rewrite lookup_empty.
    split; [done|]. by intros [? _].
  - rewrite action_map_of_snoc, fmap_app. cbn [fmap list_fmap].
    destruct (decide (rule a = r)) as [<-|Hne].
    + rewrite lookup_insert_eq, last_occurrence_snoc_eq, length_fmap.
      split; [by intros [= ->]|by intros ->].
    + rewrite lookup_insert_ne by done.
      by rewrite last_occurrence_snoc_ne.
Qed.

Lemma action_map_of_is_Some (valid_actions_field : ListField ProductionRuleField)
    (r : string) :
  is_Some (action_map_of valid_actions_field !! r)
  ↔ r ∈ rules_of valid_actions_field.
Proof.
  destruct valid_actions_field as [l]. unfold rules_of. cbn [field_list].
  induction l as [|a l IH] using rev_ind.
  - unfold action_map_of. cbn. rewrite lookup_empty.
    split; [by intros [? ?]|by intros ?%elem_of_nil].
  - rewrite action_map_of_snoc, fmap_app, elem_of_app. cbn [fmap list_fmap].
    rewrite list_elem_of_singleton, lookup_insert_is_Some, IH.
    destruct (decide (rule a = r)); intuition congruence.
Qed.

Lemma getitem_Ok action_map key i :
  getitem action_map key = Ok i ↔ action_map !! key = Some i.
Proof. unfold getitem. destruct (action_map !! key); intuition congruence. Qed.

Lemma getitem_Raise action_map key e :
  getitem action_map key = Raise e
  ↔ action_map !! key = None ∧ e = KeyError key.
Proof.
  unfold getitem. destruct (action_map !! key); [intuition congruence|].
  split; [by intros [= <-]|by intros [_ ->]].
Qed.

(** ** The span normaliser *)

Lemma elem_of_add_unit_spans (l : list Z) (acc : gset (Z * Z)) (p : Z * Z) :
  p ∈ foldl (λ acc i, acc ∪ {[ (i, i) ]}) acc l
  ↔ p ∈ acc ∨ ∃ i, i ∈ l ∧ p = (i, i).
Proof.
  revert acc. induction l as [|i l IH]; intros acc; cbn [foldl].
  - split; [by left|]. intros [?|(i & Hi & _)]; [done|].
    by apply elem_of_nil in Hi.
  - rewrite IH, elem_of_union, elem_of_singleton. split.
    + intros [[?| ->]|(j & Hj & ->)].
      * by left.
      * right. exists i. split; [apply list_elem_of_here|done].
      * right. exists j. split; [by apply list_elem_of_further|done].
    + intros [?|(j & Hj & ->)]; [by left; left|].
      apply elem_of_cons in Hj as [-> |Hj]; [by left; right|].
      right. by exists j.
Qed.

Lemma fix_spans_coverage_elem (spans : list (Z * Z)) (L : Z) (p : Z * Z) :
  p ∈ foldl (λ acc i, acc ∪ {[ (i, i) ]})
        (list_to_set ((λ '(s, e), (s, e - 1)) <$> spans) : gset (Z * Z))
        (seqZ 0 L)
  ↔ (∃ s e, (s, e) ∈ spans ∧ p = (s, e - 1))
    ∨ (∃ i, 0 ≤ i < L ∧ p = (i, i)).
Proof.
  rewrite elem_of_add_unit_spans, elem_of_list_to_set.
  rewrite list_elem_of_fmap. split.
  - intros [([s e] & -> & Hin)|(i & Hi & ->)].
    + left. by exists s, e.
    + right. exists i. split; [|done]. apply elem_of_seqZ in Hi. lia.
  - intros [(s & e & Hin & ->)|(i & Hi & ->)].
    + left. by exists (s, e).
    + right. exists i. split; [|done]. apply elem_of_seqZ. lia.
Qed.

(** C5. For every list of spans and every length [L], the normaliser
    returns a set that holds [(s, e-1)] for every input span [(s, e)],
    [(i, i)] for every [0 <= i < L], and nothing else; being a set, it lists
    no pair twice. The spans are not validated in any way. *)
Theorem fix_spans_coverage_exact (spans : list (Z * Z)) (L : Z) :
  ∃ out : gset (Z * Z),
    _fix_spans_coverage (Some spans) L = Ok out
    ∧ (∀ p, p ∈ out ↔
         (∃ s e, (s, e) ∈ spans ∧ p = (s, e - 1))
         ∨ (∃ i, 0 ≤ i < L ∧ p = (i, i)))
    ∧ NoDup (elements out).
Proof.
  eexists. split; [reflexivity|]. split; [|apply NoDup_elements].
  apply fix_spans_coverage_elem.
Qed.

(** The example of the description: three tokens and the span [(0, 2)]. *)
Example fix_spans_coverage_example :
  _fix_spans_coverage (Some [(0, 2)]) 3
  = Ok ({[ (0, 0); (0, 1); (1, 1); (2, 2) ]} : gset (Z * Z)).
Proof.
  vm_compute. reflexivity.
Qed.

(** ** The action indexer *)

(** C8. The mapping built from a catalog sends every rule string of the
    catalog to the position of its last occurrence, so a later entry with
    the same string replaces an earlier one; when the [N] rule strings are
    pairwise distinct the mapping is a bijection between them and the
    positions [0 .. N-1]. *)
Theorem action_map_last_wins_and_bijective
    (valid_actions_field : ListField ProductionRuleField) :
  let catalog := rules_of valid_actions_field in
  let action_map := action_map_of valid_actions_field in
  (∀ r i, action_map !! r = Some i ↔ last_occurrence catalog r i)
  ∧ (∀ r, r ∈ catalog →
       ∃ i, action_map !! r = Some i ∧ last_occurrence catalog r i)
  ∧ (∀ (i j : nat) r,
       (i < j)%nat → catalog !! i = Some r → catalog !! j = Some r →
       action_map !! r ≠ Some i)
  ∧ (NoDup catalog →
       (∀ r i, action_map !! r = Some i ↔ catalog !! i = Some r)
       ∧ (∀ i : nat, (i < length catalog)%nat ↔ ∃ r, action_map !! r = Some i)
       ∧ (∀ r1 r2 i,
            action_map !! r1 = Some i → action_map !! r2 = Some i → r1 = r2)
       ∧ size action_map = length catalog).
Proof.
  intros catalog action_map.
  assert (∀ r i, action_map !! r = Some i ↔ last_occurrence catalog r i)
    as Hlast by apply action_map_of_lookup.
  split; [done|]. split; [|split].
  - intros r Hr. apply action_map_of_is_Some in Hr as [i Hi].
    exists i. split; [done|]. by apply Hlast.
  - intros i j r Hij Hi Hj Hm. apply Hlast in Hm as [_ Hm]. by apply (Hm j).
  - intros Hnodup.
    assert (∀ r i, action_map !! r = Some i ↔ catalog !! i = Some r) as Hbij.
    { intros r i. rewrite Hlast. split; [by intros [? _]|].
      intros Hi. split; [done|]. intros j Hij Hj.
      pose proof (NoDup_lookup _ _ _ _ Hnodup Hi Hj). lia. }
    split; [done|]. split; [|split].
    + intros i. split.
      * intros [r Hr]%lookup_lt_is_Some_2. exists r. by apply Hbij.
      * intros [r Hr%Hbij]. by eapply lookup_lt_Some.
    + intros r1 r2 i H1%Hbij H2%Hbij. congruence.
    + rewrite <- size_dom.
      assert (dom action_map = list_to_set catalog) as ->.
      { apply set_eq. intros r.
        rewrite elem_of_dom, elem_of_list_to_set.
        apply action_map_of_is_Some. }
      by apply size_list_to_set.
Qed.

Lemma index_loop_cons action_map valid_actions_field a gold :
  index_loop action_map valid_actions_field (a :: gold)
  = rbind (getitem action_map a) (λ i,
      rbind (index_loop action_map valid_actions_field gold) (λ rest,
        Ok ({| sequence_index := Z.of_nat i;
               sequence_field := valid_actions_field |} :: rest))).
Proof.
  unfold index_loop. cbn [rmapM]. by destruct (getitem action_map a).
Qed.

(** For a gold sequence that is not empty the result of the loop is kept. *)
Lemma index_actions_cons action_map valid_actions_field a gold :
  index_actions action_map valid_actions_field (a :: gold)
  = index_loop action_map valid_actions_field (a :: gold).
Proof.
  unfold index_actions.
  by destruct (index_loop action_map valid_actions_field (a :: gold)).
Qed.

(** C1. When the rule strings of the catalog are pairwise distinct and
    every rule of the gold sequence occurs in the catalog, the mapping built
    from the catalog, applied to the gold sequence rule by rule, gives
    indices into that catalog: every index is a position of the catalog,
    and the rules of the catalog at these positions are the gold sequence
    again, same length, same rules, same order. Every index field refers to
    the catalog, so looking the index up through the field gives the same.
    For a gold sequence that is not empty these indices are the indexed
    sequence of the instance. *)
Theorem index_round_trip
    (valid_actions_field : ListField ProductionRuleField)
    (gold : list string) :
  NoDup (rules_of valid_actions_field) →
  (∀ a, a ∈ gold → a ∈ rules_of valid_actions_field) →
  ∃ index_fields,
    index_loop (action_map_of valid_actions_field) valid_actions_field gold
      = Ok index_fields
    ∧ Forall (λ f, sequence_field f = valid_actions_field) index_fields
    ∧ Forall (λ f, 0 ≤ sequence_index f
                   < Z.of_nat (length (rules_of valid_actions_field)))
        index_fields
    ∧ (λ f, rules_of valid_actions_field !! Z.to_nat (sequence_index f))
        <$> index_fields = Some <$> gold
    ∧ decode_index <$> index_fields = Some <$> gold
    ∧ (gold ≠ [] →
       index_actions (action_map_of valid_actions_field) valid_actions_field
         gold = Ok index_fields).
Proof.
  intros _ Hin.
  assert (∃ index_fields,
            index_loop (action_map_of valid_actions_field)
              valid_actions_field gold = Ok index_fields
            ∧ Forall (λ f, sequence_field f = valid_actions_field)
                index_fields
            ∧ Forall (λ f, 0 ≤ sequence_index f
                           < Z.of_nat (length (rules_of valid_actions_field)))
                index_fields
            ∧ (λ f, rules_of valid_actions_field
                      !! Z.to_nat (sequence_index f))
                <$> index_fields = Some <$> gold
            ∧ decode_index <$> index_fields = Some <$> gold)
    as (index_fields & Hloop & Hfield & Hbound & Hcat & Hdec).
  { induction gold as [|a gold IH]; [by exists []|].
    destruct IH as (rest & Hrest & Hfield & Hbound & Hcat & Hdec).
    { intros b Hb. apply Hin. by apply list_elem_of_further. }
    assert (a ∈ rules_of valid_actions_field) as Ha
      by apply Hin, list_elem_of_here.
    apply action_map_of_is_Some in Ha as [i Hi].
    eexists. rewrite index_loop_cons, Hrest.
    rewrite (proj2 (getitem_Ok _ _ _) Hi). split; [reflexivity|].
    apply action_map_of_lookup in Hi as [Hi _].
    pose proof (lookup_lt_Some _ _ _ Hi) as Hlt.
    split; [by constructor|].
    split; [constructor; [cbn [sequence_index]; lia|done]|].
    split.
    - cbn [fmap list_fmap sequence_index].
      fold ((λ f, rules_of valid_actions_field !! Z.to_nat (sequence_index f))
              <$> rest).
      by rewrite Hcat, Nat2Z.id, Hi.
    - cbn [fmap list_fmap]. fold (decode_index <$> rest). rewrite Hdec.
      f_equal. unfold decode_index. cbn [sequence_index sequence_field].
      rewrite decide_True by lia. by rewrite Nat2Z.id. }
  exists index_fields. do 5 (split; [done|]).
  destruct gold; [done|]. intros _. by rewrite index_actions_cons.
Qed.

(** C4. Whatever the catalog and whatever the mapping, an empty gold
    sequence is indexed as the single entry [-1], not as an empty index
    list; this is the indexed sequence of the instance once its catalog is
    built. *)
Theorem empty_sequence_sentinel :
  (∀ action_map (valid_actions_field : ListField ProductionRuleField),
     index_actions action_map valid_actions_field []
     = Ok [ {| sequence_index := -1;
               sequence_field := valid_actions_field |} ])
  ∧ (∀ self fields all_actions production_rule_fields,
       outcome (mapM (production_rule_field (_world self)) all_actions)
         = Ok production_rule_fields →
       outcome (build_instance self fields (Some []) (Some all_actions))
       = Ok (Some {| fields :=
               <["action_sequence" :=
                   FieldIndices (Build_ListField
                     [ {| sequence_index := -1;
                          sequence_field :=
                            Build_ListField production_rule_fields |} ])]>
                 (<["valid_actions" :=
                      FieldRules (Build_ListField production_rule_fields)]>
                    fields) |})).
Proof.
  split; [reflexivity|].
  intros self fields all_actions fl Hfl.
  unfold build_instance. cbn [read_local]. rewrite !outcome_bind.
  cbn [lift outcome snd rbind]. rewrite outcome_bind, Hfl. reflexivity.
Qed.

Lemma index_loop_missing action_map valid_actions_field gold :
  (∃ a, a ∈ gold ∧ action_map !! a = None) →
  ∃ k, index_loop action_map valid_actions_field gold = Raise (KeyError k)
       ∧ k ∈ gold ∧ action_map !! k = None.
Proof.
  induction gold as [|a gold IH]; intros (b & Hb & Hnone).
  - by apply elem_of_nil in Hb.
  - rewrite index_loop_cons. destruct (action_map !! a) as [i|] eqn:Ha.
    + rewrite (proj2 (getitem_Ok _ _ _) Ha). cbn [rbind].
      destruct IH as (k & -> & Hk & Hknone).
      { exists b. split; [|done].
        apply elem_of_cons in Hb as [-> |Hb]; [congruence|done]. }
      exists k. split; [done|]. split; [by apply list_elem_of_further|done].
    + exists a. unfold getitem. rewrite Ha.
      split; [done|]. split; [apply list_elem_of_here|done].
Qed.

Lemma index_actions_missing valid_actions_field gold :
  (∃ a, a ∈ gold ∧ a ∉ rules_of valid_actions_field) →
  ∃ k, index_actions (action_map_of valid_actions_field)
         valid_actions_field gold = Raise (KeyError k)
       ∧ k ∈ gold ∧ k ∉ rules_of valid_actions_field.
Proof.
  intros (a & Ha & Hmiss).
  destruct (index_loop_missing (action_map_of valid_actions_field)
              valid_actions_field gold) as (k & Hk & Hkin & Hknone).
  { exists a. split; [done|]. apply eq_None_not_Some.
    by rewrite action_map_of_is_Some. }
  exists k. unfold index_actions. rewrite Hk. split; [done|].
  split; [done|]. rewrite <- action_map_of_is_Some, Hknone.
  by intros [? ?].
Qed.

(** ** Building the catalog *)

Lemma production_rule_field_eq w production_rule :
  production_rule_field w production_rule
  = match unpack_nonterminal production_rule with
    | Ok nt =>
        ([IsGlobalRule nt (is_global_rule w nt)],
         Ok {| rule := production_rule; is_global := is_global_rule w nt;
               nonterminal := nt |})
    | Raise e => ([], Raise e)
    end.
Proof.
  unfold production_rule_field, lift, call_is_global_rule.
  destruct (unpack_nonterminal production_rule); cbn; [|done].
  by rewrite join_split_space.
Qed.

Lemma unpack_nonterminal_Ok production_rule nt :
  unpack_nonterminal production_rule = Ok nt
  ↔ ∃ rhs, PyStr.split " ->" production_rule = [nt; rhs].
Proof.
  unfold unpack_nonterminal.
  destruct (PyStr.split " ->" production_rule) as [|a [|b [|c rest]]].
  - split; [done|]. by intros [? ?].
  - split; [done|]. by intros [? ?].
  - split; [intros [= ->]; by exists b|]. by intros [? [= -> _]].
  - split; [done|]. by intros [? ?].
Qed.

Lemma unpack_nonterminal_Raise production_rule e :
  unpack_nonterminal production_rule = Raise e →
  (∃ what, e = ValueError what) ∧ ¬ has_one_arrow production_rule.
Proof.
  unfold unpack_nonterminal, has_one_arrow.
  destruct (PyStr.split " ->" production_rule) as [|a [|b [|c rest]]];
    intros [= <-]; (split; [by eexists|]); by intros (? & ? & ?).
Qed.

Lemma catalog_loop_trace w all_actions ev :
  ev ∈ trace (mapM (production_rule_field w) all_actions) →
  ∃ nt b, ev = IsGlobalRule nt b.
Proof.
  induction all_actions as [|r all_actions IH]; cbn [mapM].
  - by intros ?%elem_of_nil.
  - rewrite trace_bind, production_rule_field_eq.
    destruct (unpack_nonterminal r) as [nt|e]; cbn [trace outcome fst snd].
    + rewrite trace_bind.
      intros [->%list_elem_of_singleton|Hev]%elem_of_app; [by eexists _, _|].
      apply elem_of_app in Hev as [Hev|Hev]; [by apply IH|].
      destruct (outcome (mapM (production_rule_field w) all_actions));
        by apply elem_of_nil in Hev.
    + by intros ?%elem_of_nil.
Qed.

Lemma catalog_loop_cons w r all_actions :
  outcome (mapM (production_rule_field w) (r :: all_actions))
  = rbind (unpack_nonterminal r) (λ nt,
      rbind (outcome (mapM (production_rule_field w) all_actions)) (λ rest,
        Ok ({| rule := r; is_global := is_global_rule w nt;
               nonterminal := nt |} :: rest))).
Proof.
  cbn [mapM]. rewrite outcome_bind, production_rule_field_eq.
  destruct (unpack_nonterminal r); cbn [outcome snd rbind]; [|done].
  by rewrite outcome_bind.
Qed.

(** When the loop completes, the catalog lists the rules of [all_actions]
    in order, each with its annotated entry. *)
Lemma catalog_loop_Ok w all_actions production_rule_fields :
  outcome (mapM (production_rule_field w) all_actions)
    = Ok production_rule_fields →
  Some <$> production_rule_fields = annotated_entry w <$> all_actions
  ∧ rule <$> production_rule_fields = all_actions.
Proof.
  revert production_rule_fields.
  induction all_actions as [|r all_actions IH]; intros fl.
  - cbn. by intros [= <-].
  - rewrite catalog_loop_cons.
    destruct (unpack_nonterminal r) as [nt|] eqn:Hnt; [|done].
    cbn [rbind].
    destruct (outcome (mapM (production_rule_field w) all_actions))
      as [rest|]; [|done].
    cbn [rbind]. intros [= <-]. destruct (IH rest eq_refl) as [IH1 IH2].
    apply unpack_nonterminal_Ok in Hnt as [rhs Hnt].
    cbn [fmap list_fmap]. fold (Some <$> rest).
    fold (annotated_entry w <$> all_actions). fold (rule <$> rest).
    rewrite IH1, IH2. unfold annotated_entry at 2. by rewrite Hnt.
Qed.

Lemma catalog_loop_total w all_actions :
  Forall has_one_arrow all_actions →
  ∃ production_rule_fields,
    outcome (mapM (production_rule_field w) all_actions)
      = Ok production_rule_fields.
Proof.
  induction 1 as [|r all_actions (nt & rhs & Hr) _ [rest IH]].
  - by exists [].
  - eexists. rewrite catalog_loop_cons, IH.
    by rewrite (proj2 (unpack_nonterminal_Ok r nt) (ex_intro _ rhs Hr)).
Qed.

Lemma catalog_loop_Raise w all_actions e :
  outcome (mapM (production_rule_field w) all_actions) = Raise e →
  ∃ what, e = ValueError what.
Proof.
  induction all_actions as [|r all_actions IH]; [done|].
  rewrite catalog_loop_cons.
  destruct (unpack_nonterminal r) as [nt|e'] eqn:Hnt; cbn [rbind].
  - destruct (outcome (mapM (production_rule_field w) all_actions));
      [done|]. intros [= <-]. by apply IH.
  - intros [= <-]. by apply unpack_nonterminal_Raise in Hnt as [? _].
Qed.

(** ** Instance assembly *)

Lemma build_instance_unbound self fields action_sequence :
  build_instance self fields action_sequence None
  = ([], Raise (UnboundLocalError "all_actions")).
Proof. reflexivity. Qed.

Lemma build_instance_outcome self fields gold all_actions :
  outcome (build_instance self fields (Some gold) (Some all_actions))
  = rbind (outcome (mapM (production_rule_field (_world self)) all_actions))
      (λ production_rule_fields,
         let valid_actions_field := Build_ListField production_rule_fields in
         rbind (index_actions (action_map_of valid_actions_field)
                  valid_actions_field gold)
           (λ index_fields,
              Ok (Some {| fields :=
                     <["action_sequence" :=
                         FieldIndices (Build_ListField index_fields)]>
                       (<["valid_actions" := FieldRules valid_actions_field]>
                          fields) |}))).
Proof.
  unfold build_instance. cbn [read_local]. rewrite !outcome_bind.
  cbn [lift outcome snd rbind]. rewrite outcome_bind.
  destruct (outcome (mapM (production_rule_field (_world self)) all_actions))
    as [fl|]; [|done].
  cbn [rbind]. rewrite !outcome_bind. cbn [lift outcome snd rbind].
  rewrite outcome_bind. cbn [outcome snd].
  by destruct (index_actions _ _ gold).
Qed.

Lemma build_instance_trace self fields action_sequence all_actions ev :
  ev ∈ trace (build_instance self fields action_sequence all_actions) →
  ∃ nt b, ev = IsGlobalRule nt b.
Proof.
  destruct all_actions as [all_actions|];
    [|rewrite build_instance_unbound; by intros ?%elem_of_nil].
  unfold build_instance. cbn [read_local]. rewrite !trace_bind.
  cbn [lift trace outcome fst snd app]. rewrite trace_bind.
  intros [Hev|Hev]%elem_of_app; [by eapply catalog_loop_trace|].
  destruct (outcome (mapM (production_rule_field (_world self)) all_actions))
    as [fl|]; [|by apply elem_of_nil in Hev].
  destruct action_sequence as [gold|]; [|by apply elem_of_nil in Hev].
  cbv zeta in Hev. unfold bind, lift, read_local, ret in Hev.
  destruct (index_actions _ _ gold); by apply elem_of_nil in Hev.
Qed.

(** Without spans the call stops in the span normaliser, before the grammar
    world is asked. *)
Lemma text_to_instance_no_spans self query derived_cols derived_tables
    prelinked_entities sql :
  text_to_instance self query derived_cols derived_tables prelinked_entities
    sql None
  = ([Tokenize (PyStr.join " " query)
        (tokenize (_token_tokenizer self) (PyStr.join " " query))],
     Raise (TypeError "'NoneType' object is not iterable")).
Proof. reflexivity. Qed.

Lemma text_to_instance_with_spans self query derived_cols derived_tables
    prelinked_entities sql spans :
  let rest :=
    derive_and_build self
      (fields_before_world self query (normalized_spans self query spans))
      derived_cols derived_tables prelinked_entities sql in
  text_to_instance self query derived_cols derived_tables prelinked_entities
    sql (Some spans)
  = (Tokenize (PyStr.join " " query)
       (tokenize (_token_tokenizer self) (PyStr.join " " query))
       :: trace rest,
     outcome rest).
Proof.
  intros rest. unfold text_to_instance, call_tokenize, emit, ret, lift.
  cbn [bind _fix_spans_coverage app].
  fold (normalized_spans self query spans).
  fold (fields_before_world self query (normalized_spans self query spans)).
  fold rest. by destruct rest.
Qed.

Lemma derive_and_build_with_sql self fields derived_cols derived_tables
    prelinked_entities sql :
  let ans := get_action_sequence_and_all_actions (_world self) sql
               derived_cols derived_tables prelinked_entities in
  let rest :=
    match ans.1 with
    | None =>
        if _keep_if_unparsable self then
          run! print "Parse error" in
          build_instance self fields (Some []) (Some ans.2)
        else ret None
    | Some _ => build_instance self fields ans.1 (Some ans.2)
    end in
  derive_and_build self fields derived_cols derived_tables prelinked_entities
    (Some sql)
  = (WorldQuery sql derived_cols derived_tables prelinked_entities ans
       :: trace rest,
     outcome rest).
Proof.
  intros ans rest. unfold derive_and_build, call_world, emit, ret.
  fold ans. cbn [bind app]. subst rest. destruct ans as [[gold|] all];
    cbn [fst snd].
  - by destruct (build_instance self fields (Some gold) (Some all)).
  - by destruct (if _keep_if_unparsable self then _ else _).
Qed.

(** An answer of the grammar world is in the log of a call only when the
    call was given spans and an SQL query, and it is the answer of the
    world of the reader to the arguments of the call. *)
Lemma world_answer_in_trace self query derived_cols derived_tables
    prelinked_entities sql spans q d1 d2 p ans :
  WorldQuery q d1 d2 p ans
    ∈ trace (text_to_instance self query derived_cols derived_tables
               prelinked_entities sql spans) →
  ∃ spans' sql',
    spans = Some spans' ∧ sql = Some sql'
    ∧ ans = get_action_sequence_and_all_actions (_world self) sql'
              derived_cols derived_tables prelinked_entities.
Proof.
  destruct spans as [spans'|].
  - rewrite text_to_instance_with_spans. cbn [trace fst].
    intros [[=]|Hin]%elem_of_cons. destruct sql as [sql'|].
    + rewrite derive_and_build_with_sql in Hin. cbn [trace fst] in Hin.
      apply elem_of_cons in Hin as [[= _ _ _ _ ->]|Hin]; [by eauto|].
      exfalso. revert Hin.
      destruct (get_action_sequence_and_all_actions _ _ _ _ _).1.
      * by intros (? & ? & ?)%build_instance_trace.
      * destruct (_keep_if_unparsable self); [|by intros ?%elem_of_nil].
        rewrite trace_bind. cbn [print emit trace outcome fst snd app].
        intros [[=]|Hin]%elem_of_cons.
        by apply build_instance_trace in Hin as (? & ? & ?).
    + cbn [derive_and_build] in Hin. rewrite build_instance_unbound in Hin.
      by apply elem_of_nil in Hin.
  - rewrite text_to_instance_no_spans. cbn [trace fst].
    intros [[=]|Hin]%elem_of_cons. by apply elem_of_nil in Hin.
Qed.

(** C2. In a call in which the grammar world answers with no action
    sequence while [keep_if_unparsable] is off, [text_to_instance] returns
    [None]: no instance, and no exception. *)
Theorem drop_on_unparsable self query derived_cols derived_tables
    prelinked_entities sql spans q d1 d2 p all_actions :
  _keep_if_unparsable self = false →
  WorldQuery q d1 d2 p (None, all_actions)
    ∈ trace (text_to_instance self query derived_cols derived_tables
               prelinked_entities sql spans) →
  outcome (text_to_instance self query derived_cols derived_tables
             prelinked_entities sql spans) = Ok None.
Proof.
  intros Hkeep (spans' & sql' & -> & -> & Hans)%world_answer_in_trace.
  rewrite text_to_instance_with_spans, derive_and_build_with_sql.
  cbn [outcome snd]. rewrite <- Hans. cbn [fst]. by rewrite Hkeep.
Qed.

(** C3, amended. In a call in which the grammar world answers with no
    action sequence while [keep_if_unparsable] is on, and every rule of
    [all_actions] holds the marker [" ->"] exactly once, an instance is
    returned: its catalog has the annotated entry of every rule of
    [all_actions], in order, so it is as long as [all_actions]; its indexed
    gold sequence is the single entry [-1]. *)
Theorem keep_on_unparsable self query derived_cols derived_tables
    prelinked_entities sql spans q d1 d2 p all_actions :
  _keep_if_unparsable self = true →
  WorldQuery q d1 d2 p (None, all_actions)
    ∈ trace (text_to_instance self query derived_cols derived_tables
               prelinked_entities sql spans) →
  Forall has_one_arrow all_actions →
  ∃ instance valid_actions_field,
    outcome (text_to_instance self query derived_cols derived_tables
               prelinked_entities sql spans) = Ok (Some instance)
    ∧ fields instance !! "valid_actions"
      = Some (FieldRules valid_actions_field)
    ∧ Some <$> field_list valid_actions_field
      = annotated_entry (_world self) <$> all_actions
    ∧ length (field_list valid_actions_field) = length all_actions
    ∧ (all_actions ≠ [] → field_list valid_actions_field ≠ [])
    ∧ fields instance !! "action_sequence"
      = Some (FieldIndices (Build_ListField
                [ {| sequence_index := -1;
                     sequence_field := valid_actions_field |} ])).
Proof.
  intros Hkeep (spans' & sql' & -> & -> & Hans)%world_answer_in_trace Hwf.
  destruct (catalog_loop_total (_world self) all_actions Hwf) as [fl Hfl].
  destruct (catalog_loop_Ok _ _ _ Hfl) as [Hentries Hrules].
  assert (length fl = length all_actions) as Hlen
    by (by rewrite <- Hrules, length_fmap).
  eexists _, (Build_ListField fl).
  rewrite text_to_instance_with_spans, derive_and_build_with_sql.
  cbn [outcome snd]. rewrite <- Hans. cbn [fst snd]. rewrite Hkeep.
  rewrite outcome_bind. cbn [print emit outcome snd rbind].
  rewrite build_instance_outcome, Hfl. cbn [rbind].
  change (index_actions _ _ []) with
    (Ok [ {| sequence_index := -1;
             sequence_field := Build_ListField fl |} ]).
  cbn [rbind].
  split; [reflexivity|]. cbn [fields field_list].
  split; [|split; [done|split; [done|split]]].
  - rewrite lookup_insert_ne by done. by rewrite lookup_insert_eq.
  - intros Hne ->. by destruct all_actions.
  - by rewrite lookup_insert_eq.
Qed.

Lemma build_instance_missing self fields gold all_actions :
  (∃ a, a ∈ gold ∧ a ∉ all_actions) →
  ∃ e, outcome (build_instance self fields (Some gold) (Some all_actions))
       = Raise e
       ∧ (Forall has_one_arrow all_actions →
          ∃ k, e = KeyError k ∧ k ∈ gold ∧ k ∉ all_actions).
Proof.
  intros Hmiss. rewrite build_instance_outcome.
  destruct (outcome (mapM (production_rule_field (_world self)) all_actions))
    as [fl|e] eqn:Hfl; cbn [rbind].
  - destruct (catalog_loop_Ok _ _ _ Hfl) as [_ Hrules].
    destruct (index_actions_missing (Build_ListField fl) gold)
      as (k & -> & Hk & Hknot).
    { unfold rules_of. cbn [field_list]. by rewrite Hrules. }
    unfold rules_of in Hknot. cbn [field_list] in Hknot.
    rewrite Hrules in Hknot. by eauto 6.
  - exists e. split; [done|]. intros [fl' Hfl']%(catalog_loop_total (_world self)).
    congruence.
Qed.

(** C6. When the gold sequence holds a rule string that is not in the
    catalog, the indexing step raises [KeyError] for the first such rule:
    the rule is not skipped. A call in which the grammar world answers with
    such a gold sequence ends in an exception, never in an instance; it is
    that [KeyError] whenever the catalog could be built. *)
Theorem missing_rule_is_key_error :
  (∀ (valid_actions_field : ListField ProductionRuleField) gold,
     (∃ a, a ∈ gold ∧ a ∉ rules_of valid_actions_field) →
     ∃ k, index_actions (action_map_of valid_actions_field)
            valid_actions_field gold = Raise (KeyError k)
          ∧ k ∈ gold ∧ k ∉ rules_of valid_actions_field)
  ∧ (∀ self query derived_cols derived_tables prelinked_entities sql spans
       q d1 d2 p gold all_actions,
       WorldQuery q d1 d2 p (Some gold, all_actions)
         ∈ trace (text_to_instance self query derived_cols derived_tables
                    prelinked_entities sql spans) →
       (∃ a, a ∈ gold ∧ a ∉ all_actions) →
       ∃ e, outcome (text_to_instance self query derived_cols derived_tables
                       prelinked_entities sql spans) = Raise e
            ∧ (Forall has_one_arrow all_actions →
               ∃ k, e = KeyError k ∧ k ∈ gold ∧ k ∉ all_actions)).
Proof.
  split; [apply index_actions_missing|].
  intros self query derived_cols derived_tables prelinked_entities sql spans
    q d1 d2 p gold all_actions
    (spans' & sql' & -> & -> & Hans)%world_answer_in_trace Hmiss.
  rewrite text_to_instance_with_spans, derive_and_build_with_sql.
  cbn [outcome snd]. rewrite <- Hans. cbn [fst snd].
  by apply build_instance_missing.
Qed.

(** C7. A call without spans, as [read_json_dict] makes it, does not
    return an instance: the span normaliser is run all the same and raises
    [TypeError] on [None], before the grammar world is asked. *)
Theorem text_to_instance_without_spans_raises self query derived_cols
    derived_tables prelinked_entities sql :
  outcome (text_to_instance self query derived_cols derived_tables
             prelinked_entities sql None)
  = Raise (TypeError "'NoneType' object is not iterable").
Proof. by rewrite text_to_instance_no_spans. Qed.

(** So [read_json_dict] raises as soon as [process_sql_data] yields a
    record. *)
Lemma read_json_dict_raises json_loads process_sql_data self json_dict
    variables text_vars question sql sql_data rest :
  json_dict !! "variables" = Some variables →
  json_loads (replace_char "'" "034" variables) = Ok text_vars →
  json_dict !! "question" = Some question →
  json_dict !! "sql" = Some sql →
  process_sql_data
    [ {| Data.sentences :=
           [ {| Data.text := question; Data.question_split := "question";
                Data.variables := text_vars |} ];
         Data.sql := [sql];
         Data.sql_variables :=
           (λ '(k, v), {| Data.name := k; Data.example := v;
                          Data.type := drop_last k |}) <$> text_vars |} ]
    (_use_all_sql self) (_remove_unneeded_aliases self) (_schema self)
    (_use_all_queries self) = Ok sql_data :: rest →
  outcome (read_json_dict json_loads process_sql_data self json_dict)
  = Raise (TypeError "'NoneType' object is not iterable").
Proof.
  intros Hv Hl Hq Hs Hp. unfold read_json_dict, json_getitem.
  rewrite Hv. cbn [lift bind]. rewrite Hl, Hq. cbn [bind]. rewrite Hs.
  cbn [bind]. rewrite Hp, text_to_instance_no_spans. reflexivity.
Qed.

(** C10, amended. Called with spans but with [sql = None],
    [text_to_instance] raises [UnboundLocalError] for [all_actions] when it
    starts to build the catalog, since the locals [action_sequence] and
    [all_actions] are bound only when [sql] is given; the grammar world is
    not asked and no instance is returned. *)
Theorem text_to_instance_without_sql_raises self query derived_cols
    derived_tables prelinked_entities (spans : list (Z * Z)) :
  text_to_instance self query derived_cols derived_tables prelinked_entities
    None (Some spans)
  = ([Tokenize (PyStr.join " " query)
        (tokenize (_token_tokenizer self) (PyStr.join " " query))],
     Raise (UnboundLocalError "all_actions")).
Proof. by rewrite text_to_instance_with_spans. Qed.

(** C9. With [use_prelinked_entities = False] the constructor raises
    [ConfigurationError], whatever its other arguments and whatever the
    schema reader, the database and the world constructor would do: they
    are not reached. *)
Theorem init_requires_prelinked_entities WhitespaceTokenizer cached_path
    sqlite3_connect read_dataset_schema Text2SqlWorld_init (a : Args.t) :
  Args.use_prelinked_entities a = false →
  __init__ WhitespaceTokenizer cached_path sqlite3_connect
    read_dataset_schema Text2SqlWorld_init a
  = Raise (ConfigurationError
             "The grammar based text2sql dataset reader currently requires the use of entity pre-linking.").
Proof. intros Ha. unfold __init__. by rewrite Ha. Qed.

(** ** Sample runs *)

Example split_arrow_once : PyStr.split " ->" "A -> B" = ["A"; " B"].
Proof. reflexivity. Qed.

Example split_arrow_twice :
  PyStr.split " ->" "A -> B -> C" = ["A"; " B"; " C"].
Proof. reflexivity. Qed.

Example split_arrow_absent : PyStr.split " ->" "A" = ["A"].
Proof. reflexivity. Qed.

Example split_space_keeps_empty_pieces :
  PyStr.split " " "a  b " = ["a"; ""; "b"; ""].
Proof. reflexivity. Qed.

(** The example of the description: the gold sequence
    [["A -> B", "B -> d"]] is indexed as [[0, 2]]. *)
Example index_loop_example :
  index_loop (action_map_of sample_catalog) sample_catalog
    ["A -> B"; "B -> d"]
  = Ok [ {| sequence_index := 0; sequence_field := sample_catalog |};
         {| sequence_index := 2; sequence_field := sample_catalog |} ].
Proof. vm_compute. reflexivity. Qed.

Example repeated_rule_keeps_last_index :
  action_map_of repeating_catalog !! "A -> B" = Some 2%nat.
Proof. vm_compute. reflexivity. Qed.

Example rule_without_arrow_raises :
  outcome (text_to_instance (sample_reader true (constant_world None ["A"]))
             ["show"; "me"] [] [] None (Some ["SELECT"]) (Some [(0, 2)]))
  = Raise (ValueError "not enough values to unpack (expected 2, got 1)").
Proof. vm_compute. reflexivity. Qed.

(** ** Instances of the theorems *)

Lemma index_round_trip_sample :
  ∃ index_fields,
    index_loop (action_map_of sample_catalog) sample_catalog
      ["A -> B"; "B -> d"] = Ok index_fields
    ∧ Forall (λ f, sequence_field f = sample_catalog) index_fields
    ∧ Forall (λ f, 0 ≤ sequence_index f
                   < Z.of_nat (length (rules_of sample_catalog)))
        index_fields
    ∧ (λ f, rules_of sample_catalog !! Z.to_nat (sequence_index f))
        <$> index_fields = Some <$> ["A -> B"; "B -> d"]
    ∧ decode_index <$> index_fields = Some <$> ["A -> B"; "B -> d"]
    ∧ (["A -> B"; "B -> d"] ≠ [] →
       index_actions (action_map_of sample_catalog) sample_catalog
         ["A -> B"; "B -> d"] = Ok index_fields).
Proof.
  apply index_round_trip.
  - apply (bool_decide_unpack _). vm_compute. exact I.
  - apply Forall_forall. apply (bool_decide_unpack _). vm_compute. exact I.
Defined.

Lemma action_map_samples :
  size (action_map_of sample_catalog) = 3%nat
  ∧ ∃ i, action_map_of repeating_catalog !! "A -> B" = Some i
         ∧ last_occurrence (rules_of repeating_catalog) "A -> B" i.
Proof.
  split.
  - apply (action_map_last_wins_and_bijective sample_catalog).
    apply (bool_decide_unpack _). vm_compute. exact I.
  - apply (action_map_last_wins_and_bijective repeating_catalog).
    apply (bool_decide_unpack _). vm_compute. exact I.
Defined.

Lemma empty_sequence_sentinel_sample :
  outcome (build_instance
             (sample_reader true (constant_world None sample_rules)) ∅
             (Some []) (Some sample_rules))
  = Ok (Some {| fields :=
          <["action_sequence" :=
              FieldIndices (Build_ListField
                [ {| sequence_index := -1;
                     sequence_field := sample_catalog |} ])]>
            (<["valid_actions" := FieldRules sample_catalog]> ∅) |}).
Proof.
  apply (proj2 empty_sequence_sentinel
           (sample_reader true (constant_world None sample_rules))).
  vm_compute. reflexivity.
Defined.

Lemma drop_on_unparsable_sample :
  outcome (text_to_instance
             (sample_reader false (constant_world None sample_rules))
             ["show"; "me"] [] [] None (Some ["SELECT"]) (Some [(0, 2)]))
  = Ok None.
Proof.
  apply (drop_on_unparsable _ _ _ _ _ _ _ ["SELECT"] [] [] None sample_rules).
  - reflexivity.
  - vm_compute. apply list_elem_of_further, list_elem_of_here.
Defined.

Lemma sample_rules_have_one_arrow : Forall has_one_arrow sample_rules.
Proof. repeat constructor; by eexists _, _. Defined.

Lemma keep_on_unparsable_sample :
  ∃ instance valid_actions_field,
    outcome (text_to_instance
               (sample_reader true (constant_world None sample_rules))
               ["show"; "me"] [] [] None (Some ["SELECT"]) (Some [(0, 2)]))
      = Ok (Some instance)
    ∧ fields instance !! "valid_actions"
      = Some (FieldRules valid_actions_field)
    ∧ Some <$> field_list valid_actions_field
      = annotated_entry (constant_world None sample_rules) <$> sample_rules
    ∧ length (field_list valid_actions_field) = length sample_rules
    ∧ (sample_rules ≠ [] → field_list valid_actions_field ≠ [])
    ∧ fields instance !! "action_sequence"
      = Some (FieldIndices (Build_ListField
                [ {| sequence_index := -1;
                     sequence_field := valid_actions_field |} ])).
Proof.
  apply (keep_on_unparsable
           (sample_reader true (constant_world None sample_rules))
           _ _ _ _ _ _ ["SELECT"] [] [] None sample_rules).
  - reflexivity.
  - vm_compute. apply list_elem_of_further, list_elem_of_here.
  - exact sample_rules_have_one_arrow.
Defined.

Lemma missing_rule_samples :
  (∃ k, index_actions (action_map_of sample_catalog) sample_catalog
          ["A -> B"; "C -> e"] = Raise (KeyError k)
        ∧ k ∈ ["A -> B"; "C -> e"] ∧ k ∉ rules_of sample_catalog)
  ∧ ∃ e,
      outcome (text_to_instance
                 (sample_reader false
                    (constant_world (Some ["A -> B"; "C -> e"]) sample_rules))
                 ["show"; "me"] [] [] None (Some ["SELECT"]) (Some [(0, 2)]))
        = Raise e
      ∧ (Forall has_one_arrow sample_rules →
         ∃ k, e = KeyError k ∧ k ∈ ["A -> B"; "C -> e"] ∧ k ∉ sample_rules).
Proof.
  split.
  - apply (proj1 missing_rule_is_key_error).
    exists "C -> e". split; apply (bool_decide_unpack _); vm_compute; exact I.
  - apply (proj2 missing_rule_is_key_error _ _ _ _ _ _ _
             ["SELECT"] [] [] None).
    + vm_compute. apply list_elem_of_further, list_elem_of_here.
    + exists "C -> e". split; apply (bool_decide_unpack _); vm_compute; exact I.
Defined.

Lemma init_without_prelinked_entities_sample :
  __init__ space_tokenizer (λ path, Ok path) (λ path, Ok (SqliteCursor path))
    (λ _, Ok ∅) (λ _ _ _ _, Ok (constant_world None sample_rules))
    {| Args.schema_path := "schema.csv";
       Args.database_file := Some "atis.db";
       Args.use_all_sql := false;
       Args.use_all_queries := true;
       Args.remove_unneeded_aliases := false;
       Args.use_prelinked_entities := false;
       Args.use_untyped_entities := true;
       Args.token_indexers := None;
       Args.cross_validation_split_to_exclude := Some 3;
       Args.keep_if_unparsable := true;
       Args.lazy := false;
       Args.load_cache := false;
       Args.save_cache := true;
       Args.loading_limit := -1 |}
  = Raise (ConfigurationError
             "The grammar based text2sql dataset reader currently requires the use of entity pre-linking.").
Proof. apply init_requires_prelinked_entities. reflexivity. Defined.

(** ** Where the statements need their side conditions *)

(** A rule that holds the marker twice: the world answers with no action
    sequence, [keep_if_unparsable] is on, and the call raises [ValueError]
    while building the catalog. *)
Lemma keep_on_unparsable_two_arrows :
  _keep_if_unparsable
    (sample_reader true (constant_world None ["A -> B -> C"])) = true
  ∧ WorldQuery ["SELECT"] [] [] None (None, ["A -> B -> C"])
      ∈ trace (text_to_instance
                 (sample_reader true (constant_world None ["A -> B -> C"]))
                 ["show"; "me"] [] [] None (Some ["SELECT"]) (Some [(0, 2)]))
  ∧ outcome (text_to_instance
               (sample_reader true (constant_world None ["A -> B -> C"]))
               ["show"; "me"] [] [] None (Some ["SELECT"]) (Some [(0, 2)]))
    = Raise (ValueError "too many values to unpack (expected 2)").
Proof.
  split; [reflexivity|]. split.
  - vm_compute. apply list_elem_of_further, list_elem_of_here.
  - vm_compute. reflexivity.
Qed.

(** Without sql and without spans the call raises in the span normaliser,
    before the catalog is reached. *)
Lemma without_sql_and_spans_type_error :
  outcome (text_to_instance
             (sample_reader false (constant_world None sample_rules))
             ["show"; "me"] [] [] None None None)
  = Raise (TypeError "'NoneType' object is not iterable")
  ∧ outcome (text_to_instance
               (sample_reader false (constant_world None sample_rules))
               ["show"; "me"] [] [] None None None)
    ≠ Raise (UnboundLocalError "all_actions").
Proof. split; [reflexivity|]. intros [=]. Qed.

(** * Further properties *)

(** ** The span normaliser, continued *)

Lemma fix_spans_coverage_union (spans : list (Z * Z)) (L : Z) :
  foldl (λ acc i, acc ∪ {[ (i, i) ]})
    (list_to_set ((λ '(s, e), (s, e - 1)) <$> spans) : gset (Z * Z))
    (seqZ 0 L)
  = list_to_set ((λ '(s, e), (s, e - 1)) <$> spans)
    ∪ list_to_set (unit_spans L).
Proof.
  apply set_eq. intros p.
  rewrite elem_of_add_unit_spans, elem_of_union, !elem_of_list_to_set.
  unfold unit_spans. rewrite (list_elem_of_fmap (λ i, (i, i))).
  split; (intros [?|(i & ? & ?)]; [by left|right; by exists i]).
Qed.

Lemma size_list_to_set_le (l : list (Z * Z)) :
  (size (list_to_set l : gset (Z * Z)) ≤ length l)%nat.
Proof.
  induction l as [|p l IH]; cbn [list_to_set length].
  - by rewrite size_empty.
  - rewrite size_union_alt, size_singleton.
    assert ((list_to_set l : gset (Z * Z)) ∖ {[p]} ⊆ list_to_set l) as Hsub
      by by apply subseteq_difference_l.
    apply subseteq_size in Hsub. lia.
Qed.

Lemma NoDup_unit_spans L : NoDup (unit_spans L).
Proof.
  unfold unit_spans. apply NoDup_fmap_2_strong; [|apply NoDup_seqZ].
  by intros i j _ _ [= ->].
Qed.

Lemma length_unit_spans L : length (unit_spans L) = Z.to_nat L.
Proof. unfold unit_spans. by rewrite length_fmap, length_seqZ. Qed.

Lemma fix_spans_coverage_size_bounds (spans : list (Z * Z)) (L : Z)
    (out : gset (Z * Z)) :
  _fix_spans_coverage (Some spans) L = Ok out →
  (Z.to_nat L ≤ size out ≤ length spans + Z.to_nat L)%nat.
Proof.
  intros [= <-]. rewrite fix_spans_coverage_union. split.
  - rewrite <- (length_unit_spans L).
    rewrite <- (size_list_to_set (C := gset (Z * Z)) (unit_spans L))
      by apply NoDup_unit_spans.
    apply subseteq_size, union_subseteq_r.
  - rewrite size_union_alt.
    pose proof (size_list_to_set_le ((λ '(s, e), (s, e - 1)) <$> spans)) as H1.
    rewrite length_fmap in H1.
    pose proof (size_list_to_set_le (unit_spans L)) as H2.
    rewrite length_unit_spans in H2.
    assert ((list_to_set (unit_spans L) : gset (Z * Z))
              ∖ list_to_set ((λ '(s, e), (s, e - 1)) <$> spans)
            ⊆ list_to_set (unit_spans L)) as Hsub
      by by apply subseteq_difference_l.
    apply subseteq_size in Hsub. lia.
Qed.

(** X1. The normalised set has at least one span per token and at most
    one span per token plus one per input span. *)
Theorem fix_spans_coverage_size (spans : list (Z * Z)) (L : Z)
    (out : gset (Z * Z)) :
  _fix_spans_coverage (Some spans) L = Ok out →
  (Z.to_nat L ≤ size out ≤ length spans + Z.to_nat L)%nat.
Proof. apply fix_spans_coverage_size_bounds. Qed.

Lemma fix_spans_coverage_size_sample :
  (Z.to_nat 3 ≤ size sample_normalized
   ≤ length sample_spans + Z.to_nat 3)%nat.
Proof.
  apply (fix_spans_coverage_size sample_spans 3). vm_compute. reflexivity.
Defined.

(** X2. The normalised set grows with the input: more spans or more
    tokens never remove a span. So it does not depend on the order of the
    input spans nor on how often one is repeated. *)
Theorem fix_spans_coverage_monotone (spans1 spans2 : list (Z * Z))
    (L1 L2 : Z) (out1 out2 : gset (Z * Z)) :
  _fix_spans_coverage (Some spans1) L1 = Ok out1 →
  _fix_spans_coverage (Some spans2) L2 = Ok out2 →
  (spans1 ⊆ spans2 → L1 ≤ L2 → out1 ⊆ out2)
  ∧ ((∀ p, p ∈ spans1 ↔ p ∈ spans2) → L1 = L2 → out1 = out2).
Proof.
  intros [= <-] [= <-].
  assert (∀ (sa sb : list (Z * Z)) (La Lb : Z), sa ⊆ sb → La ≤ Lb →
            ∀ p : Z * Z,
              (∃ s e, (s, e) ∈ sa ∧ p = (s, e - 1))
              ∨ (∃ i, 0 ≤ i < La ∧ p = (i, i)) →
              (∃ s e, (s, e) ∈ sb ∧ p = (s, e - 1))
              ∨ (∃ i, 0 ≤ i < Lb ∧ p = (i, i))) as Hmono.
  { intros sa sb La Lb Hs HL p [(s & e & Hin & ->)|(i & Hi & ->)].
    - left. exists s, e. split; [by apply Hs|done].
    - right. exists i. split; [lia|done]. }
  split.
  - intros Hs HL p. rewrite !fix_spans_coverage_elem. by apply Hmono.
  - intros Hs ->. apply set_eq. intros p. rewrite !fix_spans_coverage_elem.
    split; apply Hmono; try lia; intros q Hq; by apply Hs.
Qed.

Lemma fix_spans_coverage_monotone_sample :
  ({[ (0, 1); (0, 0); (1, 1) ]} : gset (Z * Z))
  ⊆ {[ (1, 2); (0, 1); (0, 0); (1, 1); (2, 2) ]}
  ∧ ({[ (0, 1); (0, 0); (1, 1) ]} : gset (Z * Z))
    = {[ (0, 0); (1, 1); (0, 1) ]}.
Proof.
  split.
  - apply (fix_spans_coverage_monotone [(0, 2)] [(1, 3); (0, 2)] 2 3);
      [vm_compute; reflexivity|vm_compute; reflexivity| |lia].
    intros p Hp. by apply list_elem_of_further.
  - apply (fix_spans_coverage_monotone [(0, 2); (0, 2)] [(0, 2)] 2 2);
      [vm_compute; reflexivity|vm_compute; reflexivity| |reflexivity].
    intros p. rewrite !elem_of_cons. tauto.
Defined.

(** ** Strings, continued *)

Lemma prefix_app sep s :
  String.prefix sep s = true → ∃ rest, s = sep +:+ rest.
Proof.
  revert s. induction sep as [|a sep IH]; intros s; [by exists s|].
  destruct s as [|b s]; cbn [String.prefix]; [done|].
  destruct (Ascii.ascii_dec a b) as [<-|]; [|done].
  intros [rest ->]%IH. by exists rest.
Qed.

Lemma join_empty_head sep pieces :
  pieces ≠ [] → PyStr.join sep ("" :: pieces) = sep +:+ PyStr.join sep pieces.
Proof. by destruct pieces. Qed.

Lemma append_empty_l s : "" +:+ s = s.
Proof. reflexivity. Qed.

Lemma append_cons a s r : String a s +:+ r = String a (s +:+ r).
Proof. reflexivity. Qed.

(** [sep.join(s.split(sep))] gives [s] back, for every separator that is
    not empty. *)
Lemma join_split_go sep s skip skipped rest :
  sep ≠ "" →
  s = skipped +:+ rest → String.length skipped = skip →
  PyStr.join sep (PyStr.split_go sep skip s) = rest.
Proof.
  intros Hsep. revert skip skipped rest.
  induction s as [|c s IH]; intros skip skipped rest Hs Hlen.
  - destruct skipped; [|by rewrite append_cons in Hs].
    rewrite append_empty_l in Hs. by subst rest.
  - cbn [PyStr.split_go]. destruct skip as [|skip].
    + destruct skipped; [|done]. rewrite append_empty_l in Hs. subst rest.
      destruct (String.prefix sep (String c s)) eqn:Hp.
      * apply prefix_app in Hp as [rest Hrest].
        destruct sep as [|a sep]; [done|]. rewrite append_cons in Hrest.
        injection Hrest as -> ->.
        rewrite join_empty_head by apply split_go_not_nil.
        cbn [String.length Nat.sub]. rewrite Nat.sub_0_r.
        by rewrite (IH (String.length sep) sep rest), append_cons.
      * rewrite join_cons_head by apply split_go_not_nil.
        by rewrite (IH 0%nat "" s).
    + destruct skipped as [|b skipped]; [done|].
      rewrite append_cons in Hs. cbn in Hlen.
      injection Hs as -> ->. injection Hlen as Hlen.
      by apply (IH skip skipped rest).
Qed.

Lemma join_split sep s :
  sep ≠ "" → PyStr.join sep (PyStr.split sep s) = s.
Proof. intros Hsep. by apply (join_split_go sep s 0 "" s). Qed.

(** ** The catalog, continued *)

(** X3. When the loop over [all_actions] completes, the catalog has one
    entry per rule, in the order of [all_actions], with the rule string
    unchanged; the nonterminal of an entry is the text of its rule before
    the marker [" ->"], and its flag is the answer of the world for that
    nonterminal. *)
Theorem catalog_entries w all_actions production_rule_fields :
  outcome (mapM (production_rule_field w) all_actions)
    = Ok production_rule_fields →
  rule <$> production_rule_fields = all_actions
  ∧ length production_rule_fields = length all_actions
  ∧ Forall (λ f, (∃ rhs, rule f = nonterminal f +:+ " ->" +:+ rhs)
                 ∧ is_global f = is_global_rule w (nonterminal f))
      production_rule_fields.
Proof.
  intros Hfl. destruct (catalog_loop_Ok _ _ _ Hfl) as [Hentries Hrules].
  split; [done|]. split; [by rewrite <- Hrules, length_fmap|].
  apply Forall_forall. intros f Hf.
  assert (Some f ∈ annotated_entry w <$> all_actions) as Hin.
  { rewrite <- Hentries. apply list_elem_of_fmap. by exists f. }
  apply list_elem_of_fmap in Hin as (r & Hr & _).
  unfold annotated_entry in Hr.
  pose proof (join_split " ->" r ltac:(done)) as Hjoin.
  destruct (PyStr.split " ->" r) as [|nt [|rhs [|? ?]]]; try done.
  injection Hr as ->. cbn [rule nonterminal is_global].
  split; [by exists rhs|done].
Qed.

Lemma catalog_entries_sample :
  rule <$> field_list sample_catalog = sample_rules
  ∧ length (field_list sample_catalog) = length sample_rules
  ∧ Forall (λ f, (∃ rhs, rule f = nonterminal f +:+ " ->" +:+ rhs)
                 ∧ is_global f
                   = is_global_rule (constant_world None sample_rules)
                       (nonterminal f))
      (field_list sample_catalog).
Proof.
  apply (catalog_entries (constant_world None sample_rules) sample_rules).
  vm_compute. reflexivity.
Defined.

(** ** The indexer, continued *)

Lemma index_actions_Ok_inv
    (valid_actions_field : ListField ProductionRuleField)
    (gold : list string) (index_fields : list IndexField) :
  index_actions (action_map_of valid_actions_field) valid_actions_field gold
    = Ok index_fields →
  length index_fields = Nat.max 1 (length gold)
  ∧ Forall (λ f, sequence_field f = valid_actions_field) index_fields
  ∧ (gold ≠ [] →
     Forall (λ f, 0 ≤ sequence_index f
                  < Z.of_nat (length (field_list valid_actions_field)))
       index_fields
     ∧ decode_index <$> index_fields = Some <$> gold).
Proof.
  destruct gold as [|a gold].
  - intros [= <-]. split; [done|]. split; [|done].
    by apply Forall_singleton.
  - rewrite index_actions_cons.
    assert (a :: gold ≠ []) as Hne by done. revert Hne.
    generalize (a :: gold). clear a gold. intros gold Hne Hloop.
    assert (length index_fields = length gold
            ∧ Forall (λ f, sequence_field f = valid_actions_field)
                index_fields
            ∧ Forall (λ f, 0 ≤ sequence_index f
                           < Z.of_nat (length (field_list valid_actions_field)))
                index_fields
            ∧ decode_index <$> index_fields = Some <$> gold)
      as (Hlen & Hfield & Hbound & Hdec).
    { clear Hne. revert index_fields Hloop.
      induction gold as [|a gold IH]; intros index_fields.
      - by intros [= <-].
      - rewrite index_loop_cons.
        destruct (getitem _ a) as [i|] eqn:Hi; [|done]. cbn [rbind].
        destruct (index_loop _ _ gold) as [rest|]; [|done].
        cbn [rbind]. intros [= <-].
        destruct (IH rest eq_refl) as (Hlen & Hfield & Hbound & Hdec).
        apply getitem_Ok, action_map_of_lookup in Hi as [Hi _].
        pose proof (lookup_lt_Some _ _ _ Hi) as Hlt.
        unfold rules_of in Hlt. rewrite length_fmap in Hlt.
        split; [cbn; by rewrite Hlen|].
        split; [by constructor|]. split.
        + constructor; [cbn; lia|done].
        + cbn [fmap list_fmap]. fold (decode_index <$> rest).
          rewrite Hdec. f_equal. unfold decode_index.
          cbn [sequence_index sequence_field].
          rewrite decide_True by lia. by rewrite Nat2Z.id. }
    split; [destruct gold; [done|cbn in *; lia]|]. done.
Qed.

(** X4. What the indexer returns has one entry for an empty gold sequence
    and one per gold rule otherwise; every entry refers to the catalog of
    the call; for a gold sequence that is not empty every index is a
    position of the catalog and the rule there is the gold rule, also when
    the catalog repeats a rule. *)
Theorem index_actions_in_bounds
    (valid_actions_field : ListField ProductionRuleField)
    (gold : list string) (index_fields : list IndexField) :
  index_actions (action_map_of valid_actions_field) valid_actions_field gold
    = Ok index_fields →
  length index_fields = Nat.max 1 (length gold)
  ∧ Forall (λ f, sequence_field f = valid_actions_field) index_fields
  ∧ (gold ≠ [] →
     Forall (λ f, 0 ≤ sequence_index f
                  < Z.of_nat (length (field_list valid_actions_field)))
       index_fields
     ∧ decode_index <$> index_fields = Some <$> gold).
Proof. apply index_actions_Ok_inv. Qed.

Lemma index_actions_in_bounds_sample :
  length [ {| sequence_index := 2; sequence_field := repeating_catalog |};
           {| sequence_index := 1; sequence_field := repeating_catalog |} ]
  = Nat.max 1 (length ["A -> B"; "A -> C"])
  ∧ Forall (λ f, sequence_field f = repeating_catalog)
      [ {| sequence_index := 2; sequence_field := repeating_catalog |};
        {| sequence_index := 1; sequence_field := repeating_catalog |} ]
  ∧ (["A -> B"; "A -> C"] ≠ [] →
     Forall (λ f, 0 ≤ sequence_index f
                  < Z.of_nat (length (field_list repeating_catalog)))
       [ {| sequence_index := 2; sequence_field := repeating_catalog |};
         {| sequence_index := 1; sequence_field := repeating_catalog |} ]
     ∧ decode_index
         <$> [ {| sequence_index := 2; sequence_field := repeating_catalog |};
               {| sequence_index := 1; sequence_field := repeating_catalog |} ]
       = Some <$> ["A -> B"; "A -> C"]).
Proof.
  apply (index_actions_in_bounds repeating_catalog ["A -> B"; "A -> C"]).
  vm_compute. reflexivity.
Defined.

(** ** Instance assembly, continued *)

Lemma build_instance_trace_eq self fields action_sequence all_actions :
  trace (build_instance self fields action_sequence (Some all_actions))
  = trace (mapM (production_rule_field (_world self)) all_actions).
Proof.
  unfold build_instance. cbn [read_local]. rewrite !trace_bind.
  cbn [lift trace outcome fst snd app]. rewrite trace_bind.
  destruct (outcome (mapM (production_rule_field (_world self)) all_actions))
    as [fl|]; [|by rewrite app_nil_r].
  destruct action_sequence as [gold|]; [|by rewrite app_nil_r].
  cbv zeta. unfold bind at 1, lift, read_local, ret.
  destruct (index_actions _ _ gold); cbn [trace fst]; by rewrite app_nil_r.
Qed.

(** A call with spans and an SQL query, in full. *)
Lemma text_to_instance_full self query derived_cols derived_tables
    prelinked_entities sql spans :
  let answer := world_answer self sql derived_cols derived_tables
                  prelinked_entities in
  let dropped := bool_decide (answer.1 = None)
                 && negb (_keep_if_unparsable self) in
  let build :=
    build_instance self
      (fields_before_world self query (normalized_spans self query spans))
      (Some (gold_of answer)) (Some answer.2) in
  text_to_instance self query derived_cols derived_tables prelinked_entities
    (Some sql) (Some spans)
  = (Tokenize (PyStr.join " " query)
       (tokenize (_token_tokenizer self) (PyStr.join " " query))
     :: WorldQuery sql derived_cols derived_tables prelinked_entities answer
     :: (if dropped then []
         else (if bool_decide (answer.1 = None)
               then [Print "Parse error"] else [])
              ++ trace (mapM (production_rule_field (_world self)) answer.2)),
     if dropped then Ok None else outcome build).
Proof.
  intros answer dropped build.
  rewrite text_to_instance_with_spans, derive_and_build_with_sql.
  cbn [trace outcome fst snd]. fold (world_answer self sql derived_cols
    derived_tables prelinked_entities). fold answer.
  subst dropped build. unfold gold_of.
  destruct answer.1 as [gold|]; cbn [bool_decide andb].
  - rewrite bool_decide_eq_false_2 by done. cbn [andb app].
    by rewrite build_instance_trace_eq.
  - rewrite bool_decide_eq_true_2 by done. cbn [andb].
    destruct (_keep_if_unparsable self); cbn [negb]; [|done].
    rewrite trace_bind, outcome_bind.
    cbn [print emit trace outcome fst snd app rbind].
    by rewrite build_instance_trace_eq.
Qed.

(** What a call that returns an instance went through. *)
Lemma text_to_instance_returns self query derived_cols derived_tables
    prelinked_entities sql spans instance :
  outcome (text_to_instance self query derived_cols derived_tables
             prelinked_entities sql spans) = Ok (Some instance) →
  ∃ spans' sql' production_rule_fields index_fields,
    spans = Some spans' ∧ sql = Some sql'
    ∧ let answer := world_answer self sql' derived_cols derived_tables
                      prelinked_entities in
      (answer.1 = None → _keep_if_unparsable self = true)
      ∧ outcome (mapM (production_rule_field (_world self)) answer.2)
        = Ok production_rule_fields
      ∧ index_actions
          (action_map_of (Build_ListField production_rule_fields))
          (Build_ListField production_rule_fields) (gold_of answer)
        = Ok index_fields
      ∧ instance
        = assembled self query spans' production_rule_fields index_fields.
Proof.
  destruct spans as [spans'|]; [|by rewrite text_to_instance_no_spans].
  destruct sql as [sql'|];
    [|by rewrite text_to_instance_with_spans].
  rewrite text_to_instance_full. cbn [outcome snd].
  set (answer := world_answer self sql' derived_cols derived_tables
                   prelinked_entities).
  destruct (bool_decide (answer.1 = None) && negb (_keep_if_unparsable self))
    eqn:Hdrop; [done|].
  rewrite build_instance_outcome.
  destruct (outcome (mapM (production_rule_field (_world self)) answer.2))
    as [fl|] eqn:Hfl; [|done].
  cbn [rbind].
  destruct (index_actions _ _ (gold_of answer)) as [idx|] eqn:Hidx; [|done].
  cbn [rbind]. intros [= <-]. exists spans', sql', fl, idx.
  split; [done|]. split; [done|]. split; [|done].
  intros Hnone. rewrite bool_decide_eq_true_2 in Hdrop by done.
  by destruct (_keep_if_unparsable self).
Qed.

Lemma index_loop_total (valid_actions_field : ListField ProductionRuleField)
    (gold : list string) :
  (∀ a, a ∈ gold → a ∈ rules_of valid_actions_field) →
  ∃ index_fields,
    index_loop (action_map_of valid_actions_field) valid_actions_field gold
    = Ok index_fields.
Proof.
  induction gold as [|a gold IH]; intros Hin; [by exists []|].
  destruct IH as [rest Hrest].
  { intros b Hb. apply Hin. by apply list_elem_of_further. }
  assert (a ∈ rules_of valid_actions_field) as Ha
    by apply Hin, list_elem_of_here.
  apply action_map_of_is_Some in Ha as [i Hi].
  eexists. rewrite index_loop_cons, Hrest.
  by rewrite (proj2 (getitem_Ok _ _ _) Hi).
Qed.

Lemma index_actions_total (valid_actions_field : ListField ProductionRuleField)
    (gold : list string) :
  (∀ a, a ∈ gold → a ∈ rules_of valid_actions_field) →
  ∃ index_fields,
    index_actions (action_map_of valid_actions_field) valid_actions_field
      gold = Ok index_fields.
Proof.
  intros [idx Hidx]%index_loop_total. unfold index_actions. rewrite Hidx.
  destruct gold; by eexists.
Qed.

Lemma decode_index_in_catalog
    (valid_actions_field : ListField ProductionRuleField)
    (index_fields : list IndexField) :
  Forall (λ f, sequence_field f = valid_actions_field) index_fields →
  Forall (λ f, 0 ≤ sequence_index f
               < Z.of_nat (length (field_list valid_actions_field)))
    index_fields →
  (λ f, rules_of valid_actions_field !! Z.to_nat (sequence_index f))
    <$> index_fields
  = decode_index <$> index_fields.
Proof.
  intros Hfield Hbound. apply Forall_fmap_ext_1.
  apply Forall_forall. intros f Hf.
  rewrite Forall_forall in Hfield, Hbound.
  unfold decode_index. rewrite (Hfield f Hf).
  rewrite decide_True; [done|]. by apply Hbound.
Qed.

(** X5. When the world answers a call with a derivation whose rules are
    all in [all_actions], and every rule of [all_actions] holds the marker
    once, the call returns an instance, whatever [keep_if_unparsable] is.
    Its catalog lists [all_actions], and every entry of its indexed sequence
    refers to that catalog. For a derivation that is not empty every index
    is a position of [all_actions], and the rules of [all_actions] at these
    positions are the derivation, in order; for the empty derivation the
    indexed sequence is the single entry [-1]. *)
Theorem derivation_is_indexed self query derived_cols derived_tables
    prelinked_entities sql spans gold all_actions :
  world_answer self sql derived_cols derived_tables prelinked_entities
    = (Some gold, all_actions) →
  Forall has_one_arrow all_actions →
  (∀ a, a ∈ gold → a ∈ all_actions) →
  ∃ production_rule_fields index_fields,
    outcome (text_to_instance self query derived_cols derived_tables
               prelinked_entities (Some sql) (Some spans))
    = Ok (Some (assembled self query spans production_rule_fields
                  index_fields))
    ∧ rule <$> production_rule_fields = all_actions
    ∧ Forall (λ f, sequence_field f = Build_ListField production_rule_fields)
        index_fields
    ∧ (gold ≠ [] →
       Forall (λ f, 0 ≤ sequence_index f < Z.of_nat (length all_actions))
         index_fields
       ∧ (λ f, all_actions !! Z.to_nat (sequence_index f)) <$> index_fields
         = Some <$> gold
       ∧ decode_index <$> index_fields = Some <$> gold)
    ∧ (gold = [] →
       index_fields
       = [ {| sequence_index := -1;
              sequence_field := Build_ListField production_rule_fields |} ]).
Proof.
  intros Hans Hwf Hin.
  destruct (catalog_loop_total (_world self) all_actions Hwf) as [fl Hfl].
  destruct (catalog_loop_Ok _ _ _ Hfl) as [_ Hrules].
  destruct (index_actions_total (Build_ListField fl) gold) as [idx Hidx].
  { unfold rules_of. cbn [field_list]. by rewrite Hrules. }
  exists fl, idx. rewrite text_to_instance_full, Hans.
  cbn [outcome fst snd]. rewrite bool_decide_eq_false_2 by done.
  cbn [andb]. rewrite build_instance_outcome, Hfl. cbn [rbind].
  unfold gold_of. cbn [fst]. rewrite Hidx. cbn [rbind].
  split; [done|]. split; [done|].
  destruct (index_actions_Ok_inv _ _ _ Hidx) as (_ & Hfield & Hgold).
  split; [done|]. split.
  - intros Hne. destruct (Hgold Hne) as [Hbound Hdec].
    pose proof (decode_index_in_catalog _ _ Hfield Hbound) as Hcat.
    unfold rules_of in Hcat. cbn [field_list] in Hcat, Hbound.
    rewrite Hrules in Hcat.
    assert (length fl = length all_actions) as Hlen
      by (by rewrite <- Hrules, length_fmap).
    rewrite Hlen in Hbound. split; [done|]. split; [|done].
    by rewrite Hcat.
  - intros ->. by injection Hidx as <-.
Qed.

Lemma derivation_is_indexed_sample :
  ∃ production_rule_fields index_fields,
    outcome (text_to_instance
               (sample_reader false
                  (constant_world (Some ["A -> B"; "B -> d"]) sample_rules))
               ["show"; "me"] [] [] None (Some ["SELECT"]) (Some [(0, 2)]))
    = Ok (Some (assembled
                  (sample_reader false
                     (constant_world (Some ["A -> B"; "B -> d"])
                        sample_rules))
                  ["show"; "me"] [(0, 2)] production_rule_fields
                  index_fields))
    ∧ rule <$> production_rule_fields = sample_rules
    ∧ Forall (λ f, sequence_field f = Build_ListField production_rule_fields)
        index_fields
    ∧ (["A -> B"; "B -> d"] ≠ [] →
       Forall (λ f, 0 ≤ sequence_index f < Z.of_nat (length sample_rules))
         index_fields
       ∧ (λ f, sample_rules !! Z.to_nat (sequence_index f)) <$> index_fields
         = Some <$> ["A -> B"; "B -> d"]
       ∧ decode_index <$> index_fields = Some <$> ["A -> B"; "B -> d"])
    ∧ (["A -> B"; "B -> d"] = [] →
       index_fields
       = [ {| sequence_index := -1;
              sequence_field := Build_ListField production_rule_fields |} ]).
Proof.
  apply derivation_is_indexed.
  - reflexivity.
  - exact sample_rules_have_one_arrow.
  - apply Forall_forall. apply (bool_decide_unpack _). vm_compute. exact I.
Defined.

(** X6. An instance that [text_to_instance] returns has exactly the four
    fields [tokens], [spans], [valid_actions] and [action_sequence]; its
    tokens are the answer of the tokenizer to the query joined by single
    spaces; its indexed sequence is not empty and every entry of it refers
    to the catalog of this very instance. *)
Theorem instance_has_four_fields self query derived_cols derived_tables
    prelinked_entities sql spans instance :
  outcome (text_to_instance self query derived_cols derived_tables
             prelinked_entities sql spans) = Ok (Some instance) →
  dom (fields instance)
  = ({[ "tokens"; "spans"; "valid_actions"; "action_sequence" ]}
       : gset string)
  ∧ fields instance !! "tokens"
    = Some (FieldText
              (tokens_field self
                 (tokenize (_token_tokenizer self) (PyStr.join " " query))))
  ∧ ∃ valid_actions_field index_fields,
      fields instance !! "valid_actions"
      = Some (FieldRules valid_actions_field)
      ∧ fields instance !! "action_sequence"
        = Some (FieldIndices (Build_ListField index_fields))
      ∧ index_fields ≠ []
      ∧ Forall (λ f, sequence_field f = valid_actions_field) index_fields.
Proof.
  intros (spans' & sql' & fl & idx & -> & -> & _ & _ & Hidx & ->)
    %text_to_instance_returns.
  unfold assembled, fields_before_world. cbn [fields]. split; [|split].
  - rewrite !dom_insert_L, dom_empty_L. apply set_eq. intros k.
    rewrite !elem_of_union, !elem_of_singleton, elem_of_empty. tauto.
  - by rewrite !lookup_insert_ne, lookup_insert_eq by done.
  - exists (Build_ListField fl), idx.
    split; [by rewrite lookup_insert_ne, lookup_insert_eq by done|].
    split; [by rewrite lookup_insert_eq|].
    destruct (index_actions_Ok_inv _ _ _ Hidx) as (Hlen & Hfield & _).
    split; [|done]. intros ->. cbn in Hlen. lia.
Qed.

Lemma instance_has_four_fields_sample :
  dom (fields sample_instance)
  = ({[ "tokens"; "spans"; "valid_actions"; "action_sequence" ]}
       : gset string)
  ∧ fields sample_instance !! "tokens"
    = Some (FieldText
              (tokens_field sample_keeping_reader
                 (tokenize space_tokenizer (PyStr.join " " ["show"; "me"]))))
  ∧ ∃ valid_actions_field index_fields,
      fields sample_instance !! "valid_actions"
      = Some (FieldRules valid_actions_field)
      ∧ fields sample_instance !! "action_sequence"
        = Some (FieldIndices (Build_ListField index_fields))
      ∧ index_fields ≠ []
      ∧ Forall (λ f, sequence_field f = valid_actions_field) index_fields.
Proof.
  apply (instance_has_four_fields sample_keeping_reader
           ["show"; "me"] [] [] None (Some ["SELECT"]) (Some sample_spans)).
  vm_compute. reflexivity.
Defined.

(** X7. The [spans] field of a returned instance lists, each once, one
    span over the tokens of the instance for [(s, e-1)] of every input span
    [(s, e)] and one for [(i, i)] of every token position [i], and no
    other span; so it has at least one entry per token. *)
Theorem instance_spans_field self query derived_cols derived_tables
    prelinked_entities sql spans instance :
  outcome (text_to_instance self query derived_cols derived_tables
             prelinked_entities sql spans) = Ok (Some instance) →
  let text_field :=
    tokens_field self
      (tokenize (_token_tokenizer self) (PyStr.join " " query)) in
  let L := Z.of_nat (length (tokens text_field)) in
  ∃ spans' span_fields,
    spans = Some spans'
    ∧ fields instance !! "spans"
      = Some (FieldSpans (Build_ListField span_fields))
    ∧ NoDup span_fields
    ∧ (∀ f, f ∈ span_fields ↔
         span_sequence_field f = text_field
         ∧ ((∃ s e, (s, e) ∈ spans' ∧ span_start f = s ∧ span_end f = e - 1)
            ∨ (0 ≤ span_start f < L ∧ span_end f = span_start f)))
    ∧ (length (tokens text_field) ≤ length span_fields
       ≤ length spans' + length (tokens text_field))%nat.
Proof.
  intros (spans' & sql' & fl & idx & -> & -> & _ & _ & _ & ->)
    %text_to_instance_returns text_field L.
  exists spans'. eexists. split; [done|].
  unfold assembled, fields_before_world. cbn [fields].
  rewrite !lookup_insert_ne, lookup_insert_eq by done.
  fold text_field. unfold span_list_field. split; [reflexivity|].
  set (out := normalized_spans self query spans').
  set (mk := λ '(start, end_), {| span_start := start; span_end := end_;
                                   span_sequence_field := text_field |}).
  assert (Inj (=) (=) mk) as Hinj.
  { intros [s1 e1] [s2 e2]. unfold mk. by intros [= -> ->]. }
  split; [apply NoDup_fmap_2; [done|apply NoDup_elements]|]. split.
  - intros f. rewrite list_elem_of_fmap. split.
    + intros ([s e] & -> & Hin). apply elem_of_elements in Hin.
      unfold out, normalized_spans in Hin.
      apply fix_spans_coverage_elem in Hin. cbn. split; [done|].
      destruct Hin as [(s' & e' & Hin & [= -> ->])|(i & Hi & [= -> ->])].
      * left. by exists s', e'.
      * right. unfold L, text_field. cbn. lia.
    + intros [Htok Hin]. exists (span_start f, span_end f). split.
      * destruct f. cbn in *. by subst.
      * apply elem_of_elements. unfold out, normalized_spans.
        apply fix_spans_coverage_elem.
        destruct Hin as [(s & e & Hin & Hs & He)|[Hs He]].
        -- left. exists s, e. split; [done|]. by rewrite Hs, He.
        -- right. exists (span_start f). rewrite He.
           split; [|done]. unfold L, text_field in Hs. cbn in Hs. lia.
  - rewrite length_fmap. fold (size out).
    assert (_fix_spans_coverage (Some spans')
              (Z.of_nat (length (tokens text_field))) = Ok out) as Hout
      by done.
    pose proof (fix_spans_coverage_size_bounds _ _ _ Hout) as Hsize.
    by rewrite Nat2Z.id in Hsize.
Qed.

Lemma instance_spans_field_sample :
  let text_field :=
    tokens_field sample_keeping_reader
      (tokenize (_token_tokenizer sample_keeping_reader)
         (PyStr.join " " ["show"; "me"])) in
  let L := Z.of_nat (length (tokens text_field)) in
  ∃ spans' span_fields,
    Some sample_spans = Some spans'
    ∧ fields sample_instance !! "spans"
      = Some (FieldSpans (Build_ListField span_fields))
    ∧ NoDup span_fields
    ∧ (∀ f, f ∈ span_fields ↔
         span_sequence_field f = text_field
         ∧ ((∃ s e, (s, e) ∈ spans' ∧ span_start f = s ∧ span_end f = e - 1)
            ∨ (0 ≤ span_start f < L ∧ span_end f = span_start f)))
    ∧ (length (tokens text_field) ≤ length span_fields
       ≤ length spans' + length (tokens text_field))%nat.
Proof.
  apply (instance_spans_field sample_keeping_reader ["show"; "me"] [] []
           None (Some ["SELECT"]) (Some sample_spans)).
  vm_compute. reflexivity.
Defined.

Lemma catalog_loop_Raise_rule w all_actions e :
  outcome (mapM (production_rule_field w) all_actions) = Raise e →
  ∃ what r, e = ValueError what ∧ r ∈ all_actions ∧ ¬ has_one_arrow r.
Proof.
  induction all_actions as [|r all_actions IH]; [done|].
  rewrite catalog_loop_cons.
  destruct (unpack_nonterminal r) as [nt|e'] eqn:Hnt; cbn [rbind].
  - destruct (outcome (mapM (production_rule_field w) all_actions));
      [done|]. intros [= <-].
    destruct (IH eq_refl) as (what & r' & -> & Hr' & Hbad).
    exists what, r'. split; [done|]. split; [|done].
    by apply list_elem_of_further.
  - intros [= <-].
    apply unpack_nonterminal_Raise in Hnt as [[what ->] Hbad].
    exists what, r. split; [done|]. split; [apply list_elem_of_here|done].
Qed.

Lemma index_loop_Raise action_map valid_actions_field gold e :
  index_loop action_map valid_actions_field gold = Raise e →
  ∃ k, e = KeyError k ∧ k ∈ gold ∧ action_map !! k = None.
Proof.
  induction gold as [|a gold IH]; [done|]. rewrite index_loop_cons.
  destruct (getitem action_map a) as [i|e'] eqn:Ha; cbn [rbind].
  - destruct (index_loop action_map valid_actions_field gold); [done|].
    intros [= <-]. destruct (IH eq_refl) as (k & -> & Hk & Hnone).
    exists k. split; [done|]. split; [by apply list_elem_of_further|done].
  - intros [= <-]. apply getitem_Raise in Ha as [Hnone ->].
    exists a. split; [done|]. split; [apply list_elem_of_here|done].
Qed.

Lemma text_to_instance_raise_cases self query derived_cols derived_tables
    prelinked_entities sql spans e :
  outcome (text_to_instance self query derived_cols derived_tables
             prelinked_entities sql spans) = Raise e →
  (spans = None ∧ e = TypeError "'NoneType' object is not iterable")
  ∨ (is_Some spans ∧ sql = None ∧ e = UnboundLocalError "all_actions")
  ∨ (∃ sql',
       is_Some spans ∧ sql = Some sql'
       ∧ ((∃ what r,
             e = ValueError what
             ∧ r ∈ (world_answer self sql' derived_cols derived_tables
                      prelinked_entities).2
             ∧ ¬ has_one_arrow r)
          ∨ (∃ gold k,
               world_answer self sql' derived_cols derived_tables
                 prelinked_entities
               = (Some gold,
                  (world_answer self sql' derived_cols derived_tables
                     prelinked_entities).2)
               ∧ e = KeyError k ∧ k ∈ gold
               ∧ k ∉ (world_answer self sql' derived_cols derived_tables
                        prelinked_entities).2))).
Proof.
  destruct spans as [spans'|];
    [|rewrite text_to_instance_no_spans; intros [= <-]; by left].
  destruct sql as [sql'|];
    [|rewrite text_to_instance_with_spans; intros [= <-]; right; left; eauto].
  rewrite text_to_instance_full. cbn [outcome snd].
  set (answer := world_answer self sql' derived_cols derived_tables
                   prelinked_entities).
  destruct (bool_decide (answer.1 = None) && negb (_keep_if_unparsable self));
    [done|].
  rewrite build_instance_outcome. intros He. right. right.
  exists sql'. split; [by eexists|]. split; [done|].
  destruct (outcome (mapM (production_rule_field (_world self)) answer.2))
    as [fl|e'] eqn:Hfl; cbn [rbind] in He.
  - right. destruct (catalog_loop_Ok _ _ _ Hfl) as [_ Hrules].
    destruct (index_actions _ _ (gold_of answer)) as [idx|e'] eqn:Hidx;
      [done|].
    injection He as ->. unfold gold_of in Hidx.
    destruct answer as [[gold|] all] eqn:Hans; cbn [fst snd] in *; [|done].
    unfold index_actions in Hidx.
    destruct (index_loop _ _ gold) as [idx|e'] eqn:Hloop;
      [by destruct gold|].
    injection Hidx as ->.
    apply index_loop_Raise in Hloop as (k & -> & Hk & Hnone).
    exists gold, k. subst answer. rewrite Hans. cbn [snd].
    split; [done|]. split; [done|]. split; [done|].
    intros Hin. apply eq_None_not_Some in Hnone. apply Hnone.
    apply action_map_of_is_Some. unfold rules_of. cbn [field_list].
    by rewrite Hrules.
  - left. injection He as ->. by apply catalog_loop_Raise_rule in Hfl.
Qed.

Lemma catalog_loop_Ok_one_arrow w all_actions production_rule_fields :
  outcome (mapM (production_rule_field w) all_actions)
    = Ok production_rule_fields →
  Forall has_one_arrow all_actions.
Proof.
  intros [Hentries _]%catalog_loop_Ok. apply Forall_forall. intros r Hr.
  assert (annotated_entry w r ∈ Some <$> production_rule_fields) as Hin.
  { rewrite Hentries. apply list_elem_of_fmap. by exists r. }
  apply list_elem_of_fmap in Hin as (f & Hf & _).
  unfold annotated_entry in Hf. unfold has_one_arrow.
  destruct (PyStr.split " ->" r) as [|nt [|rhs [|? ?]]]; try done.
  by exists nt, rhs.
Qed.

(** X8. The exceptions of [text_to_instance], the field classes of the
    data library being plain records. A call without spans raises
    [TypeError]. A call with spans and without an SQL query raises
    [UnboundLocalError] for [all_actions]. A call with both, which is not
    dropped as unparsable, raises [ValueError] when some rule of
    [all_actions] does not hold the marker exactly once; with rules that all
    do, it raises [KeyError] for a rule of the derivation that is not in
    [all_actions], when there is one. A call raises in no other case, and
    with no other exception. *)
Theorem text_to_instance_errors self query derived_cols derived_tables
    prelinked_entities sql spans :
  (∀ e,
     outcome (text_to_instance self query derived_cols derived_tables
                prelinked_entities sql spans) = Raise e →
     (spans = None ∧ e = TypeError "'NoneType' object is not iterable")
     ∨ (is_Some spans ∧ sql = None ∧ e = UnboundLocalError "all_actions")
     ∨ (∃ sql',
          is_Some spans ∧ sql = Some sql'
          ∧ ((∃ what r,
                e = ValueError what
                ∧ r ∈ (world_answer self sql' derived_cols derived_tables
                         prelinked_entities).2
                ∧ ¬ has_one_arrow r)
             ∨ (∃ gold k,
                  world_answer self sql' derived_cols derived_tables
                    prelinked_entities
                  = (Some gold,
                     (world_answer self sql' derived_cols derived_tables
                        prelinked_entities).2)
                  ∧ e = KeyError k ∧ k ∈ gold
                  ∧ k ∉ (world_answer self sql' derived_cols derived_tables
                           prelinked_entities).2))))
  ∧ (spans = None →
     outcome (text_to_instance self query derived_cols derived_tables
                prelinked_entities sql spans)
     = Raise (TypeError "'NoneType' object is not iterable"))
  ∧ (is_Some spans → sql = None →
     outcome (text_to_instance self query derived_cols derived_tables
                prelinked_entities sql spans)
     = Raise (UnboundLocalError "all_actions"))
  ∧ (∀ sql' gold all_actions,
       is_Some spans → sql = Some sql' →
       world_answer self sql' derived_cols derived_tables prelinked_entities
       = (gold, all_actions) →
       ¬ (gold = None ∧ _keep_if_unparsable self = false) →
       (¬ Forall has_one_arrow all_actions →
        ∃ what,
          outcome (text_to_instance self query derived_cols derived_tables
                     prelinked_entities sql spans)
          = Raise (ValueError what))
       ∧ (Forall has_one_arrow all_actions →
          (∃ a, a ∈ default [] gold ∧ a ∉ all_actions) →
          ∃ k,
            outcome (text_to_instance self query derived_cols derived_tables
                       prelinked_entities sql spans)
            = Raise (KeyError k)
            ∧ k ∈ default [] gold ∧ k ∉ all_actions)
       ∧ (Forall has_one_arrow all_actions →
          (∀ a, a ∈ default [] gold → a ∈ all_actions) →
          ∃ instance,
            outcome (text_to_instance self query derived_cols derived_tables
                       prelinked_entities sql spans)
            = Ok (Some instance)))
  ∧ (∀ sql' all_actions,
       is_Some spans → sql = Some sql' →
       world_answer self sql' derived_cols derived_tables prelinked_entities
       = (None, all_actions) →
       _keep_if_unparsable self = false →
       outcome (text_to_instance self query derived_cols derived_tables
                  prelinked_entities sql spans) = Ok None).
Proof.
  split; [intros e; apply text_to_instance_raise_cases|].
  split; [intros ->; by rewrite text_to_instance_no_spans|].
  split; [intros [spans' ->] ->; by rewrite text_to_instance_with_spans|].
  split.
  - intros sql' gold all_actions [spans' ->] -> Hans Hkept.
    rewrite text_to_instance_full, Hans. cbn [outcome fst snd].
    assert (bool_decide (gold = None) && negb (_keep_if_unparsable self)
            = false) as ->.
    { destruct gold as [g|]; [by rewrite bool_decide_eq_false_2|].
      rewrite bool_decide_eq_true_2 by done.
      destruct (_keep_if_unparsable self); [done|]. by destruct Hkept. }
    rewrite build_instance_outcome.
    assert (gold_of (gold, all_actions) = default [] gold) as ->
      by by destruct gold.
    split; [|split].
    + intros Hbad.
      destruct (outcome (mapM (production_rule_field (_world self))
                           all_actions)) as [fl|e] eqn:Hfl.
      * by apply catalog_loop_Ok_one_arrow in Hfl.
      * apply catalog_loop_Raise in Hfl as [what ->]. by exists what.
    + intros Hwf Hmiss.
      destruct (catalog_loop_total (_world self) all_actions Hwf)
        as [fl Hfl].
      rewrite Hfl. cbn [rbind].
      destruct (catalog_loop_Ok _ _ _ Hfl) as [_ Hrules].
      destruct (index_actions_missing (Build_ListField fl) (default [] gold))
        as (k & -> & Hk & Hknot).
      { unfold rules_of. cbn [field_list]. by rewrite Hrules. }
      unfold rules_of in Hknot. cbn [field_list] in Hknot.
      rewrite Hrules in Hknot. by exists k.
    + intros Hwf Hin.
      destruct (catalog_loop_total (_world self) all_actions Hwf)
        as [fl Hfl].
      rewrite Hfl. cbn [rbind].
      destruct (catalog_loop_Ok _ _ _ Hfl) as [_ Hrules].
      destruct (index_actions_total (Build_ListField fl) (default [] gold))
        as [idx ->]; [|by eexists].
      unfold rules_of. cbn [field_list]. by rewrite Hrules.
  - intros sql' all_actions [spans' ->] -> Hans Hkeep.
    rewrite text_to_instance_full, Hans. cbn [outcome fst snd].
    by rewrite bool_decide_eq_true_2, Hkeep by done.
Qed.

Lemma text_to_instance_errors_sample :
  (∃ what,
     outcome (text_to_instance sample_misruled_reader ["show"; "me"] [] []
                None (Some ["SELECT"]) (Some sample_spans))
     = Raise (ValueError what))
  ∧ outcome (text_to_instance sample_misruled_reader ["show"; "me"] [] []
               None (Some ["SELECT"]) None)
    = Raise (TypeError "'NoneType' object is not iterable")
  ∧ outcome (text_to_instance sample_misruled_reader ["show"; "me"] [] []
               None None (Some sample_spans))
    = Raise (UnboundLocalError "all_actions")
  ∧ ∃ k,
      outcome (text_to_instance
                 (sample_reader false
                    (constant_world (Some ["A -> B"; "C -> e"]) sample_rules))
                 ["show"; "me"] [] [] None (Some ["SELECT"])
                 (Some sample_spans))
      = Raise (KeyError k)
      ∧ k ∈ default [] (Some ["A -> B"; "C -> e"]) ∧ k ∉ sample_rules.
Proof.
  split; [|split; [|split]].
  - apply (proj1 (proj1 (proj2 (proj2 (proj2
             (text_to_instance_errors sample_misruled_reader ["show"; "me"]
                [] [] None (Some ["SELECT"]) (Some sample_spans)))))
             ["SELECT"] None ["A -> B -> C"] ltac:(by eexists) eq_refl eq_refl
             ltac:(by intros [_ ?]))).
    intros Hwf. apply Forall_singleton in Hwf as (nt & rhs & Hsplit).
    vm_compute in Hsplit. discriminate.
  - by apply (text_to_instance_errors sample_misruled_reader ["show"; "me"]
                [] [] None (Some ["SELECT"]) None).
  - apply (proj1 (proj2 (proj2
             (text_to_instance_errors sample_misruled_reader ["show"; "me"]
                [] [] None None (Some sample_spans)))));
      [by eexists|done].
  - apply (proj1 (proj2 (proj1 (proj2 (proj2 (proj2
             (text_to_instance_errors
                (sample_reader false
                   (constant_world (Some ["A -> B"; "C -> e"]) sample_rules))
                ["show"; "me"] [] [] None (Some ["SELECT"])
                (Some sample_spans)))))
             ["SELECT"] (Some ["A -> B"; "C -> e"]) sample_rules
             ltac:(by eexists) eq_refl eq_refl ltac:(by intros [? _])))).
    + exact sample_rules_have_one_arrow.
    + exists "C -> e".
      split; apply (bool_decide_unpack _); vm_compute; exact I.
Defined.

Lemma catalog_loop_trace_Ok w all_actions production_rule_fields :
  outcome (mapM (production_rule_field w) all_actions)
    = Ok production_rule_fields →
  trace (mapM (production_rule_field w) all_actions)
  = (λ f, IsGlobalRule (nonterminal f) (is_global f))
      <$> production_rule_fields.
Proof.
  revert production_rule_fields.
  induction all_actions as [|r all_actions IH]; intros fl.
  - cbn. by intros [= <-].
  - rewrite catalog_loop_cons. cbn [mapM].
    rewrite trace_bind, production_rule_field_eq.
    destruct (unpack_nonterminal r) as [nt|]; [|done].
    cbn [rbind trace outcome fst snd]. rewrite trace_bind.
    destruct (outcome (mapM (production_rule_field w) all_actions))
      as [rest|]; [|done].
    cbn [rbind ret trace fst]. intros [= <-].
    rewrite (IH rest eq_refl). cbn. by rewrite app_nil_r.
Qed.

Lemma catalog_loop_trace_filters w all_actions :
  List.filter is_tokenize (trace (mapM (production_rule_field w) all_actions))
  = []
  ∧ List.filter is_world_query
      (trace (mapM (production_rule_field w) all_actions)) = []
  ∧ ∀ line,
      Print line ∉ trace (mapM (production_rule_field w) all_actions).
Proof.
  pose proof (catalog_loop_trace w all_actions) as Hall.
  induction (trace (mapM (production_rule_field w) all_actions))
    as [|ev log IH]; [by split; [|split; [|intros ? ?%elem_of_nil]]|].
  destruct (Hall ev) as (nt & b & ->); [apply list_elem_of_here|].
  destruct IH as (IH1 & IH2 & IH3).
  { intros ev' Hev'. apply Hall. by apply list_elem_of_further. }
  cbn. split; [done|]. split; [done|].
  intros line [[=]|Hin]%elem_of_cons. by apply (IH3 line).
Qed.

(** X9. The collaborators a call of [text_to_instance] talks to. The
    tokenizer is asked once, first. The grammar world is asked for a
    derivation once if the call has spans and an SQL query, with the
    arguments of the call, and not at all otherwise. The only line printed
    is ["Parse error"], and it is printed exactly when the world has no
    derivation and [keep_if_unparsable] is on. When an instance is
    returned, [is_global_rule] was asked once per entry of its catalog, in
    catalog order, about the nonterminal of the entry. *)
Theorem call_protocol self query derived_cols derived_tables
    prelinked_entities sql spans :
  head (trace (text_to_instance self query derived_cols derived_tables
                 prelinked_entities sql spans))
  = Some (Tokenize (PyStr.join " " query)
            (tokenize (_token_tokenizer self) (PyStr.join " " query)))
  ∧ List.filter is_tokenize
      (trace (text_to_instance self query derived_cols derived_tables
                prelinked_entities sql spans))
    = [Tokenize (PyStr.join " " query)
         (tokenize (_token_tokenizer self) (PyStr.join " " query))]
  ∧ List.filter is_world_query
      (trace (text_to_instance self query derived_cols derived_tables
                prelinked_entities sql spans))
    = match spans, sql with
      | Some _, Some sql' =>
          [WorldQuery sql' derived_cols derived_tables prelinked_entities
             (world_answer self sql' derived_cols derived_tables
                prelinked_entities)]
      | _, _ => []
      end
  ∧ (∀ line,
       Print line
         ∈ trace (text_to_instance self query derived_cols derived_tables
                    prelinked_entities sql spans)
       ↔ line = "Parse error" ∧ is_Some spans
         ∧ ∃ sql', sql = Some sql'
                   ∧ (world_answer self sql' derived_cols derived_tables
                        prelinked_entities).1 = None
                   ∧ _keep_if_unparsable self = true)
  ∧ (∀ instance,
       outcome (text_to_instance self query derived_cols derived_tables
                  prelinked_entities sql spans) = Ok (Some instance) →
       ∃ valid_actions_field,
         fields instance !! "valid_actions"
         = Some (FieldRules valid_actions_field)
         ∧ global_rule_questions
             (trace (text_to_instance self query derived_cols derived_tables
                       prelinked_entities sql spans))
           = (λ f, (nonterminal f, is_global f))
               <$> field_list valid_actions_field).
Proof.
  destruct spans as [spans'|].
  2: { rewrite text_to_instance_no_spans. cbn [trace outcome fst snd].
       split; [done|]. split; [done|]. split; [done|]. split; [|done].
       intros line. split.
       - intros [[=]|[]%elem_of_nil]%elem_of_cons.
       - by intros (_ & [? [=]] & _). }
  destruct sql as [sql'|].
  2: { rewrite text_to_instance_with_spans. cbn [trace outcome fst snd].
       split; [done|]. split; [done|]. split; [done|]. split; [|done].
       intros line. split.
       - intros [[=]|[]%elem_of_nil]%elem_of_cons.
       - by intros (_ & _ & ? & [=] & _). }
  rewrite text_to_instance_full. cbn [trace outcome fst snd].
  set (answer := world_answer self sql' derived_cols derived_tables
                   prelinked_entities).
  destruct (catalog_loop_trace_filters (_world self) answer.2)
    as (Htok & Hworld & Hprint).
  set (T := trace (mapM (production_rule_field (_world self)) answer.2))
    in *.
  destruct answer.1 as [gold|] eqn:Hgold.
  - rewrite bool_decide_eq_false_2 by done. cbn [andb app head List.filter
      is_tokenize is_world_query]. rewrite Htok, Hworld.
    split; [done|]. split; [done|]. split; [done|]. split.
    + intros line. split.
      * intros [[=]|[[=]|Hin]%elem_of_cons]%elem_of_cons.
        by apply Hprint in Hin.
      * intros (_ & _ & ? & [= <-] & Hn & _).
        change (answer.1 = None) in Hn. congruence.
    + rewrite build_instance_outcome. intros instance Hinst.
      destruct (outcome (mapM (production_rule_field (_world self))
                           answer.2)) as [fl|] eqn:Hfl; [|done].
      cbn [rbind] in Hinst.
      destruct (index_actions _ _ (gold_of answer)) as [idx|]; [|done].
      injection Hinst as <-. exists (Build_ListField fl). cbn [fields].
      split; [by rewrite lookup_insert_ne, lookup_insert_eq by done|].
      subst T. rewrite (catalog_loop_trace_Ok _ _ _ Hfl).
      cbn [global_rule_questions omap list_omap field_list].
      clear. induction fl as [|f fl IH]; [done|]. cbn. by rewrite IH.
  - rewrite bool_decide_eq_true_2 by done. cbn [andb].
    destruct (_keep_if_unparsable self) eqn:Hkeep; cbn [negb].
    + cbn [app head List.filter is_tokenize is_world_query].
      rewrite Htok, Hworld.
      split; [done|]. split; [done|]. split; [done|]. split.
      * intros line. split.
        -- intros [[=]|[[=]|[[= <-]|Hin]%elem_of_cons]%elem_of_cons]
             %elem_of_cons.
           ++ split; [done|]. split; [by eexists|]. by exists sql'.
           ++ by apply Hprint in Hin.
        -- intros (-> & _). do 2 apply list_elem_of_further.
           apply list_elem_of_here.
      * rewrite build_instance_outcome. intros instance Hinst.
        destruct (outcome (mapM (production_rule_field (_world self))
                             answer.2)) as [fl|] eqn:Hfl; [|done].
        cbn [rbind] in Hinst.
        destruct (index_actions _ _ (gold_of answer)) as [idx|]; [|done].
        injection Hinst as <-. exists (Build_ListField fl). cbn [fields].
        split; [by rewrite lookup_insert_ne, lookup_insert_eq by done|].
        subst T. rewrite (catalog_loop_trace_Ok _ _ _ Hfl).
        cbn [global_rule_questions omap list_omap field_list].
        clear. induction fl as [|f fl IH]; [done|]. cbn. by rewrite IH.
    + cbn [head List.filter is_tokenize is_world_query].
      split; [done|]. split; [done|]. split; [done|]. split; [|done].
      intros line. split.
      * by intros [[=]|[[=]|[]%elem_of_nil]%elem_of_cons]%elem_of_cons.
      * by intros (_ & _ & ? & [= <-] & _ & ?).
Qed.

Lemma call_protocol_sample :
  ∃ valid_actions_field,
    fields sample_instance !! "valid_actions"
    = Some (FieldRules valid_actions_field)
    ∧ global_rule_questions
        (trace (text_to_instance sample_keeping_reader ["show"; "me"] [] []
                  None (Some ["SELECT"]) (Some sample_spans)))
      = (λ f, (nonterminal f, is_global f))
          <$> field_list valid_actions_field.
Proof.
  apply (call_protocol sample_keeping_reader ["show"; "me"] [] [] None
           (Some ["SELECT"]) (Some sample_spans)).
  vm_compute. reflexivity.
Defined.

(** ** The constructor, continued *)

(** X10. A reader that [__init__] returns was asked for with entity
    pre-linking on and has it on; its token indexers are the ones given, or
    the single indexer [tokens] when none or an empty dict was given, so
    they are never empty; its schema is what the schema reader returned for
    the schema path, and its world was built from the schema path, the
    cursor of the reader, pre-linking on and the untyped-entities flag. *)
Theorem init_result WhitespaceTokenizer cached_path sqlite3_connect
    read_dataset_schema Text2SqlWorld_init (a : Args.t) (self : Reader) :
  __init__ WhitespaceTokenizer cached_path sqlite3_connect
    read_dataset_schema Text2SqlWorld_init a = Ok self →
  Args.use_prelinked_entities a = true
  ∧ _use_prelinked_entities self = true
  ∧ _token_tokenizer self = WhitespaceTokenizer
  ∧ _token_indexers self ≠ ∅
  ∧ (∀ d, Args.token_indexers a = Some d → d ≠ ∅ → _token_indexers self = d)
  ∧ (Args.token_indexers a = None ∨ Args.token_indexers a = Some ∅ →
     _token_indexers self = {[ "tokens" := SingleIdTokenIndexer ]})
  ∧ read_dataset_schema (Args.schema_path a) = Ok (_schema self)
  ∧ Text2SqlWorld_init (Args.schema_path a) (_cursor self) true
      (Args.use_untyped_entities a) = Ok (_world self)
  ∧ _keep_if_unparsable self = Args.keep_if_unparsable a
  ∧ _loading_limit self = Args.loading_limit a
  ∧ _load_cache self = Args.load_cache a
  ∧ _save_cache self = Args.save_cache a.
Proof.
  unfold __init__.
  destruct (Args.use_prelinked_entities a) eqn:Hpre; [|done]. cbn [negb].
  destruct (open_cursor cached_path sqlite3_connect (Args.database_file a))
    as [cursor|]; [|done]. cbn [rbind].
  destruct (read_dataset_schema (Args.schema_path a)) as [schema|]; [|done].
  cbn [rbind].
  destruct (Text2SqlWorld_init _ cursor true _) as [world|] eqn:Hworld;
    [|done].
  cbn [rbind]. intros [= <-]. cbn.
  split; [done|]. split; [done|]. split; [done|]. split; [|split; [|split]].
  - destruct (Args.token_indexers a) as [d|];
      [destruct (decide (d = ∅))|]; try done;
      by apply insert_non_empty.
  - intros d -> Hd. by rewrite decide_False.
  - intros [->| ->]; [done|]. by rewrite decide_True.
  - done.
Qed.

(** X11. The database of the constructor. Without a database file, or
    with the empty string, nothing is opened and the reader has no cursor.
    A file that cannot be found is not an error either: the reader is
    built without a cursor. Any other failure to open the database ends
    the construction with that exception, before the schema is read. *)
Theorem init_database WhitespaceTokenizer cached_path sqlite3_connect
    read_dataset_schema Text2SqlWorld_init (a : Args.t) :
  Args.use_prelinked_entities a = true →
  (∀ self,
     __init__ WhitespaceTokenizer cached_path sqlite3_connect
       read_dataset_schema Text2SqlWorld_init a = Ok self →
     _cursor self
     = match Args.database_file a with
       | None => None
       | Some file =>
           if decide (file = "") then None
           else match rbind (cached_path file) sqlite3_connect with
                | Ok cursor => Some cursor
                | Raise _ => None
                end
       end)
  ∧ (∀ file e,
       Args.database_file a = Some file → file ≠ "" →
       rbind (cached_path file) sqlite3_connect = Raise e →
       e ≠ FileNotFoundError →
       __init__ WhitespaceTokenizer cached_path sqlite3_connect
         read_dataset_schema Text2SqlWorld_init a = Raise e)
  ∧ (∀ file schema world,
       Args.database_file a = Some file →
       rbind (cached_path file) sqlite3_connect = Raise FileNotFoundError →
       read_dataset_schema (Args.schema_path a) = Ok schema →
       Text2SqlWorld_init (Args.schema_path a) None true
         (Args.use_untyped_entities a) = Ok world →
       ∃ self,
         __init__ WhitespaceTokenizer cached_path sqlite3_connect
           read_dataset_schema Text2SqlWorld_init a = Ok self
         ∧ _cursor self = None ∧ _world self = world).
Proof.
  intros Hpre. unfold __init__. rewrite Hpre. cbn [negb].
  split; [|split].
  - intros self.
    destruct (Args.database_file a) as [[|c file]|]; cbn [open_cursor rbind].
    + destruct (read_dataset_schema _); [|done]. cbn [rbind].
      destruct (Text2SqlWorld_init _ _ _ _); [|done]. by intros [= <-].
    + rewrite decide_False by done.
      destruct (rbind (cached_path (String c file)) sqlite3_connect)
        as [cursor|[]]; try done; cbn [rbind];
        (destruct (read_dataset_schema _); [|done]); cbn [rbind];
        (destruct (Text2SqlWorld_init _ _ _ _); [|done]); by intros [= <-].
    + destruct (read_dataset_schema _); [|done]. cbn [rbind].
      destruct (Text2SqlWorld_init _ _ _ _); [|done]. by intros [= <-].
  - intros file e -> Hfile He Hne. destruct file as [|c file]; [done|].
    cbn [open_cursor]. rewrite He. by destruct e.
  - intros file schema world -> He Hschema Hworld.
    destruct file as [|c file]; cbn [open_cursor]; [|rewrite He];
      cbn [rbind]; rewrite Hschema; cbn [rbind]; rewrite Hworld;
      by eexists.
Qed.

Lemma init_result_sample :
  ∃ self,
    __init__ space_tokenizer missing_file sample_connect empty_schema
      sample_world_init sample_args = Ok self
    ∧ _use_prelinked_entities self = true
    ∧ _token_indexers self = {[ "tokens" := SingleIdTokenIndexer ]}.
Proof.
  eexists. split; [vm_compute; reflexivity|].
  match goal with
  | |- _use_prelinked_entities ?self = _ ∧ _ =>
      destruct (init_result space_tokenizer missing_file sample_connect
                  empty_schema sample_world_init sample_args self)
        as (_ & Hpre & _ & _ & _ & Hdefault & _)
  end.
  - vm_compute. reflexivity.
  - split; [exact Hpre|]. apply Hdefault. by right.
Defined.

Lemma init_database_sample :
  __init__ space_tokenizer locked_file sample_connect empty_schema
    sample_world_init sample_args = Raise (OtherError "PermissionError")
  ∧ ∃ self,
      __init__ space_tokenizer missing_file sample_connect empty_schema
        sample_world_init sample_args = Ok self
      ∧ _cursor self = None
      ∧ _world self = constant_world None sample_rules.
Proof.
  split.
  - apply (proj1 (proj2 (init_database space_tokenizer locked_file
                            sample_connect empty_schema sample_world_init
                            sample_args eq_refl)) "atis.db");
      done.
  - eapply (proj2 (proj2 (init_database space_tokenizer missing_file
                             sample_connect empty_schema sample_world_init
                             sample_args eq_refl)) "atis.db");
      reflexivity.
Defined.

(** ** [read_json_dict], continued *)

(** X12. [read_json_dict] never returns an instance. It returns [None]
    exactly when the three keys are there, the variables parse, and
    [process_sql_data] yields no record at all; in every other case it
    raises. *)
Theorem read_json_dict_never_an_instance json_loads process_sql_data self
    json_dict :
  (∀ instance,
     outcome (read_json_dict json_loads process_sql_data self json_dict)
     ≠ Ok (Some instance))
  ∧ (outcome (read_json_dict json_loads process_sql_data self json_dict)
     = Ok None
     ↔ ∃ variables text_vars question sql,
         json_dict !! "variables" = Some variables
         ∧ json_loads (replace_char "'" "034" variables) = Ok text_vars
         ∧ json_dict !! "question" = Some question
         ∧ json_dict !! "sql" = Some sql
         ∧ process_sql_data (single_record question sql text_vars)
             (_use_all_sql self) (_remove_unneeded_aliases self)
             (_schema self) (_use_all_queries self) = []).
Proof.
  unfold read_json_dict, json_getitem, single_record.
  destruct (json_dict !! "variables") as [variables|];
    [|split; [done|]; split; [done|by intros (? & ? & ? & ? & ? & _)]].
  cbn [lift bind].
  destruct (json_loads _) as [text_vars|] eqn:Hloads;
    [|split; [done|]; split; [done|]; intros (? & ? & ? & ? & [= <-] & ? & _);
      congruence].
  destruct (json_dict !! "question") as [question|];
    [|split; [done|]; split; [done|by intros (? & ? & ? & ? & ? & ? & ? & _)]].
  cbn [bind].
  destruct (json_dict !! "sql") as [sql|];
    [|split; [done|]; split;
      [done|by intros (? & ? & ? & ? & ? & ? & ? & ? & _)]].
  cbn [bind].
  destruct (process_sql_data _ _ _ _ _) as [|[sql_data|e] rest] eqn:Hp.
  - split; [done|]. split; [|done]. intros _.
    exists variables, text_vars, question, sql. by rewrite Hloads.
  - rewrite text_to_instance_no_spans. cbn [outcome snd].
    split; [done|]. split; [done|].
    intros (? & ? & ? & ? & [= <-] & Hl & [= <-] & [= <-] & Hnil).
    rewrite Hloads in Hl. injection Hl as <-. congruence.
  - cbn [outcome snd raise]. split; [done|]. split; [done|].
    intros (? & ? & ? & ? & [= <-] & Hl & [= <-] & [= <-] & Hnil).
    rewrite Hloads in Hl. injection Hl as <-. congruence.
Qed.

(** ** [_read] *)

Lemma gbind_events {A B} (m : G A) (k : A → G B) :
  events (gbind m k)
  = (events m ++ match ending m with
                 | Ok a => events (k a)
                 | Raise _ => []
                 end)%list.
Proof.
  destruct m as [log [a|e]]; cbn; [by destruct (k a)|].
  by rewrite app_nil_r.
Qed.

Lemma gbind_ending {A B} (m : G A) (k : A → G B) :
  ending (gbind m k) = rbind (ending m) (λ a, ending (k a)).
Proof. destruct m as [log [a|e]]; cbn; [|done]. by destruct (k a). Qed.

Lemma yielded_app log1 log2 :
  yielded (log1 ++ log2) = (yielded log1 ++ yielded log2)%list.
Proof. apply omap_app. Qed.

Lemma yielded_call (log : list event) : yielded (Call <$> log) = [].
Proof. induction log as [|ev log IH]; [done|]. by cbn. Qed.

(** One record: how [cnt] moves and what is yielded. *)
Lemma record_body_count host self cache_dir sql_data total_cnt cnt :
  match ending (record_body host self cache_dir sql_data total_cnt cnt) with
  | Ok (Some cnt') =>
      _loading_limit self ≠ cnt
      ∧ cnt' = cnt + Z.of_nat (length (yielded (events (record_body host
                 self cache_dir sql_data total_cnt cnt))))
      ∧ (length (yielded (events (record_body host self cache_dir sql_data
                                    total_cnt cnt))) ≤ 1)%nat
  | Ok None =>
      _loading_limit self = cnt
      ∧ events (record_body host self cache_dir sql_data total_cnt cnt) = []
  | Raise _ =>
      _loading_limit self ≠ cnt
      ∧ yielded (events (record_body host self cache_dir sql_data total_cnt
                           cnt)) = []
  end.
Proof.
  unfold record_body. cbv zeta.
  destruct (decide (_loading_limit self = cnt)) as [Hlim|Hlim]; [done|].
  destruct (_load_cache self).
  - destruct (dill_load host _) as [instance|]; cbn;
      (split; [done|]); split; lia.
  - unfold call.
    destruct (text_to_instance self _ _ _ _ _ _) as [log [[instance|]|e]];
      cbn -[yielded].
    + destruct (_save_cache self); cbn -[yielded];
        [destruct (dill_dump host _ instance)|];
        cbn -[yielded];
        rewrite ?app_nil_r, ?yielded_app, ?yielded_call; cbn;
        (split; [done|]); try split; try done; lia.
    + rewrite ?app_nil_r, ?yielded_call. cbn. split; [done|]. split; lia.
    + by rewrite ?yielded_call.
Qed.

Lemma read_records_count host self cache_dir records total_cnt cnt :
  (∀ cnt',
     ending (read_records host self cache_dir records total_cnt cnt)
       = Ok cnt' →
     cnt' = cnt + Z.of_nat (length (yielded (events (read_records host self
                                       cache_dir records total_cnt cnt)))))
  ∧ (cnt ≤ _loading_limit self →
     cnt + Z.of_nat (length (yielded (events (read_records host self
                                cache_dir records total_cnt cnt))))
     ≤ _loading_limit self).
Proof.
  revert total_cnt cnt.
  induction records as [|[sql_data|e] records IH]; intros total_cnt cnt.
  - cbn. split; [intros ? [= <-]|]; lia.
  - cbn [read_records]. rewrite gbind_events, gbind_ending.
    pose proof (record_body_count host self cache_dir sql_data
                  (total_cnt + 1) cnt) as Hbody.
    destruct (ending (record_body host self cache_dir sql_data
                        (total_cnt + 1) cnt)) as [[cnt1|]|e].
    + destruct Hbody as (Hlim & -> & Hone). cbn [rbind].
      rewrite yielded_app, length_app.
      destruct (IH (total_cnt + 1)
                  (cnt + Z.of_nat (length (yielded (events (record_body host
                     self cache_dir sql_data (total_cnt + 1) cnt))))))
        as [IH1 IH2].
      split.
      * intros cnt' Hend. apply IH1 in Hend. lia.
      * intros Hle. lia.
    + destruct Hbody as [Hlim ->]. cbn. split; [intros ? [= <-]|]; lia.
    + destruct Hbody as [Hlim Hnone]. cbn [rbind].
      rewrite app_nil_r, Hnone. cbn. split; [done|lia].
  - cbn. split; [done|lia].
Qed.

Lemma read_files_cons host self cache_dir path files cnt :
  read_files host self cache_dir (path :: files) cnt
  = match load_json host path with
    | Ok data =>
        let records :=
          read_records host self cache_dir
            (process_sql_data_with_spans host data (_use_all_sql self)
               (_remove_unneeded_aliases self) (_schema self)
               (_use_all_queries self)) (-1) cnt in
        match ending records with
        | Ok cnt1 =>
            (LoadJson path
               :: (events records
                     ++ events (read_files host self cache_dir files cnt1))%list,
             ending (read_files host self cache_dir files cnt1))
        | Raise e => (LoadJson path :: events records, Raise e)
        end
    | Raise e => ([LoadJson path], Raise e)
    end.
Proof.
  cbn [read_files]. unfold gbind at 1 2, gemit, glift.
  destruct (load_json host path) as [data|e]; [|done]. cbv zeta.
  destruct (read_records host self cache_dir _ (-1) cnt) as [log [cnt1|e]];
    cbn [gbind events ending fst snd app]; [|done].
  by destruct (read_files host self cache_dir files cnt1).
Qed.

Lemma read_files_count host self cache_dir files cnt :
  (∀ cnt',
     ending (read_files host self cache_dir files cnt) = Ok cnt' →
     cnt' = cnt + Z.of_nat (length (yielded (events (read_files host self
                                       cache_dir files cnt)))))
  ∧ (cnt ≤ _loading_limit self →
     cnt + Z.of_nat (length (yielded (events (read_files host self
                                cache_dir files cnt))))
     ≤ _loading_limit self).
Proof.
  revert cnt. induction files as [|path files IH]; intros cnt.
  - cbn. split; [intros ? [= <-]|]; lia.
  - rewrite read_files_cons.
    destruct (load_json host path) as [data|e];
      [|cbn; split; [done|lia]].
    cbv zeta.
    set (records := process_sql_data_with_spans host data _ _ _ _).
    destruct (read_records_count host self cache_dir records (-1) cnt)
      as [Hrec1 Hrec2].
    destruct (ending (read_records host self cache_dir records (-1) cnt))
      as [cnt1|e] eqn:Hend; cbn [events ending fst snd].
    + specialize (Hrec1 cnt1 eq_refl).
      destruct (IH cnt1) as [IH1 IH2].
      change (yielded (LoadJson path :: ?l)) with (yielded l).
      rewrite yielded_app, length_app. split.
      * intros cnt' Hend'. apply IH1 in Hend'. lia.
      * intros Hle. specialize (Hrec2 Hle). lia.
    + change (yielded (LoadJson path :: ?l)) with (yielded l).
      split; [done|]. intros Hle. by apply Hrec2.
Qed.

(** [_read], in terms of its loop over the files. *)
Lemma read_eq host self file_path :
  let self' := effective_reader host self file_path in
  let loop :=
    read_files host self' (cache_dir_of host file_path)
      (files_to_read host self file_path) 0 in
  _read host self file_path
  = if _save_cache self then
      match os_makedirs host (cache_dir_of host file_path) with
      | Ok _ =>
          ((read_prelude host self file_path ++ events loop)%list,
           rbind (ending loop) (λ _, Ok self'))
      | Raise e => (read_prelude host self file_path, Raise e)
      end
    else
      ((read_prelude host self file_path ++ events loop)%list,
       rbind (ending loop) (λ _, Ok self')).
Proof.
  unfold _read, effective_reader, read_prelude. cbv zeta.
  set (cache_dir := cache_dir_of host file_path).
  destruct (_load_cache self) eqn:Hload;
    [destruct (os_path_isdir host cache_dir)|];
    cbn [negb andb gbind gemit gret app];
    (destruct (_save_cache self) eqn:Hsave;
     [destruct (os_makedirs host cache_dir)|]);
    cbn [gbind gemit gret glift app set_load_cache _save_cache];
    rewrite ?Hsave; cbn [gbind gemit gret glift app];
    try done;
    match goal with
    | |- context [read_files ?h ?s ?d ?f ?c] =>
        change (files_to_read host s file_path)
          with (files_to_read host self file_path);
        destruct (read_files h s d (files_to_read host self file_path) c)
          as [log [cnt|e]]
    end; cbn; by rewrite ?app_nil_r.
Qed.

Lemma yielded_prelude host self file_path :
  yielded (read_prelude host self file_path) = [].
Proof.
  unfold read_prelude.
  by destruct (_load_cache self),
       (os_path_isdir host (cache_dir_of host file_path)),
       (_save_cache self).
Qed.

Lemma effective_reader_limit host self file_path :
  _loading_limit (effective_reader host self file_path) = _loading_limit self.
Proof. unfold effective_reader. by destruct (_ && _). Qed.

Lemma read_records_at_limit host self cache_dir records total_cnt cnt :
  _loading_limit self = cnt →
  events (read_records host self cache_dir records total_cnt cnt) = []
  ∧ ∀ cnt',
      ending (read_records host self cache_dir records total_cnt cnt)
        = Ok cnt' → cnt' = cnt.
Proof.
  intros Hlim. destruct records as [|[sql_data|e] records];
    [by split; [|intros ? [= <-]]| |done].
  cbn [read_records]. unfold record_body. cbv zeta.
  rewrite decide_True by done. cbn. by split; [|intros ? [= <-]].
Qed.

Lemma read_files_at_limit host self cache_dir files cnt :
  _loading_limit self = cnt →
  forallb is_bookkeeping (events (read_files host self cache_dir files cnt))
  = true.
Proof.
  intros Hlim. induction files as [|path files IH]; [done|].
  rewrite read_files_cons. destruct (load_json host path) as [data|]; [|done].
  cbv zeta.
  set (records := process_sql_data_with_spans host data _ _ _ _).
  destruct (read_records_at_limit host self cache_dir records (-1) cnt Hlim)
    as [Hev Hend].
  rewrite Hev.
  destruct (ending (read_records host self cache_dir records (-1) cnt))
    as [cnt1|]; [|done].
  rewrite (Hend cnt1 eq_refl). cbn [events fst app forallb is_bookkeeping].
  exact IH.
Qed.

(** X13. [_read] never yields more than [loading_limit] instances when
    the limit is not negative, whether they come from the cache or from
    [text_to_instance]; with the limit [0] it yields nothing and touches no
    record: it only logs, makes the cache directory and opens the data
    files. *)
Theorem loading_limit_is_respected host self file_path :
  0 ≤ _loading_limit self →
  Z.of_nat (length (yielded (events (_read host self file_path))))
  ≤ _loading_limit self
  ∧ (_loading_limit self = 0 →
     forallb is_bookkeeping (events (_read host self file_path)) = true).
Proof.
  intros Hlim. rewrite read_eq. cbv zeta.
  set (self' := effective_reader host self file_path).
  assert (_loading_limit self' = _loading_limit self) as Hlim'
    by apply effective_reader_limit.
  destruct (read_files_count host self' (cache_dir_of host file_path)
              (files_to_read host self file_path) 0) as [_ Hcount].
  rewrite Hlim' in Hcount. specialize (Hcount Hlim).
  assert (forallb is_bookkeeping (read_prelude host self file_path) = true)
    as Hpre.
  { unfold read_prelude.
    by destruct (_load_cache self),
         (os_path_isdir host (cache_dir_of host file_path)),
         (_save_cache self). }
  assert (_loading_limit self = 0 →
          forallb is_bookkeeping
            (read_prelude host self file_path
               ++ events (read_files host self' (cache_dir_of host file_path)
                            (files_to_read host self file_path) 0)) = true)
    as Hzero.
  { intros H0. rewrite forallb_app, Hpre.
    apply read_files_at_limit. by rewrite Hlim'. }
  destruct (_save_cache self);
    [destruct (os_makedirs host (cache_dir_of host file_path))|];
    cbn [events fst];
    rewrite ?yielded_app, ?yielded_prelude, ?length_app; cbn [length app];
    (split; [lia|done]).
Qed.

Lemma loading_limit_is_respected_sample :
  Z.of_nat (length (yielded (events (_read sample_host
                                       (sample_reader_with_limit 1)
                                       "data/*.json"))))
  ≤ _loading_limit (sample_reader_with_limit 1)
  ∧ (_loading_limit (sample_reader_with_limit 1) = 0 →
     forallb is_bookkeeping
       (events (_read sample_host (sample_reader_with_limit 1)
                  "data/*.json")) = true).
Proof.
  apply (loading_limit_is_respected sample_host (sample_reader_with_limit 1)
           "data/*.json").
  vm_compute. discriminate.
Defined.

Lemma dumped_app log1 log2 :
  dumped (log1 ++ log2) = (dumped log1 ++ dumped log2)%list.
Proof. apply omap_app. Qed.

Lemma dumped_call (log : list event) : dumped (Call <$> log) = [].
Proof. induction log as [|ev log IH]; [done|]. by cbn. Qed.

(** One record when nothing is taken from the cache and the limit is not
    reached. *)
Lemma record_body_fresh host self cache_dir sql_data total_cnt cnt instance :
  _load_cache self = false →
  _loading_limit self ≠ cnt →
  instance_of self sql_data = Ok instance →
  (_save_cache self = true →
   ∀ i, dill_dump host (cache_filepath host cache_dir total_cnt) i = Ok tt) →
  ending (record_body host self cache_dir sql_data total_cnt cnt)
  = Ok (Some (cnt + match instance with Some _ => 1 | None => 0 end))
  ∧ yielded (events (record_body host self cache_dir sql_data total_cnt cnt))
    = match instance with Some i => [i] | None => [] end
  ∧ dumped (events (record_body host self cache_dir sql_data total_cnt cnt))
    = match instance with
      | Some i =>
          if _save_cache self
          then [(cache_filepath host cache_dir total_cnt, i)] else []
      | None => []
      end.
Proof.
  intros Hload Hlim Hinst Hdump. unfold record_body. cbv zeta.
  rewrite decide_False, Hload by done. unfold instance_of in Hinst.
  unfold call.
  destruct (text_to_instance self _ _ _ _ _ _) as [log r].
  cbn [outcome snd] in Hinst. subst r. cbn -[yielded dumped].
  destruct instance as [i|]; cbn -[yielded dumped].
  - destruct (_save_cache self) eqn:Hsave; cbn -[yielded dumped].
    + rewrite (Hdump eq_refl i). cbn -[yielded dumped].
      rewrite yielded_app, dumped_app, yielded_call, dumped_call. by cbn.
    + rewrite ?app_nil_r.
      rewrite yielded_app, dumped_app, yielded_call, dumped_call. by cbn.
  - rewrite ?app_nil_r, yielded_call, dumped_call. cbn.
    split; [f_equal; f_equal; lia|done].
Qed.

Lemma cache_entries_instances host self cache_dir total_cnt records :
  (cache_entries host self cache_dir total_cnt records).*2
  = instances_of self records.
Proof.
  revert total_cnt. induction records as [|r records IH]; intros t; [done|].
  cbn [cache_entries instances_of omap list_omap]. rewrite fmap_app, IH.
  unfold instance_or_none. destruct r as [sql_data|]; [|done].
  by destruct (instance_of self sql_data) as [[i|]|].
Qed.

Lemma read_records_fresh host self cache_dir records total_cnt cnt :
  _load_cache self = false →
  _loading_limit self < 0 → 0 ≤ cnt →
  (_save_cache self = true →
   ∀ n i, total_cnt < n →
          dill_dump host (cache_filepath host cache_dir n) i = Ok tt) →
  Forall (λ r, ∃ sql_data instance,
                 r = Ok sql_data ∧ instance_of self sql_data = Ok instance)
    records →
  ending (read_records host self cache_dir records total_cnt cnt)
  = Ok (cnt + Z.of_nat (length (instances_of self records)))
  ∧ yielded (events (read_records host self cache_dir records total_cnt cnt))
    = instances_of self records
  ∧ dumped (events (read_records host self cache_dir records total_cnt cnt))
    = if _save_cache self
      then cache_entries host self cache_dir total_cnt records else [].
Proof.
  intros Hload Hlim Hcnt Hdump Hall. revert total_cnt cnt Hcnt Hdump.
  induction Hall as [|r records (sql_data & instance & -> & Hinst) _ IH];
    intros total_cnt cnt Hcnt Hdump.
  - cbn. split; [f_equal; lia|]. split; [done|].
    by destruct (_save_cache self).
  - cbn [read_records]. rewrite gbind_events, gbind_ending.
    destruct (record_body_fresh host self cache_dir sql_data (total_cnt + 1)
                cnt instance Hload ltac:(lia) Hinst)
      as (Hend & Hyield & Hdumped).
    { intros Hsave i. apply (Hdump Hsave). lia. }
    rewrite Hend. cbn [rbind].
    destruct (IH (total_cnt + 1)
                (cnt + match instance with Some _ => 1 | None => 0 end))
      as (IHend & IHyield & IHdumped); [destruct instance; lia| |].
    { intros Hsave n i Hn. apply (Hdump Hsave). lia. }
    rewrite IHend, yielded_app, dumped_app, Hyield, Hdumped, IHyield,
      IHdumped.
    cbn [instances_of omap list_omap cache_entries instance_or_none].
    rewrite Hinst. fold (instances_of self records).
    destruct instance as [i|]; cbn [app length].
    + split; [f_equal; lia|]. split; [done|].
      by destruct (_save_cache self).
    + split; [f_equal; lia|]. split; [done|].
      by destruct (_save_cache self).
Qed.

Lemma read_files_fresh host self cache_dir files cnt :
  _load_cache self = false →
  _loading_limit self < 0 → 0 ≤ cnt →
  (_save_cache self = true →
   ∀ n i, 0 ≤ n → dill_dump host (cache_filepath host cache_dir n) i = Ok tt) →
  Forall (readable host self) files →
  ending (read_files host self cache_dir files cnt)
  = Ok (cnt + Z.of_nat (length (files ≫= λ path,
                                  instances_of self
                                    (records_of host self path))))
  ∧ yielded (events (read_files host self cache_dir files cnt))
    = files ≫= (λ path, instances_of self (records_of host self path))
  ∧ (dumped (events (read_files host self cache_dir files cnt))).*2
    = if _save_cache self
      then files ≫= (λ path, instances_of self (records_of host self path))
      else [].
Proof.
  intros Hload Hlim Hcnt Hdump Hall. revert cnt Hcnt.
  induction Hall as [|path files [[data Hdata] Hrecords] _ IH];
    intros cnt Hcnt.
  - cbn. split; [f_equal; lia|]. split; [done|].
    by destruct (_save_cache self).
  - rewrite read_files_cons. cbn [mbind list_bind].
    assert (records_of host self path
            = process_sql_data_with_spans host data (_use_all_sql self)
                (_remove_unneeded_aliases self) (_schema self)
                (_use_all_queries self)) as Hrec
      by (unfold records_of; by rewrite Hdata).
    rewrite Hrec in Hrecords |- *. rewrite Hdata. cbv zeta.
    set (records := process_sql_data_with_spans host data _ _ _ _) in *.
    destruct (read_records_fresh host self cache_dir records (-1) cnt
                Hload Hlim Hcnt) as (Hend & Hyield & Hdumped);
      [intros Hsave n i Hn; apply (Hdump Hsave); lia|exact Hrecords|].
    rewrite Hend.
    destruct (IH (cnt + Z.of_nat (length (instances_of self records))))
      as (IHend & IHyield & IHdumped); [lia|].
    cbn [events ending fst snd]. rewrite IHend.
    change (yielded (LoadJson path :: ?l)) with (yielded l).
    change (dumped (LoadJson path :: ?l)) with (dumped l).
    rewrite yielded_app, dumped_app, fmap_app, Hyield, Hdumped, IHyield,
      IHdumped, length_app.
    split; [f_equal; lia|]. split; [done|].
    destruct (_save_cache self); [|done].
    by rewrite cache_entries_instances.
Qed.

(** X14. Take a run of [_read] that takes nothing from the cache and has
    no limit, over data files that can be read and whose records all have
    an instance or [None]; when [save_cache] is on, let [os.makedirs]
    succeed on the cache directory and let every [dill.dump] to a cache
    file [instance-N.pt] of that directory, [N] from 0 on, succeed. The run
    yields, file by file and record by record, the instance of every record
    that has one; a record for which [text_to_instance] returns [None] is
    passed over and the run goes on. With [save_cache] on, the instances
    written to the cache are the instances yielded, in the same order. The
    run ends normally and leaves the reader as it was. *)
Theorem read_yields_the_instances host self file_path :
  _load_cache self = false →
  _loading_limit self < 0 →
  (_save_cache self = true →
   os_makedirs host (cache_dir_of host file_path) = Ok tt
   ∧ ∀ n i,
       0 ≤ n →
       dill_dump host
         (cache_filepath host (cache_dir_of host file_path) n) i = Ok tt) →
  Forall (readable host self) (files_to_read host self file_path) →
  ending (_read host self file_path) = Ok self
  ∧ yielded (events (_read host self file_path))
    = files_to_read host self file_path
        ≫= (λ path, instances_of self (records_of host self path))
  ∧ (dumped (events (_read host self file_path))).*2
    = if _save_cache self
      then yielded (events (_read host self file_path)) else [].
Proof.
  intros Hload Hlim Hhost Hall. rewrite read_eq. cbv zeta.
  assert (effective_reader host self file_path = self) as ->.
  { unfold effective_reader. by rewrite Hload. }
  destruct (read_files_fresh host self (cache_dir_of host file_path)
              (files_to_read host self file_path) 0 Hload Hlim ltac:(lia))
    as (Hend & Hyield & Hdumped); [by intros [_ ?]%Hhost|done|].
  assert (dumped (read_prelude host self file_path) = []) as Hpre.
  { unfold read_prelude. rewrite Hload. by destruct (_save_cache self). }
  destruct (_save_cache self) eqn:Hsave.
  - destruct (Hhost eq_refl) as [-> _]. cbn [events ending fst snd].
    rewrite Hend, yielded_app, dumped_app, yielded_prelude, Hpre, Hyield.
    cbn [app]. by rewrite Hdumped.
  - cbn [events ending fst snd].
    rewrite Hend, yielded_app, dumped_app, yielded_prelude, Hpre, Hyield.
    cbn [app]. by rewrite Hdumped.
Qed.

Lemma sample_file_readable :
  readable sample_host (sample_reader_with_limit (-1)) "data/split_2.json".
Proof.
  split; [by eexists|].
  repeat constructor; eexists _, _; (split; [reflexivity|]);
    vm_compute; reflexivity.
Defined.

Lemma sample_file_is_readable :
  Forall (readable sample_host (sample_reader_with_limit (-1)))
    (files_to_read sample_host (sample_reader_with_limit (-1))
       "data/*.json").
Proof. apply Forall_singleton. exact sample_file_readable. Defined.

Lemma read_yields_the_instances_sample :
  ending (_read sample_host (sample_reader_with_limit (-1)) "data/*.json")
  = Ok (sample_reader_with_limit (-1))
  ∧ yielded (events (_read sample_host (sample_reader_with_limit (-1))
                       "data/*.json"))
    = files_to_read sample_host (sample_reader_with_limit (-1)) "data/*.json"
        ≫= (λ path, instances_of (sample_reader_with_limit (-1))
                      (records_of sample_host (sample_reader_with_limit (-1))
                         path))
  ∧ (dumped (events (_read sample_host (sample_reader_with_limit (-1))
                       "data/*.json"))).*2
    = if _save_cache (sample_reader_with_limit (-1))
      then yielded (events (_read sample_host (sample_reader_with_limit (-1))
                              "data/*.json"))
      else [].
Proof.
  apply read_yields_the_instances.
  - reflexivity.
  - vm_compute. reflexivity.
  - intros _. split; [reflexivity|]. intros n i _. reflexivity.
  - exact sample_file_is_readable.
Defined.

(** X15. When the cache directory does not exist, a reader that was told
    to load from the cache logs that, switches [load_cache] off for good,
    and from there on runs exactly as a reader that was never told to load
    from the cache. *)
Theorem missing_cache_directory host self file_path :
  _load_cache self = true →
  os_path_isdir host (cache_dir_of host file_path) = false →
  events (_read host self file_path)
  = LoggerInfo ("Trying to load cache from "
                +:+ cache_dir_of host file_path)
    :: LoggerInfo ("Can't load cache, cache " +:+ cache_dir_of host file_path
                   +:+ " doesn't exits")
    :: events (_read host (set_load_cache false self) file_path)
  ∧ ending (_read host self file_path)
    = ending (_read host (set_load_cache false self) file_path)
  ∧ ∀ self',
      ending (_read host self file_path) = Ok self' →
      self' = set_load_cache false self ∧ _load_cache self' = false.
Proof.
  intros Hload Hdir. rewrite !read_eq. cbv zeta.
  unfold effective_reader, read_prelude.
  cbn [set_load_cache _load_cache _save_cache andb].
  rewrite Hload, Hdir. cbn [negb andb app].
  change (files_to_read host (set_load_cache false self) file_path)
    with (files_to_read host self file_path).
  destruct (_save_cache self);
    [destruct (os_makedirs host (cache_dir_of host file_path))|];
    cbn [events ending fst snd app]; (split; [done|]); (split; [done|]);
    try done;
    intros self'; destruct (ending (read_files _ _ _ _ _)); cbn [rbind];
    by intros [= <-].
Qed.

Lemma missing_cache_directory_sample :
  events (_read sample_host (set_load_cache true (sample_reader_with_limit 1))
            "data/*.json")
  = LoggerInfo ("Trying to load cache from "
                +:+ cache_dir_of sample_host "data/*.json")
    :: LoggerInfo ("Can't load cache, cache "
                   +:+ cache_dir_of sample_host "data/*.json"
                   +:+ " doesn't exits")
    :: events (_read sample_host
                 (set_load_cache false
                    (set_load_cache true (sample_reader_with_limit 1)))
                 "data/*.json")
  ∧ ending (_read sample_host
              (set_load_cache true (sample_reader_with_limit 1))
              "data/*.json")
    = ending (_read sample_host
                (set_load_cache false
                   (set_load_cache true (sample_reader_with_limit 1)))
                "data/*.json")
  ∧ ∀ self',
      ending (_read sample_host
                (set_load_cache true (sample_reader_with_limit 1))
                "data/*.json") = Ok self' →
      self' = set_load_cache false
                (set_load_cache true (sample_reader_with_limit 1))
      ∧ _load_cache self' = false.
Proof. apply missing_cache_directory; reflexivity. Defined.

Lemma read_records_from_cache host self cache_dir records total_cnt cnt :
  _load_cache self = true →
  Forall (from_cache host)
    (events (read_records host self cache_dir records total_cnt cnt)).
Proof.
  intros Hload. revert total_cnt cnt.
  induction records as [|[sql_data|e] records IH]; intros total_cnt cnt;
    [by constructor| |by constructor].
  cbn [read_records]. rewrite gbind_events. apply Forall_app. split.
  - unfold record_body. cbv zeta.
    destruct (decide (_loading_limit self = cnt)); [by constructor|].
    rewrite Hload.
    destruct (dill_load host (cache_filepath host cache_dir (total_cnt + 1)))
      as [instance|] eqn:Hdill; cbn.
    + constructor; [done|]. constructor; [|done]. by eexists.
    + by constructor.
  - destruct (ending (record_body host self cache_dir sql_data
                        (total_cnt + 1) cnt)) as [[cnt1|]|];
      [apply IH|by constructor|by constructor].
Qed.

(** X16. A run of [_read] that loads from an existing cache directory
    never calls [text_to_instance], so neither the tokenizer nor the grammar
    world, and never writes to the cache: whatever it yields was read from
    a cache file. A record whose cache file cannot be loaded is passed
    over. *)
Theorem read_from_cache host self file_path :
  _load_cache self = true →
  os_path_isdir host (cache_dir_of host file_path) = true →
  Forall (from_cache host) (events (_read host self file_path)).
Proof.
  intros Hload Hdir. rewrite read_eq. cbv zeta.
  assert (effective_reader host self file_path = self) as ->.
  { unfold effective_reader. by rewrite Hload, Hdir. }
  assert (Forall (from_cache host) (read_prelude host self file_path))
    as Hpre.
  { unfold read_prelude. rewrite Hload, Hdir.
    destruct (_save_cache self); by repeat constructor. }
  assert (∀ files cnt,
            Forall (from_cache host)
              (events (read_files host self (cache_dir_of host file_path)
                         files cnt))) as Hfiles.
  { induction files as [|path files IH]; intros cnt; [by constructor|].
    rewrite read_files_cons.
    destruct (load_json host path) as [data|]; [|by repeat constructor].
    cbv zeta.
    pose proof (read_records_from_cache host self
                  (cache_dir_of host file_path)
                  (process_sql_data_with_spans host data (_use_all_sql self)
                     (_remove_unneeded_aliases self) (_schema self)
                     (_use_all_queries self)) (-1) cnt Hload) as Hrec.
    destruct (ending (read_records _ _ _ _ _ _)) as [cnt1|];
      cbn [events fst]; constructor; try done.
    apply Forall_app. split; [done|apply IH]. }
  destruct (_save_cache self);
    [destruct (os_makedirs host (cache_dir_of host file_path))|];
    cbn [events fst]; try done; apply Forall_app; by split.
Qed.

Lemma read_from_cache_sample :
  Forall (from_cache cached_host)
    (events (_read cached_host
               (set_load_cache true (sample_reader_with_limit (-1)))
               "data/*.json")).
Proof. apply read_from_cache; reflexivity. Defined.

(** ** The cache of [_read] *)

Lemma length_append s t :
  String.length (s +:+ t) = (String.length s + String.length t)%nat.
Proof.
  induction s as [|c s IH]; [done|].
  rewrite append_cons. cbn [String.length]. by rewrite IH.
Qed.

Lemma append_inj_r s1 s2 t : s1 +:+ t = s2 +:+ t → s1 = s2.
Proof.
  revert s2. induction s1 as [|c s1 IH]; intros [|d s2] Heq; [done| | |].
  - apply (f_equal String.length) in Heq.
    rewrite append_empty_l, append_cons in Heq. cbn [String.length] in Heq.
    rewrite length_append in Heq. lia.
  - apply (f_equal String.length) in Heq.
    rewrite append_empty_l, append_cons in Heq. cbn [String.length] in Heq.
    rewrite length_append in Heq. lia.
  - rewrite !append_cons in Heq. injection Heq as -> Heq.
    by rewrite (IH s2 Heq).
Qed.

Lemma cache_filepath_inj host cache_dir a b :
  (∀ x y, os_path_join host cache_dir x = os_path_join host cache_dir y →
          x = y) →
  cache_filepath host cache_dir a = cache_filepath host cache_dir b → a = b.
Proof.
  intros Hjoin Heq. apply Hjoin in Heq.
  apply (inj (String.append "instance-")) in Heq.
  apply append_inj_r in Heq. by apply (inj pretty) in Heq.
Qed.

Lemma cache_of_app entries1 entries2 :
  cache_of (entries1 ++ entries2) = cache_of entries2 ∪ cache_of entries1.
Proof. unfold cache_of. by rewrite reverse_app, list_to_map_app. Qed.

Lemma cache_of_Some entries path instance :
  cache_of entries !! path = Some instance → (path, instance) ∈ entries.
Proof.
  unfold cache_of. intros Hin%elem_of_list_to_map_2.
  by rewrite elem_of_reverse in Hin.
Qed.

Lemma cache_entries_paths host self cache_dir total_cnt records path instance :
  (path, instance) ∈ cache_entries host self cache_dir total_cnt records →
  ∃ j : nat,
    path = cache_filepath host cache_dir (total_cnt + 1 + Z.of_nat j).
Proof.
  revert total_cnt.
  induction records as [|r records IH]; intros total_cnt;
    [by intros ?%elem_of_nil|].
  cbn [cache_entries]. intros [Hin|Hin]%elem_of_app.
  - exists 0%nat. rewrite Z.add_0_r.
    destruct r as [sql_data|]; [|by apply elem_of_nil in Hin].
    destruct (instance_of self sql_data) as [[i|]|];
      try by apply elem_of_nil in Hin.
    by apply list_elem_of_singleton in Hin as [= -> _].
  - apply IH in Hin as [j ->]. exists (S j). f_equal. lia.
Qed.

(** What [dill.load] finds for the record at position [j] after a run
    that wrote the cache. *)
Lemma replay_cache_entries host self cache_dir total_cnt records (j : nat) r :
  (∀ a b,
     total_cnt < a → total_cnt < b →
     cache_filepath host cache_dir a = cache_filepath host cache_dir b →
     a = b) →
  records !! j = Some r →
  replay (cache_entries host self cache_dir total_cnt records)
    (cache_filepath host cache_dir (total_cnt + 1 + Z.of_nat j))
  = match instance_or_none self r with
    | Some instance => Ok instance
    | None => Raise FileNotFoundError
    end.
Proof.
  intros Hjoin. revert total_cnt j Hjoin.
  induction records as [|r0 records IH]; intros total_cnt j Hjoin Hj;
    [done|].
  unfold replay. cbn [cache_entries]. rewrite cache_of_app.
  destruct j as [|j].
  - injection Hj as ->. rewrite Z.add_0_r.
    rewrite lookup_union_r.
    + unfold instance_or_none. destruct r as [sql_data|]; [|done].
      destruct (instance_of self sql_data) as [[i|]|]; try done.
      unfold cache_of. cbn. by rewrite lookup_insert_eq.
    + apply eq_None_not_Some. intros [i Hi%cache_of_Some].
      apply cache_entries_paths in Hi as [j Hj].
      apply Hjoin in Hj; lia.
  - cbn in Hj.
    assert (∀ a b,
              total_cnt + 1 < a → total_cnt + 1 < b →
              cache_filepath host cache_dir a = cache_filepath host cache_dir b →
              a = b) as Hjoin'
      by (intros a b Ha Hb; apply Hjoin; lia).
    specialize (IH (total_cnt + 1) j Hjoin' Hj). unfold replay in IH.
    replace (total_cnt + 1 + Z.of_nat (S j))
      with (total_cnt + 1 + 1 + Z.of_nat j) by lia.
    destruct (cache_of (cache_entries host self cache_dir (total_cnt + 1)
                          records)
                !! cache_filepath host cache_dir
                     (total_cnt + 1 + 1 + Z.of_nat j)) as [i|] eqn:Hrest.
    + by rewrite (lookup_union_Some_l _ _ _ _ Hrest).
    + rewrite lookup_union_r by done. rewrite <- IH.
      destruct r0 as [sql_data|]; [|done].
      destruct (instance_of self sql_data) as [[i|]|]; try done.
      unfold cache_of. cbn. rewrite lookup_insert_ne; [done|].
      intros Heq. apply Hjoin in Heq; lia.
Qed.

(** Records read back from cache files that hold, for each record, what
    [f] says. *)
Lemma read_records_loaded host self (f : result SqlData.t → option Instance)
    cache_dir records total_cnt cnt :
  _load_cache self = true →
  _loading_limit self < 0 → 0 ≤ cnt →
  Forall (λ r, ∃ sql_data, r = Ok sql_data) records →
  (∀ (j : nat) r,
     records !! j = Some r →
     dill_load host (cache_filepath host cache_dir
                       (total_cnt + 1 + Z.of_nat j))
     = match f r with
       | Some instance => Ok instance
       | None => Raise FileNotFoundError
       end) →
  yielded (events (read_records host self cache_dir records total_cnt cnt))
  = omap f records
  ∧ ending (read_records host self cache_dir records total_cnt cnt)
    = Ok (cnt + Z.of_nat (length (omap f records))).
Proof.
  intros Hload Hlim Hcnt Hall. revert total_cnt cnt Hcnt.
  induction Hall as [|r records [sql_data ->] _ IH];
    intros total_cnt cnt Hcnt Hdisk.
  - cbn. split; [done|]. f_equal. lia.
  - cbn [read_records]. rewrite gbind_events, gbind_ending.
    pose proof (Hdisk 0%nat (Ok sql_data) eq_refl) as H0.
    rewrite Z.add_0_r in H0.
    unfold record_body. cbv zeta. rewrite decide_False, Hload by lia.
    rewrite H0. cbn [omap list_omap].
    destruct (f (Ok sql_data)) as [instance|];
      cbn [gbind gemit gret events ending fst snd app rbind].
    + destruct (IH (total_cnt + 1) (cnt + 1)) as [IH1 IH2]; [lia| |].
      { intros j r Hj. rewrite <- (Hdisk (S j) r Hj). do 2 f_equal. lia. }
      cbn [yielded omap list_omap]. fold (yielded (events (read_records host
        self cache_dir records (total_cnt + 1) (cnt + 1)))).
      rewrite IH1, IH2. split; [done|]. cbn [length]. f_equal. lia.
    + destruct (IH (total_cnt + 1) cnt) as [IH1 IH2]; [lia| |].
      { intros j r Hj. rewrite <- (Hdisk (S j) r Hj). do 2 f_equal. lia. }
      cbn [yielded omap list_omap]. fold (yielded (events (read_records host
        self cache_dir records (total_cnt + 1) cnt))).
      by rewrite IH1, IH2.
Qed.

Lemma dumped_prelude host self file_path :
  dumped (read_prelude host self file_path) = [].
Proof.
  unfold read_prelude.
  by destruct (_load_cache self),
       (os_path_isdir host (cache_dir_of host file_path)),
       (_save_cache self).
Qed.

(** A first run over one file that writes the cache. *)
Lemma first_run_of_one_file host self file_path path :
  _load_cache self = false → _save_cache self = true →
  _loading_limit self < 0 →
  os_makedirs host (cache_dir_of host file_path) = Ok tt →
  (∀ n i,
     0 ≤ n →
     dill_dump host (cache_filepath host (cache_dir_of host file_path) n) i
     = Ok tt) →
  files_to_read host self file_path = [path] →
  readable host self path →
  yielded (events (_read host self file_path))
  = instances_of self (records_of host self path)
  ∧ dumped (events (_read host self file_path))
    = cache_entries host self (cache_dir_of host file_path) (-1)
        (records_of host self path).
Proof.
  intros Hload Hsave Hlim Hmk Hdump Hfiles [[data Hdata] Hrecords].
  rewrite read_eq. cbv zeta. rewrite Hsave, Hmk, Hfiles.
  assert (effective_reader host self file_path = self) as ->.
  { unfold effective_reader. by rewrite Hload. }
  cbn [events fst]. rewrite read_files_cons.
  assert (records_of host self path
          = process_sql_data_with_spans host data (_use_all_sql self)
              (_remove_unneeded_aliases self) (_schema self)
              (_use_all_queries self)) as Hrec
    by (unfold records_of; by rewrite Hdata).
  rewrite Hrec in Hrecords |- *. rewrite Hdata. cbv zeta.
  set (records := process_sql_data_with_spans host data _ _ _ _) in *.
  destruct (read_records_fresh host self (cache_dir_of host file_path)
              records (-1) 0 Hload Hlim ltac:(lia))
    as (Hend & Hyield & Hdumped);
    [intros _ n i Hn; apply Hdump; lia|exact Hrecords|].
  rewrite Hend. cbn [events fst read_files gret].
  rewrite yielded_app, dumped_app, yielded_prelude, dumped_prelude.
  cbn [app].
  change (yielded (LoadJson path :: ?l)) with (yielded l).
  change (dumped (LoadJson path :: ?l)) with (dumped l).
  by rewrite !app_nil_r, Hyield, Hdumped, Hsave.
Qed.

(** X17. The cache round trip. Take a run of [_read] over one data file
    that loads nothing from the cache, has no limit and writes the cache;
    let [os.makedirs] succeed on the cache directory, let every [dill.dump]
    to a cache file [instance-N.pt] of that directory, [N] from 0 on,
    succeed, and let the cache files of two different positions be
    different files. Let the cache files then hold what that run wrote. A
    second run of the same reader that loads from the cache yields the same
    instances in the same order: a record is found under the position it has
    in its file, and a record without an instance has no cache file and is
    passed over again. *)
Theorem cache_round_trip host self file_path path :
  _load_cache self = false → _save_cache self = true →
  _loading_limit self < 0 →
  os_makedirs host (cache_dir_of host file_path) = Ok tt →
  (∀ n i,
     0 ≤ n →
     dill_dump host (cache_filepath host (cache_dir_of host file_path) n) i
     = Ok tt) →
  (∀ a b,
     0 ≤ a → 0 ≤ b →
     cache_filepath host (cache_dir_of host file_path) a
     = cache_filepath host (cache_dir_of host file_path) b → a = b) →
  files_to_read host self file_path = [path] →
  readable host self path →
  yielded (events (_read
                     (with_disk true
                        (replay (dumped (events (_read host self file_path))))
                        host)
                     (set_load_cache true self) file_path))
  = yielded (events (_read host self file_path))
  ∧ ending (_read
              (with_disk true
                 (replay (dumped (events (_read host self file_path))))
                 host)
              (set_load_cache true self) file_path)
    = Ok (set_load_cache true self).
Proof.
  intros Hload Hsave Hlim Hmk Hdump Hjoin Hfiles Hreadable.
  destruct (first_run_of_one_file host self file_path path Hload Hsave Hlim
              Hmk Hdump Hfiles Hreadable) as [-> ->].
  destruct Hreadable as [[data Hdata] Hrecords].
  assert (records_of host self path
          = process_sql_data_with_spans host data (_use_all_sql self)
              (_remove_unneeded_aliases self) (_schema self)
              (_use_all_queries self)) as Hrec
    by (unfold records_of; by rewrite Hdata).
  rewrite Hrec in Hrecords |- *.
  set (records := process_sql_data_with_spans host data _ _ _ _) in *.
  set (host' := with_disk true _ host).
  rewrite read_eq. cbv zeta.
  change (cache_dir_of host' file_path) with (cache_dir_of host file_path).
  change (files_to_read host' (set_load_cache true self) file_path)
    with (files_to_read host self file_path).
  change (os_makedirs host' (cache_dir_of host file_path))
    with (os_makedirs host (cache_dir_of host file_path)).
  change (_save_cache (set_load_cache true self)) with (_save_cache self).
  rewrite Hsave, Hmk, Hfiles.
  assert (effective_reader host' (set_load_cache true self) file_path
          = set_load_cache true self) as -> by done.
  cbn [events ending fst snd]. rewrite read_files_cons.
  change (load_json host' path) with (load_json host path).
  rewrite Hdata. cbv zeta.
  change (process_sql_data_with_spans host' data
            (_use_all_sql (set_load_cache true self))
            (_remove_unneeded_aliases (set_load_cache true self))
            (_schema (set_load_cache true self))
            (_use_all_queries (set_load_cache true self)))
    with records.
  destruct (read_records_loaded host' (set_load_cache true self)
              (instance_or_none self) (cache_dir_of host file_path) records
              (-1) 0) as [Hyield Hend]; [done|done|lia| | |].
  { eapply Forall_impl; [exact Hrecords|].
    intros r (sql_data & _ & -> & _). by eexists. }
  { intros j r Hj.
    change (dill_load host' ?p)
      with (replay (cache_entries host self (cache_dir_of host file_path)
                      (-1) records) p).
    change (cache_filepath host' ?d ?n) with (cache_filepath host d n).
    apply replay_cache_entries; [|done].
    intros a b Ha Hb. apply Hjoin; lia. }
  rewrite Hend. cbn [events ending fst snd read_files gret rbind].
  rewrite yielded_app, yielded_prelude. cbn [app].
  change (yielded (LoadJson path :: ?l)) with (yielded l).
  by rewrite app_nil_r, Hyield.
Qed.

Lemma cache_round_trip_sample :
  yielded (events (_read
                     (with_disk true
                        (replay (dumped (events (_read sample_host
                                                   (sample_reader_with_limit
                                                      (-1))
                                                   "data/*.json"))))
                        sample_host)
                     (set_load_cache true (sample_reader_with_limit (-1)))
                     "data/*.json"))
  = yielded (events (_read sample_host (sample_reader_with_limit (-1))
                       "data/*.json"))
  ∧ ending (_read
              (with_disk true
                 (replay (dumped (events (_read sample_host
                                            (sample_reader_with_limit (-1))
                                            "data/*.json"))))
                 sample_host)
              (set_load_cache true (sample_reader_with_limit (-1)))
              "data/*.json")
    = Ok (set_load_cache true (sample_reader_with_limit (-1))).
Proof.
  apply (cache_round_trip sample_host (sample_reader_with_limit (-1))
           "data/*.json" "data/split_2.json").
  - reflexivity.
  - reflexivity.
  - vm_compute. reflexivity.
  - reflexivity.
  - intros n i _. reflexivity.
  - intros a b _ _. apply cache_filepath_inj.
    intros x y Heq. apply (inj (String.append _)) in Heq.
    by apply (inj (String.append "/")) in Heq.
  - vm_compute. reflexivity.
  - exact sample_file_readable.
Defined.

(** ** The files of [_read] *)

Lemma prefix_app_iff sep s :
  String.prefix sep s = true ↔ ∃ rest, s = sep +:+ rest.
Proof.
  split; [apply prefix_app|]. intros [rest ->].
  induction sep as [|a sep IH]; [by destruct rest|].
  rewrite append_cons. cbn [String.prefix].
  by destruct (Ascii.ascii_dec a a).
Qed.

(** [needle in haystack] holds when [haystack] has [needle] somewhere in
    it. *)
Lemma contains_spec needle haystack :
  contains needle haystack = true
  ↔ ∃ before after, haystack = before +:+ needle +:+ after.
Proof.
  induction haystack as [|c haystack IH]; cbn [contains].
  - rewrite prefix_app_iff. split.
    + intros [rest Hrest]. exists "", rest. by rewrite append_empty_l.
    + intros (before & after & Heq). exists after.
      destruct before; [by rewrite append_empty_l in Heq|].
      by rewrite append_cons in Heq.
  - rewrite orb_true_iff, prefix_app_iff, IH. split.
    + intros [[rest Hrest]|(before & after & ->)].
      * exists "", rest. by rewrite append_empty_l.
      * exists (String c before), after. by rewrite append_cons.
    + intros (before & after & Heq). destruct before as [|b before].
      * left. exists after. by rewrite append_empty_l in Heq.
      * right. rewrite append_cons in Heq. injection Heq as -> ->.
        by exists before, after.
Qed.

Lemma filter_sublist {A} (f : A → bool) (l : list A) :
  sublist (List.filter f l) l.
Proof.
  induction l as [|x l IH]; [done|]. cbn [List.filter].
  destruct (f x); [by apply sublist_skip|by apply sublist_cons].
Qed.

(** X18. Which files [_read] opens. A file found by [glob] is read unless
    its base name has the text of [cross_validation_split_to_exclude]
    somewhere in it; the files keep the order of [glob]. For a reader built
    by [__init__] that text is [str] of the argument: the decimal digits of
    the split, so that a longer number which holds these digits is excluded
    as well, and ["None"] when no split was given, so that a file with
    [None] in its base name is never read. *)
Theorem files_read host self file_path WhitespaceTokenizer cached_path
    sqlite3_connect read_dataset_schema Text2SqlWorld_init (a : Args.t) :
  __init__ WhitespaceTokenizer cached_path sqlite3_connect
    read_dataset_schema Text2SqlWorld_init a = Ok self →
  (∀ p, p ∈ files_to_read host self file_path
        ↔ p ∈ glob_glob host (path_str host file_path)
          ∧ ¬ ∃ before after,
                os_path_basename host p
                = before
                  +:+ str_of_optional_int
                        (Args.cross_validation_split_to_exclude a)
                  +:+ after)
  ∧ sublist (files_to_read host self file_path)
      (glob_glob host (path_str host file_path))
  ∧ (Args.cross_validation_split_to_exclude a = None →
     ∀ p before after,
       os_path_basename host p = before +:+ "None" +:+ after →
       p ∉ files_to_read host self file_path)
  ∧ (∀ (k : Z) p before after,
       Args.cross_validation_split_to_exclude a = Some k →
       os_path_basename host p = before +:+ pretty k +:+ after →
       p ∉ files_to_read host self file_path).
Proof.
  intros Hinit.
  assert (_cross_validation_split_to_exclude self
          = str_of_optional_int (Args.cross_validation_split_to_exclude a))
    as Hcv.
  { unfold __init__ in Hinit.
    destruct (negb (Args.use_prelinked_entities a)); [done|].
    destruct (open_cursor _ _ _); [|done]. cbn [rbind] in Hinit.
    destruct (read_dataset_schema _); [|done]. cbn [rbind] in Hinit.
    destruct (Text2SqlWorld_init _ _ _ _); [|done]. by injection Hinit as <-. }
  assert (∀ p, p ∈ files_to_read host self file_path
               ↔ p ∈ glob_glob host (path_str host file_path)
                 ∧ ¬ ∃ before after,
                       os_path_basename host p
                       = before
                         +:+ str_of_optional_int
                               (Args.cross_validation_split_to_exclude a)
                         +:+ after) as Hspec.
  { intros p. unfold files_to_read.
    rewrite !list_elem_of_In, filter_In, Hcv, negb_true_iff.
    rewrite <- contains_spec. by rewrite not_true_iff_false. }
  split; [done|]. split; [|split].
  - apply filter_sublist.
  - intros Hnone p before after Hbase [_ Hnot]%Hspec. apply Hnot.
    rewrite Hnone. by exists before, after.
  - intros k p before after Hk Hbase [_ Hnot]%Hspec. apply Hnot.
    rewrite Hk. by exists before, after.
Qed.

Lemma files_read_sample :
  ∃ self,
    __init__ space_tokenizer missing_file sample_connect empty_schema
      sample_world_init sample_args = Ok self
    ∧ "data/split_10.json" ∉ files_to_read sample_host self "data/*.json".
Proof.
  eexists. split; [vm_compute; reflexivity|].
  match goal with
  | |- _ ∉ files_to_read _ ?self _ =>
      destruct (files_read sample_host self "data/*.json" space_tokenizer
                  missing_file sample_connect empty_schema sample_world_init
                  sample_args) as (_ & _ & _ & Hsome)
  end.
  - vm_compute. reflexivity.
  - apply (Hsome 1 "data/split_10.json" "split_" "0.json"); reflexivity.
Defined.

(** ** The cache of [_read], continued *)

Lemma read_records_cached host self cache_dir records total_cnt cnt :
  _load_cache self = true →
  _loading_limit self < 0 → 0 ≤ cnt →
  Forall (λ r, ∃ sql_data, r = Ok sql_data) records →
  yielded (events (read_records host self cache_dir records total_cnt cnt))
  = loaded_from host cache_dir total_cnt (length records)
  ∧ ending (read_records host self cache_dir records total_cnt cnt)
    = Ok (cnt + Z.of_nat (length (loaded_from host cache_dir total_cnt
                                    (length records)))).
Proof.
  intros Hload Hlim Hcnt Hall. revert total_cnt cnt Hcnt.
  induction Hall as [|r records [sql_data ->] _ IH]; intros total_cnt cnt Hcnt.
  - cbn. split; [done|]. f_equal. lia.
  - cbn [read_records length loaded_from].
    rewrite gbind_events, gbind_ending.
    unfold record_body. cbv zeta. rewrite decide_False, Hload by lia.
    destruct (dill_load host (cache_filepath host cache_dir (total_cnt + 1)))
      as [instance|];
      cbn [gbind gemit gret events ending fst snd app rbind].
    + destruct (IH (total_cnt + 1) (cnt + 1)) as [IH1 IH2]; [lia|].
      cbn [yielded omap list_omap]. fold (yielded (events (read_records host
        self cache_dir records (total_cnt + 1) (cnt + 1)))).
      rewrite IH1, IH2. split; [done|]. cbn [length]. f_equal. lia.
    + destruct (IH (total_cnt + 1) cnt) as [IH1 IH2]; [lia|].
      cbn [yielded omap list_omap]. fold (yielded (events (read_records host
        self cache_dir records (total_cnt + 1) cnt))).
      by rewrite IH1, IH2.
Qed.

(** X19. A run of [_read] that loads from the cache looks at the number
    of records of a data file only: for every file it yields what is found
    in the cache files [instance-0.pt], [instance-1.pt], ... up to that
    number, leaving out those that cannot be loaded, so two data files with
    as many records yield the same instances. A cache file that cannot be
    loaded never ends the run. *)
Theorem read_from_cache_by_position host self file_path :
  _load_cache self = true →
  os_path_isdir host (cache_dir_of host file_path) = true →
  _loading_limit self < 0 →
  (_save_cache self = true →
   os_makedirs host (cache_dir_of host file_path) = Ok tt) →
  Forall (fetchable host self) (files_to_read host self file_path) →
  ending (_read host self file_path) = Ok self
  ∧ yielded (events (_read host self file_path))
    = files_to_read host self file_path
        ≫= (λ path, loaded_from host (cache_dir_of host file_path) (-1)
                      (length (records_of host self path))).
Proof.
  intros Hload Hdir Hlim Hmk Hall. rewrite read_eq. cbv zeta.
  assert (effective_reader host self file_path = self) as ->.
  { unfold effective_reader. by rewrite Hload, Hdir. }
  assert (∀ files cnt,
            0 ≤ cnt → Forall (fetchable host self) files →
            (∃ cnt', ending (read_files host self
                               (cache_dir_of host file_path) files cnt)
                     = Ok cnt')
            ∧ yielded (events (read_files host self
                                 (cache_dir_of host file_path) files cnt))
              = files ≫= (λ path,
                            loaded_from host (cache_dir_of host file_path)
                              (-1) (length (records_of host self path))))
    as Hfiles.
  { intros files cnt Hcnt Hf. revert cnt Hcnt.
    induction Hf as [|path files [[data Hdata] Hrecords] _ IH];
      intros cnt Hcnt; [split; [by eexists|done]|].
    rewrite read_files_cons. cbn [mbind list_bind].
    assert (records_of host self path
            = process_sql_data_with_spans host data (_use_all_sql self)
                (_remove_unneeded_aliases self) (_schema self)
                (_use_all_queries self)) as Hrec
      by (unfold records_of; by rewrite Hdata).
    rewrite Hrec in Hrecords |- *. rewrite Hdata. cbv zeta.
    set (records := process_sql_data_with_spans host data _ _ _ _) in *.
    destruct (read_records_cached host self (cache_dir_of host file_path)
                records (-1) cnt Hload Hlim Hcnt Hrecords) as [Hyield Hend].
    rewrite Hend. cbn [events ending fst snd].
    destruct (IH (cnt + Z.of_nat (length (loaded_from host
                   (cache_dir_of host file_path) (-1) (length records)))))
      as [IHend IHyield]; [lia|].
    split; [done|].
    change (yielded (LoadJson path :: ?l)) with (yielded l).
    by rewrite yielded_app, Hyield, IHyield. }
  destruct (Hfiles (files_to_read host self file_path) 0 ltac:(lia) Hall)
    as [[cnt' Hend] Hyield].
  destruct (_save_cache self);
    [rewrite (Hmk eq_refl)|]; cbn [events ending fst snd];
    by rewrite Hend, yielded_app, yielded_prelude, Hyield.
Qed.

Lemma read_from_cache_by_position_sample :
  ending (_read cached_host
            (set_load_cache true (sample_reader_with_limit (-1)))
            "data/*.json")
  = Ok (set_load_cache true (sample_reader_with_limit (-1)))
  ∧ yielded (events (_read cached_host
                       (set_load_cache true (sample_reader_with_limit (-1)))
                       "data/*.json"))
    = files_to_read cached_host
        (set_load_cache true (sample_reader_with_limit (-1))) "data/*.json"
        ≫= (λ path,
              loaded_from cached_host
                (cache_dir_of cached_host "data/*.json") (-1)
                (length (records_of cached_host
                           (set_load_cache true
                              (sample_reader_with_limit (-1))) path))).
Proof.
  apply read_from_cache_by_position.
  - reflexivity.
  - reflexivity.
  - vm_compute. reflexivity.
  - reflexivity.
  - apply Forall_singleton. split; [by eexists|].
    repeat constructor; by eexists.
Defined.

Lemma read_files_fresh_dumped host self cache_dir files cnt :
  _load_cache self = false → _save_cache self = true →
  _loading_limit self < 0 → 0 ≤ cnt →
  (∀ n i, 0 ≤ n → dill_dump host (cache_filepath host cache_dir n) i = Ok tt) →
  Forall (readable host self) files →
  dumped (events (read_files host self cache_dir files cnt))
  = files ≫= (λ path, cache_entries host self cache_dir (-1)
                        (records_of host self path)).
Proof.
  intros Hload Hsave Hlim Hcnt Hdump Hall. revert cnt Hcnt.
  induction Hall as [|path files [[data Hdata] Hrecords] _ IH];
    intros cnt Hcnt; [done|].
  rewrite read_files_cons. cbn [mbind list_bind].
  assert (records_of host self path
          = process_sql_data_with_spans host data (_use_all_sql self)
              (_remove_unneeded_aliases self) (_schema self)
              (_use_all_queries self)) as Hrec
    by (unfold records_of; by rewrite Hdata).
  rewrite Hrec in Hrecords |- *. rewrite Hdata. cbv zeta.
  set (records := process_sql_data_with_spans host data _ _ _ _) in *.
  destruct (read_records_fresh host self cache_dir records (-1) cnt
              Hload Hlim Hcnt)
    as (Hend & _ & Hdumped);
    [intros _ n i Hn; apply Hdump; lia|exact Hrecords|].
  rewrite Hend. cbn [events fst].
  change (dumped (LoadJson path :: ?l)) with (dumped l).
  rewrite dumped_app, Hdumped, Hsave, IH by lia. done.
Qed.

(** X20. The cache is keyed by the position of a record in its data file,
    not by the file. Take a run of [_read] over several data files that
    loads nothing from the cache, has no limit and writes the cache; let
    [os.makedirs] succeed on the cache directory, let every [dill.dump] to a
    cache file [instance-N.pt] of that directory, [N] from 0 on, succeed,
    and let the cache files of two different positions be different files.
    After the run the cache file of a position holds the instance of the
    record at that position in the last data file, whatever the earlier
    files had there. *)
Theorem cache_keeps_the_last_file host self file_path files path (j : nat) r
    instance :
  _load_cache self = false → _save_cache self = true →
  _loading_limit self < 0 →
  os_makedirs host (cache_dir_of host file_path) = Ok tt →
  (∀ n i,
     0 ≤ n →
     dill_dump host (cache_filepath host (cache_dir_of host file_path) n) i
     = Ok tt) →
  (∀ a b,
     0 ≤ a → 0 ≤ b →
     cache_filepath host (cache_dir_of host file_path) a
     = cache_filepath host (cache_dir_of host file_path) b → a = b) →
  files_to_read host self file_path = (files ++ [path])%list →
  Forall (readable host self) (files ++ [path]) →
  records_of host self path !! j = Some r →
  instance_or_none self r = Some instance →
  replay (dumped (events (_read host self file_path)))
    (cache_filepath host (cache_dir_of host file_path) (Z.of_nat j))
  = Ok instance.
Proof.
  intros Hload Hsave Hlim Hmk Hdump Hjoin Hfiles Hall Hj Hinst.
  rewrite read_eq. cbv zeta. rewrite Hsave, Hmk, Hfiles.
  assert (effective_reader host self file_path = self) as ->.
  { unfold effective_reader. by rewrite Hload. }
  cbn [events fst]. rewrite dumped_app, dumped_prelude. cbn [app].
  rewrite (read_files_fresh_dumped host self (cache_dir_of host file_path)
             (files ++ [path]) 0 Hload Hsave Hlim ltac:(lia) Hdump Hall).
  rewrite bind_app. cbn [mbind list_bind]. rewrite app_nil_r.
  pose proof (replay_cache_entries host self (cache_dir_of host file_path)
                (-1) (records_of host self path) j r
                (λ a b Ha Hb, Hjoin a b ltac:(lia) ltac:(lia)) Hj) as Hlast.
  rewrite Hinst in Hlast.
  replace (-1 + 1 + Z.of_nat j) with (Z.of_nat j) in Hlast by lia.
  unfold replay in Hlast |- *. rewrite cache_of_app.
  destruct (cache_of (cache_entries host self (cache_dir_of host file_path)
                        (-1) (records_of host self path))
              !! cache_filepath host (cache_dir_of host file_path)
                   (Z.of_nat j)) as [i|] eqn:Hlook; [|done].
  by rewrite (lookup_union_Some_l _ _ _ _ Hlook).
Qed.

Lemma sample_files_readable :
  Forall (readable sample_host sample_caching_reader)
    (["data/split_1.json"; "data/split_2.json"] ++ ["data/split_10.json"]).
Proof.
  assert (∀ path, readable sample_host sample_caching_reader path) as Hall.
  { intros path. split; [by eexists|].
    apply Forall_cons. split.
    - eexists _, _. split; [reflexivity|]. vm_compute. reflexivity.
    - apply Forall_singleton.
      eexists _, _. split; [reflexivity|]. vm_compute. reflexivity. }
  cbn [app]. repeat (apply Forall_cons; split; [apply Hall|]).
  by apply Forall_nil.
Defined.

Lemma cache_keeps_the_last_file_sample :
  ∃ instance,
    replay (dumped (events (_read sample_host sample_caching_reader
                              "data/*.json")))
      (cache_filepath sample_host (cache_dir_of sample_host "data/*.json")
         (Z.of_nat 0))
    = Ok instance.
Proof.
  eexists.
  eapply (cache_keeps_the_last_file sample_host sample_caching_reader
            "data/*.json" ["data/split_1.json"; "data/split_2.json"]
            "data/split_10.json" 0).
  - reflexivity.
  - reflexivity.
  - vm_compute. reflexivity.
  - reflexivity.
  - intros n i _. reflexivity.
  - intros a b _ _. apply cache_filepath_inj.
    intros x y Heq. apply (inj (String.append _)) in Heq.
    by apply (inj (String.append "/")) in Heq.
  - vm_compute. reflexivity.
  - exact sample_files_readable.
  - reflexivity.
  - vm_compute. reflexivity.
Defined.
